(** * catSurv: the estimation engine and the MFII selector

    A shallow embedding of [src/Estimator.cpp] and [src/MFIISelector.cpp].

    - A C++ [double] is a value of an arithmetic interface [Arith]: the
      embedding fixes which operations the code performs and in which
      order, not how they round.  Statements about control flow, errors
      and state hold for every instance; statements about numeric order
      are proved for the instance of exact real arithmetic, [RArith], and
      say so.  The instance [B64] is binary64 itself, with rounding,
      underflow, infinities and NaN: it shows where the program departs
      from the exact values.
    - [int] and [size_t] values are [Z]; vectors are lists; [vector::at]
      throws outside [0 .. size-1].
    - A thrown exception is the [Throw] result; code that mutates the
      [QuestionSet] is a function from the state to a result and the state
      left behind, also when it throws. *)

From Stdlib Require Import ZArith List String Bool Lia Reals Lra Sorted.
From Stdlib Require Floats.
Import ListNotations.

Set Implicit Arguments.

(** ** Results and exceptions *)

Inductive error : Type :=
| domain_error   (* std::domain_error *)
| out_of_range.  (* std::out_of_range, thrown by vector::at *)

Inductive Res (X : Type) : Type :=
| Ok (x : X)
| Throw (e : error).

Arguments Ok {X} x.
Arguments Throw {X} e.

Definition bind {X Y : Type} (c : Res X) (k : X -> Res Y) : Res Y :=
  match c with
  | Ok x => k x
  | Throw e => Throw e
  end.

Declare Scope res_scope.
Delimit Scope res_scope with res.
Notation "'let*' x ':=' c 'in' k" := (bind c (fun x => k))
  (at level 10, x name, c at level 100, k at level 200) : res_scope.
Notation "'let*' ' p ':=' c 'in' k" :=
  (bind c (fun x => match x with p => k end))
  (at level 10, p pattern, c at level 100, k at level 200) : res_scope.
Open Scope res_scope.

(** Monadic left fold: the body of a [for] loop that may throw. *)
Fixpoint foldM {X Y : Type} (f : Y -> X -> Res Y) (l : list X) (acc : Y)
  : Res Y :=
  match l with
  | [] => Ok acc
  | x :: t => let* acc' := f acc x in foldM f t acc'
  end.

Fixpoint mapM {X Y : Type} (f : X -> Res Y) (l : list X) : Res (list Y) :=
  match l with
  | [] => Ok []
  | x :: t => let* y := f x in let* ys := mapM f t in Ok (y :: ys)
  end.

(** [v.at(i)].  The index is a [size_t]; an [int] below zero converts to a
    value of at least [2^63], beyond the size of any vector, so the access
    throws exactly when [i] is outside [0 .. size-1]. *)
Definition vec_at {X : Type} (v : list X) (i : Z) : Res X :=
  if (0 <=? i)%Z && (i <? Z.of_nat (List.length v))%Z then
    match nth_error v (Z.to_nat i) with
    | Some x => Ok x
    | None => Throw out_of_range
    end
  else Throw out_of_range.

(** [v.at(i) = x]. *)
Fixpoint list_set {X : Type} (v : list X) (n : nat) (x : X) : list X :=
  match v, n with
  | [], _ => []
  | _ :: t, O => x :: t
  | y :: t, S m => y :: list_set t m x
  end.

Definition vec_set {X : Type} (v : list X) (i : Z) (x : X) : Res (list X) :=
  if (0 <=? i)%Z && (i <? Z.of_nat (List.length v))%Z then
    Ok (list_set v (Z.to_nat i) x)
  else Throw out_of_range.

(** ** The arithmetic of [double] *)

Class Arith : Type := {
  double : Type;
  of_int : Z -> double;               (* an integral literal or an int converted *)
  add : double -> double -> double;
  sub : double -> double -> double;
  mul : double -> double -> double;
  div : double -> double -> double;
  neg : double -> double;
  exp : double -> double;
  log : double -> double;
  pow : double -> double -> double;   (* std::pow *)
  ltb : double -> double -> bool;     (* x < y *)
  eqb : double -> double -> bool;     (* x == y *)
  isinf : double -> bool              (* std::isinf *)
}.

Declare Scope double_scope.
Delimit Scope double_scope with dbl.
Notation "x + y" := (add x y) : double_scope.
Notation "x - y" := (sub x y) : double_scope.
Notation "x * y" := (mul x y) : double_scope.
Notation "x / y" := (div x y) : double_scope.
Notation "- x" := (neg x) : double_scope.
Notation "x <? y" := (ltb x y) : double_scope.
Notation "x >? y" := (ltb y x) : double_scope.
Notation "x =? y" := (eqb x y) : double_scope.
Notation "0" := (of_int 0) : double_scope.
Notation "1" := (of_int 1) : double_scope.
Notation "2" := (of_int 2) : double_scope.

(** ** The data model *)

Section Model.
Context {A : Arith}.

Record QuestionSet : Type := {
  model : string;
  discrimination : list double;
  difficulty : list (list double);
  guessing : list double;
  answers : list Z;
  applicable_rows : list Z;
  nonapplicable_rows : list Z;
  question_names : list string;
  lowerBound : double;
  upperBound : double;
  z : list double
}.

Record Prior : Type := {
  param0 : double;
  param1 : double;
  prior : double -> double
}.

Record Selection : Type := {
  questions : list Z;
  values : list double;
  name : string;
  sel_question_names : list string;
  item : Z
}.

(** The members of [Estimator] that are declared virtual and defined by its
    subclasses, and the quadrature routine behind [Integrator::integrate]
    (called with the fixed count [integrationSubintervals]).  They read the
    [QuestionSet] and may throw. *)
Record Externals : Type := {
  estimateTheta : QuestionSet -> Prior -> Res double;
  estimateSE : QuestionSet -> Prior -> Res double;
  integrate : (double -> Res double) -> double -> double -> Res double
}.

(** Modelled from the spec: the reserved missing-answer sentinel; the
    constant comes from the R headers, where it is [INT_MIN]. *)
Definition NA_INTEGER : Z := (-2147483648)%Z.

Definition set_answers (qs : QuestionSet) (a : list Z) : QuestionSet :=
  {| model := model qs; discrimination := discrimination qs;
     difficulty := difficulty qs; guessing := guessing qs;
     answers := a; applicable_rows := applicable_rows qs;
     nonapplicable_rows := nonapplicable_rows qs;
     question_names := question_names qs;
     lowerBound := lowerBound qs; upperBound := upperBound qs; z := z qs |}.

Definition set_applicable_rows (qs : QuestionSet) (r : list Z) : QuestionSet :=
  {| model := model qs; discrimination := discrimination qs;
     difficulty := difficulty qs; guessing := guessing qs;
     answers := answers qs; applicable_rows := r;
     nonapplicable_rows := nonapplicable_rows qs;
     question_names := question_names qs;
     lowerBound := lowerBound qs; upperBound := upperBound qs; z := z qs |}.

Definition is_model (qs : QuestionSet) (tag : string) : bool :=
  String.eqb (model qs) tag.

Local Open Scope double_scope.

(** ** Probability models *)

(** [eps = pow(pow(2.0, -52.0), 1.0/3.0)]. *)
Definition eps : double := pow (pow 2 (of_int (-52))) (1 / of_int 3).

Definition prob_ltm (qs : QuestionSet) (theta : double) (question : Z)
  : Res double :=
  let* row := vec_at (difficulty qs) question in
  let* difficulty := vec_at row 0 in
  let* a := vec_at (discrimination qs) question in
  let exp_prob_bi := exp (difficulty + a * theta) in
  if isinf exp_prob_bi then Ok (1 - eps)
  else
    let* guess := vec_at (guessing qs) question in
    let result := guess + (1 - guess) * (exp_prob_bi / (1 + exp_prob_bi)) in
    Ok (if result >? 1 - eps then 1 - eps
        else if result <? eps then eps
        else result).

(** The lambda [calculate] of [prob_grm]. *)
Definition calculate (discrimination theta difficulty : double) : double :=
  let exp_prob := exp (difficulty - discrimination * theta) in
  let result := exp_prob / (1 + exp_prob) in
  let result := if isinf exp_prob then 1 - eps else result in
  let result := if result >? 1 - eps then 1 - eps else result in
  let result := if result <? eps then eps else result in
  result.

(** [std::adjacent_find(first, last) != last]. *)
Fixpoint adjacent_find (l : list double) : bool :=
  match l with
  | x :: (y :: _) as t => (x =? y) || adjacent_find t
  | _ => false
  end.

(** The sequence [0, F_1, ..., F_k, 1] built by [prob_grm]. *)
Definition grm_padded (discrimination theta : double) (row : list double)
  : list double :=
  0 :: map (calculate discrimination theta) row ++ [1].

Definition prob_grm (qs : QuestionSet) (theta : double) (question : Z)
  : Res (list double) :=
  let* discrimination := vec_at (discrimination qs) question in
  let* row := vec_at (difficulty qs) question in
  let probabilities := grm_padded discrimination theta row in
  if adjacent_find probabilities then Throw domain_error
  else Ok probabilities.

(** The loop of [prob_gpcm]: running [sum], [denominator] and the
    unnormalized masses pushed so far. *)
Definition gpcm_step (discrimination theta : double)
  (st : double * double * list double) (cat : double)
  : double * double * list double :=
  let '(sum, denominator, probabilities) := st in
  let sum := sum + discrimination * (theta - cat) in
  let num := exp sum in
  (sum, denominator + num, probabilities ++ [num]).

Definition gpcm_masses (discrimination theta : double) (row : list double)
  : double * double * list double :=
  let sum := discrimination * theta in
  let denominator := exp sum in
  fold_left (gpcm_step discrimination theta) row
            (sum, denominator, [denominator]).

Definition prob_gpcm (qs : QuestionSet) (theta : double) (question : Z)
  : Res (list double) :=
  let* discrimination := vec_at (discrimination qs) question in
  let* categoryparams := vec_at (difficulty qs) question in
  let '(_, denominator, probabilities) :=
    gpcm_masses discrimination theta categoryparams in
  if (denominator =? 0) || isinf denominator then Throw domain_error
  else Ok (map (fun prob => prob / denominator) probabilities).

(** [question] is a [size_t]: a caller's negative [int] arrives as a value
    above every vector size and meets the guard. *)
Definition probability (qs : QuestionSet) (theta : double) (question : Z)
  : Res (list double) :=
  if (question <? 0)%Z || (Z.of_nat (List.length (answers qs)) <? question)%Z
  then Throw domain_error
  else if is_model qs "grm" then prob_grm qs theta question
  else if is_model qs "gpcm" then prob_gpcm qs theta question
  else if is_model qs "ltm" || is_model qs "tpm" then
    let* p := prob_ltm qs theta question in Ok [p]
  else Ok [].

(** ** Likelihood

    The overloads taking one more hypothetical [(question, answer)] pair
    carry the suffix [_qa]. *)

Definition likelihood_grm (qs : QuestionSet) (theta : double) : Res double :=
  let* L :=
    foldM (fun L question =>
             let* answer := vec_at (answers qs) question in
             let* question_cdf := probability qs theta question in
             let* hi := vec_at question_cdf answer in
             let* lo := vec_at question_cdf (answer - 1)%Z in
             Ok (L + log (hi - lo)))
          (applicable_rows qs) 0 in
  Ok (exp L).

Definition likelihood_gpcm (qs : QuestionSet) (theta : double) : Res double :=
  let* L :=
    foldM (fun L question =>
             let* answer := vec_at (answers qs) question in
             let* probs := probability qs theta question in
             let answer := (answer - 1)%Z in
             let* p := vec_at probs answer in
             Ok (L + log p))
          (applicable_rows qs) 0 in
  Ok (exp L).

Definition likelihood_ltm (qs : QuestionSet) (theta : double) : Res double :=
  let* L :=
    foldM (fun L question =>
             let* prob := prob_ltm qs theta question in
             let* this_answer := vec_at (answers qs) question in
             Ok (L + (of_int this_answer * log prob
                      + of_int (1 - this_answer) * log (1 - prob))))
          (applicable_rows qs) 0 in
  Ok (exp L).

Definition likelihood (qs : QuestionSet) (theta : double) : Res double :=
  let likelihood := 0 in
  let* likelihood :=
    if is_model qs "ltm" || is_model qs "tpm" then likelihood_ltm qs theta
    else Ok likelihood in
  let* likelihood :=
    if is_model qs "grm" then likelihood_grm qs theta else Ok likelihood in
  let* likelihood :=
    if is_model qs "gpcm" then likelihood_gpcm qs theta else Ok likelihood in
  Ok likelihood.

Definition likelihood_grm_qa (qs : QuestionSet) (theta : double)
  (question answer : Z) : Res double :=
  let* L :=
    foldM (fun L q =>
             let* a := vec_at (answers qs) q in
             let* question_cdf := probability qs theta q in
             let* hi := vec_at question_cdf a in
             let* lo := vec_at question_cdf (a - 1)%Z in
             Ok (L + log (hi - lo)))
          (applicable_rows qs) 0 in
  let* question_cdf := probability qs theta question in
  let a := answer in
  let* hi := vec_at question_cdf a in
  let* lo := vec_at question_cdf (a - 1)%Z in
  let L := L + log (hi - lo) in
  Ok (exp L).

Definition likelihood_gpcm_qa (qs : QuestionSet) (theta : double)
  (question answer : Z) : Res double :=
  let* L :=
    foldM (fun L q =>
             let* a := vec_at (answers qs) q in
             let* probs := probability qs theta q in
             let* p := vec_at probs (a - 1)%Z in
             Ok (L + log p))
          (applicable_rows qs) 0 in
  let* probs := probability qs theta question in
  let* p := vec_at probs (answer - 1)%Z in
  let L := L + log p in
  Ok (exp L).

Definition likelihood_ltm_qa (qs : QuestionSet) (theta : double)
  (question answer : Z) : Res double :=
  let* L :=
    foldM (fun L q =>
             let* prob := prob_ltm qs theta q in
             let* this_answer := vec_at (answers qs) q in
             Ok (L + (of_int this_answer * log prob
                      + of_int (1 - this_answer) * log (1 - prob))))
          (applicable_rows qs) 0 in
  let* prob := prob_ltm qs theta question in
  let L := L + (of_int answer * log prob
                + of_int (1 - answer) * log (1 - prob)) in
  Ok (exp L).

Definition likelihood_qa (qs : QuestionSet) (theta : double)
  (question answer : Z) : Res double :=
  let likelihood := 0 in
  let* likelihood :=
    if is_model qs "ltm" || is_model qs "tpm"
    then likelihood_ltm_qa qs theta question answer
    else Ok likelihood in
  let* likelihood :=
    if is_model qs "grm" then likelihood_grm_qa qs theta question answer
    else Ok likelihood in
  let* likelihood :=
    if is_model qs "gpcm" then likelihood_gpcm_qa qs theta question answer
    else Ok likelihood in
  Ok likelihood.

(** ** Derivatives of the gpcm category masses *)

(** First loop of [prob_derivs_gpcm]: [sum], [x] and the vectors [f],
    [f_prime], [f_primeprime]. *)
Definition derivs_step (discrimination theta : double)
  (st : double * double * list double * list double * list double)
  (cat : double) :=
  let '(sum, x, f, f_prime, f_primeprime) := st in
  let sum := sum + discrimination * (theta - cat) in
  let num := exp sum in
  let x := x + discrimination in
  (sum, x, f ++ [num], f_prime ++ [num * x], f_primeprime ++ [num * x * x]).

Definition derivs_f (discrimination theta : double) (row : list double) :=
  let sum := discrimination * theta in
  let num := exp sum in
  let x := discrimination in
  fold_left (derivs_step discrimination theta) row
            (sum, x, [num], [num * x], [num * x * x]).

(** Second loop: [x], [g], [g_prime], [g_primeprime] over the entries of [f]. *)
Definition derivs_g (discrimination : double) (f : list double) :=
  fold_left (fun (st : double * double * double * double) fi =>
               let '(x, g, g_prime, g_primeprime) := st in
               let x := x + discrimination in
               (x, g + fi, g_prime + fi * x, g_primeprime + fi * x * x))
            f (0, 0, 0, 0).

Definition prob_derivs_gpcm_first (qs : QuestionSet) (theta : double)
  (question : Z) : Res (list double) :=
  let* discrimination := vec_at (discrimination qs) question in
  let* categoryparams := vec_at (difficulty qs) question in
  let '(_, _, f, f_prime, _) := derivs_f discrimination theta categoryparams in
  let '(_, g, g_prime, _) := derivs_g discrimination f in
  let b := g * g in
  Ok (map (fun '(fi, f_prime_i) => (g * f_prime_i - fi * g_prime) / b)
          (combine f f_prime)).

(** The two output vectors [first] and [second]. *)
Definition prob_derivs_gpcm (qs : QuestionSet) (theta : double)
  (question : Z) : Res (list double * list double) :=
  let* discrimination := vec_at (discrimination qs) question in
  let* categoryparams := vec_at (difficulty qs) question in
  let '(_, _, f, f_prime, f_primeprime) :=
    derivs_f discrimination theta categoryparams in
  let '(_, g, g_prime, g_primeprime) := derivs_g discrimination f in
  let b := g * g in
  let b2 := b * b in
  let b_prime := 2 * g * g_prime in
  let rows := combine f (combine f_prime f_primeprime) in
  Ok (map (fun '(fi, (f_prime_i, _)) =>
             let a := g * f_prime_i - fi * g_prime in a / b) rows,
      map (fun '(fi, (f_prime_i, f_primeprime_i)) =>
             let a := g * f_prime_i - fi * g_prime in
             let a_prime := f_primeprime_i * g - g_primeprime * fi in
             (b * a_prime - a * b_prime) / b2) rows).

(** ** Second derivative of the log-likelihood *)

Definition grm_partial_d2LL (qs : QuestionSet) (theta : double) (question : Z)
  : Res double :=
  let* answer_k := vec_at (answers qs) question in
  let* probabilities := probability qs theta question in
  let* P_star1 := vec_at probabilities answer_k in
  let* P_star2 := vec_at probabilities (answer_k - 1)%Z in
  let P := P_star1 - P_star2 in
  let Q_star1 := 1 - P_star1 in
  let Q_star2 := 1 - P_star2 in
  let w2 := P_star2 * Q_star2 in
  let w1 := P_star1 * Q_star1 in
  let w := w1 - w2 in
  let first_term :=
    (- w2 * (Q_star2 - P_star2) + w1 * (Q_star1 - P_star1)) / P in
  let second_term := pow w 2 / pow P 2 in
  Ok (first_term - second_term).

Definition grm_partial_d2LL_qa (qs : QuestionSet) (theta : double)
  (question answer : Z) : Res double :=
  let* probabilities := probability qs theta question in
  let* P_star1 := vec_at probabilities answer in
  let* P_star2 := vec_at probabilities (answer - 1)%Z in
  let P := P_star1 - P_star2 in
  let Q_star1 := 1 - P_star1 in
  let Q_star2 := 1 - P_star2 in
  let w2 := P_star2 * Q_star2 in
  let w1 := P_star1 * Q_star1 in
  let w := w1 - w2 in
  let first_term :=
    (- w2 * (Q_star2 - P_star2) + w1 * (Q_star1 - P_star1)) / P in
  let second_term := pow w 2 / pow P 2 in
  Ok (first_term - second_term).

Definition gpcm_partial_d2LL (qs : QuestionSet) (theta : double) (question : Z)
  : Res double :=
  let* answer := vec_at (answers qs) question in
  let index := (answer - 1)%Z in
  let* probs := probability qs theta question in
  let* '(probs_1d, probs_2d) := prob_derivs_gpcm qs theta question in
  let* p := vec_at probs index in
  let* p_prime := vec_at probs_1d index in
  let* p_primeprime := vec_at probs_2d index in
  Ok (- (pow p_prime 2 / pow p 2 - p_primeprime / p)).

Definition gpcm_partial_d2LL_qa (qs : QuestionSet) (theta : double)
  (question answer : Z) : Res double :=
  let index := (answer - 1)%Z in
  let* probs := probability qs theta question in
  let* '(probs_1d, probs_2d) := prob_derivs_gpcm qs theta question in
  let* p := vec_at probs index in
  let* p_prime := vec_at probs_1d index in
  let* p_primeprime := vec_at probs_2d index in
  Ok (- (pow p_prime 2 / pow p 2 - p_primeprime / p)).

Definition gpcm_partial_d1LL (qs : QuestionSet) (theta : double) (question : Z)
  : Res double :=
  let* answer := vec_at (answers qs) question in
  let index := (answer - 1)%Z in
  let* probs := probability qs theta question in
  let* probs_1d := prob_derivs_gpcm_first qs theta question in
  let* p := vec_at probs index in
  let* p_prime := vec_at probs_1d index in
  Ok (p_prime / p).

Definition gpcm_partial_d1LL_qa (qs : QuestionSet) (theta : double)
  (question answer : Z) : Res double :=
  let index := (answer - 1)%Z in
  let* probs := probability qs theta question in
  let* probs_1d := prob_derivs_gpcm_first qs theta question in
  let* p := vec_at probs index in
  let* p_prime := vec_at probs_1d index in
  Ok (p_prime / p).

Definition gpcm_d2LL (qs : QuestionSet) (theta : double) : Res double :=
  foldM (fun d2l question =>
           let* t := gpcm_partial_d2LL qs theta question in Ok (d2l + t))
        (applicable_rows qs) 0.

Definition gpcm_d2LL_qa (qs : QuestionSet) (theta : double)
  (question answer : Z) : Res double :=
  let* d2l :=
    foldM (fun d2l q =>
             let* a := vec_at (answers qs) q in
             let* t := gpcm_partial_d2LL_qa qs theta q a in Ok (d2l + t))
          (applicable_rows qs) 0 in
  let* t := gpcm_partial_d2LL_qa qs theta question answer in
  Ok (d2l + t).

Definition grm_d2LL (qs : QuestionSet) (theta : double) : Res double :=
  foldM (fun lambda_theta question =>
           let* d := vec_at (discrimination qs) question in
           let question_discrimination := pow d 2 in
           let* second_derivative := grm_partial_d2LL qs theta question in
           Ok (lambda_theta + question_discrimination * second_derivative))
        (applicable_rows qs) 0.

Definition grm_d2LL_qa (qs : QuestionSet) (theta : double)
  (question answer : Z) : Res double :=
  let* lambda_theta :=
    foldM (fun lambda_theta q =>
             let* d := vec_at (discrimination qs) q in
             let question_discrimination := pow d 2 in
             let* a := vec_at (answers qs) q in
             let* second_derivative := grm_partial_d2LL_qa qs theta q a in
             Ok (lambda_theta + question_discrimination * second_derivative))
          (applicable_rows qs) 0 in
  let* d := vec_at (discrimination qs) question in
  let question_discrimination := pow d 2 in
  let* second_derivative := grm_partial_d2LL_qa qs theta question answer in
  Ok (lambda_theta + question_discrimination * second_derivative).

Definition ltm_d2LL (qs : QuestionSet) (theta : double) : Res double :=
  let* lambda_theta :=
    foldM (fun lambda_theta question =>
             let* P := prob_ltm qs theta question in
             let* guess := vec_at (guessing qs) question in
             let Q := 1 - P in
             let lambda_temp := (P - guess) / (1 - guess) in
             let* discrimination := vec_at (discrimination qs) question in
             Ok (lambda_theta
                 + pow discrimination 2 * pow lambda_temp 2 * (Q / P)))
          (applicable_rows qs) 0 in
  Ok (- lambda_theta).

Definition ltm_d2LL_qa (qs : QuestionSet) (theta : double)
  (question answer : Z) : Res double :=
  let* lambda_theta :=
    foldM (fun lambda_theta q =>
             let* P := prob_ltm qs theta q in
             let* guess := vec_at (guessing qs) q in
             let Q := 1 - P in
             let lambda_temp := (P - guess) / (1 - guess) in
             let* discrimination := vec_at (discrimination qs) q in
             Ok (lambda_theta
                 + pow (discrimination * lambda_temp) 2 * (Q / P)))
          (applicable_rows qs) 0 in
  let* P := prob_ltm qs theta question in
  let* guess := vec_at (guessing qs) question in
  let Q := 1 - P in
  let lambda_temp := (P - guess) / (1 - guess) in
  let* discrimination := vec_at (discrimination qs) question in
  let lambda_theta :=
    lambda_theta + pow (discrimination * lambda_temp) 2 * (Q / P) in
  Ok (- lambda_theta).

(** ** First derivative of the log-likelihood *)

Definition gpcm_d1LL (qs : QuestionSet) (theta : double) : Res double :=
  foldM (fun d1l question =>
           let* t := gpcm_partial_d1LL qs theta question in Ok (d1l + t))
        (applicable_rows qs) 0.

Definition gpcm_d1LL_qa (qs : QuestionSet) (theta : double)
  (question answer : Z) : Res double :=
  let* d1l :=
    foldM (fun d1l q =>
             let* a := vec_at (answers qs) q in
             let* t := gpcm_partial_d1LL_qa qs theta q a in Ok (d1l + t))
          (applicable_rows qs) 0 in
  let* t := gpcm_partial_d1LL_qa qs theta question answer in
  Ok (d1l + t).

Definition grm_d1LL (qs : QuestionSet) (theta : double) : Res double :=
  foldM (fun l_theta question =>
           let* answer_k := vec_at (answers qs) question in
           let* probabilities := probability qs theta question in
           let* P_star1 := vec_at probabilities answer_k in
           let Q_star1 := 1 - P_star1 in
           let* P_star2 := vec_at probabilities (answer_k - 1)%Z in
           let Q_star2 := 1 - P_star2 in
           let P := P_star1 - P_star2 in
           let w2 := P_star2 * Q_star2 in
           let w1 := P_star1 * Q_star1 in
           let* d := vec_at (discrimination qs) question in
           Ok (l_theta + of_int (-1) * d * ((w1 - w2) / P)))
        (applicable_rows qs) 0.

Definition grm_d1LL_qa (qs : QuestionSet) (theta : double)
  (question answer : Z) : Res double :=
  let* l_theta :=
    foldM (fun l_theta q =>
             let* answer_k := vec_at (answers qs) q in
             let* probabilities := probability qs theta q in
             let* P_star1 := vec_at probabilities answer_k in
             let* P_star2 := vec_at probabilities (answer_k - 1)%Z in
             let P := P_star1 - P_star2 in
             let w := P_star1 * (1 - P_star1) - P_star2 * (1 - P_star2) in
             let* d := vec_at (discrimination qs) q in
             Ok (l_theta + of_int (-1) * d * (w / P)))
          (applicable_rows qs) 0 in
  let* probabilities := probability qs theta question in
  let* P_star1 := vec_at probabilities answer in
  let* P_star2 := vec_at probabilities (answer - 1)%Z in
  let P := P_star1 - P_star2 in
  let w := P_star1 * (1 - P_star1) - P_star2 * (1 - P_star2) in
  let* d := vec_at (discrimination qs) question in
  Ok (l_theta + of_int (-1) * d * (w / P)).

Definition ltm_d1LL (qs : QuestionSet) (theta : double) : Res double :=
  foldM (fun l_theta question =>
           let* P := prob_ltm qs theta question in
           let* guess := vec_at (guessing qs) question in
           let* answer := vec_at (answers qs) question in
           let answer := of_int answer in
           let* discrimination := vec_at (discrimination qs) question in
           Ok (l_theta
               + discrimination * ((P - guess) / (P * (1 - guess)))
                 * (answer - P)))
        (applicable_rows qs) 0.

Definition ltm_d1LL_qa (qs : QuestionSet) (theta : double)
  (question answer : Z) : Res double :=
  let* l_theta :=
    foldM (fun l_theta q =>
             let* P := prob_ltm qs theta q in
             let* guess := vec_at (guessing qs) q in
             let* a := vec_at (answers qs) q in
             let a := of_int a in
             let* discrimination := vec_at (discrimination qs) q in
             Ok (l_theta
                 + discrimination * ((P - guess) / (P * (1 - guess)))
                   * (a - P)))
          (applicable_rows qs) 0 in
  let* P := prob_ltm qs theta question in
  let* guess := vec_at (guessing qs) question in
  let* discrimination := vec_at (discrimination qs) question in
  Ok (l_theta
      + discrimination * ((P - guess) / (P * (1 - guess)))
        * (of_int answer - P)).

Definition d1LL (qs : QuestionSet) (theta : double) (use_prior : bool)
  (prior : Prior) : Res double :=
  let prior_shift := (theta - param0 prior) / pow (param1 prior) 2 in
  match applicable_rows qs with
  | [] => Ok prior_shift
  | _ :: _ =>
      let l_theta := 0 in
      let* l_theta :=
        if is_model qs "ltm" || is_model qs "tpm" then ltm_d1LL qs theta
        else Ok l_theta in
      let* l_theta :=
        if is_model qs "grm" then grm_d1LL qs theta else Ok l_theta in
      let* l_theta :=
        if is_model qs "gpcm" then gpcm_d1LL qs theta else Ok l_theta in
      Ok (if use_prior then l_theta - prior_shift else l_theta)
  end.

Definition d1LL_qa (qs : QuestionSet) (theta : double) (use_prior : bool)
  (prior : Prior) (question answer : Z) : Res double :=
  let l_theta := 0 in
  let* l_theta :=
    if is_model qs "ltm" || is_model qs "tpm"
    then ltm_d1LL_qa qs theta question answer
    else Ok l_theta in
  let* l_theta :=
    if is_model qs "grm" then grm_d1LL_qa qs theta question answer
    else Ok l_theta in
  let* l_theta :=
    if is_model qs "gpcm" then gpcm_d1LL_qa qs theta question answer
    else Ok l_theta in
  Ok (if use_prior
      then l_theta - (theta - param0 prior) / pow (param1 prior) 2
      else l_theta).

Definition d2LL (qs : QuestionSet) (theta : double) (use_prior : bool)
  (prior : Prior) : Res double :=
  let prior_shift := 1 / pow (param1 prior) 2 in
  match applicable_rows qs with
  | [] => Ok (- prior_shift)
  | _ :: _ =>
      let lambda_theta := 0 in
      let* lambda_theta :=
        if is_model qs "ltm" || is_model qs "tpm" then ltm_d2LL qs theta
        else Ok lambda_theta in
      let* lambda_theta :=
        if is_model qs "grm" then grm_d2LL qs theta else Ok lambda_theta in
      let* lambda_theta :=
        if is_model qs "gpcm" then gpcm_d2LL qs theta else Ok lambda_theta in
      Ok (if use_prior then lambda_theta - prior_shift else lambda_theta)
  end.

Definition d2LL_qa (qs : QuestionSet) (theta : double) (use_prior : bool)
  (prior : Prior) (question answer : Z) : Res double :=
  let lambda_theta := 0 in
  let* lambda_theta :=
    if is_model qs "ltm" || is_model qs "tpm"
    then ltm_d2LL_qa qs theta question answer
    else Ok lambda_theta in
  let* lambda_theta :=
    if is_model qs "grm" then grm_d2LL_qa qs theta question answer
    else Ok lambda_theta in
  let* lambda_theta :=
    if is_model qs "gpcm" then gpcm_d2LL_qa qs theta question answer
    else Ok lambda_theta in
  Ok (if use_prior then lambda_theta - 1 / pow (param1 prior) 2
      else lambda_theta).

(** ** Information *)

Definition obsInf (qs : QuestionSet) (theta : double) (item : Z) : Res double :=
  let* discrimination := vec_at (discrimination qs) item in
  if is_model qs "grm" then
    let* t := grm_partial_d2LL qs theta item in
    Ok (- pow discrimination 2 * t)
  else if is_model qs "gpcm" then
    let* t := gpcm_partial_d2LL qs theta item in
    Ok (- t)
  else
    let* guess := vec_at (guessing qs) item in
    let* P := prob_ltm qs theta item in
    let Q := 1 - P in
    let temp := pow ((P - guess) / (1 - guess)) 2 in
    Ok (pow discrimination 2 * temp * (Q / P)).

(** The index range [first, first + 1, ..., first + count - 1] of a
    counting [for] loop. *)
Definition indices (first : Z) (count : nat) : list Z :=
  map (fun n => (first + Z.of_nat n)%Z) (seq 0 count).

Definition fisherInf (qs : QuestionSet) (theta : double) (item : Z)
  : Res double :=
  if is_model qs "ltm" || is_model qs "tpm" then obsInf qs theta item
  else
    let output := 0 in
    let* probabilities := probability qs theta item in
    let* d := vec_at (discrimination qs) item in
    let discrimination_squared := pow d 2 in
    let* output :=
      if is_model qs "grm" then
        let* row := vec_at (difficulty qs) item in
        foldM (fun output i =>
                 let* P_star1 := vec_at probabilities i in
                 let* P_star2 := vec_at probabilities (i - 1)%Z in
                 let w1 := P_star1 * (1 - P_star1) in
                 let w2 := P_star2 * (1 - P_star2) in
                 Ok (output
                     + discrimination_squared
                       * (pow (w1 - w2) 2 / (P_star1 - P_star2))))
              (indices 1 (List.length row + 1)) output
      else Ok output in
    let* output :=
      if is_model qs "gpcm" then
        let* '(prob_firstderiv, prob_secondderiv) :=
          prob_derivs_gpcm qs theta item in
        foldM (fun output i =>
                 let* p := vec_at probabilities i in
                 let* p_prime := vec_at prob_firstderiv i in
                 let* p_primeprime := vec_at prob_secondderiv i in
                 Ok (output + (pow p_prime 2 / p - p_primeprime)))
              (indices 0 (List.length probabilities)) output
      else Ok output in
    Ok output.

Section WithExternals.
Variable ext : Externals.

Definition fisherTestInfo (qs : QuestionSet) (prior : Prior) : Res double :=
  let* theta := estimateTheta ext qs prior in
  foldM (fun sum item =>
           let* t := fisherInf qs theta item in Ok (sum + t))
        (applicable_rows qs) 0.

(** The literal [0.5] is written [1 / 2], the same [double]. *)
Definition fii (qs : QuestionSet) (item : Z) (prior : Prior) : Res double :=
  let fii_j := fun theta_not => fisherInf qs theta_not item in
  let* z0 := vec_at (z qs) 0 in
  let* info := fisherTestInfo qs prior in
  let delta := z0 * pow info (1 / 2) in
  let* t := estimateTheta ext qs prior in
  let lower := t - delta in
  let* t := estimateTheta ext qs prior in
  let upper := t + delta in
  integrate ext fii_j lower upper.

(** ** MFIISelector *)

(** One iteration of the loop of [selectItem]: the names and values pushed
    so far, [max_mfii] and [max_item].  [question_names[question]] is an
    unchecked access. *)
Definition selectItem_step (qs : QuestionSet) (prior : Prior)
  (st : list string * list double * double * Z) (question : Z)
  : Res (list string * list double * double * Z) :=
  let '(names, vals, max_mfii, max_item) := st in
  let names := names ++ [nth (Z.to_nat question) (question_names qs) ""%string] in
  let* v := fii qs question prior in
  let vals := vals ++ [v] in
  if v >? max_mfii then Ok (names, vals, v, question)
  else Ok (names, vals, max_mfii, max_item).

Definition selectItem (qs : QuestionSet) (prior : Prior) : Res Selection :=
  let max_mfii := 0 in
  let max_item := (-1)%Z in
  let* '(names, vals, _, max_item) :=
    foldM (selectItem_step qs prior) (nonapplicable_rows qs)
          ([], [], max_mfii, max_item) in
  Ok {| questions := nonapplicable_rows qs;
        values := vals;
        name := "MFII";
        sel_question_names := names;
        item := max_item |}.

(** ** Expected posterior variance

    These functions write to the [QuestionSet]: a computation takes the
    state and gives its result, [Ok] or [Throw], with the state it leaves. *)

Definition M (X : Type) : Type := QuestionSet -> Res X * QuestionSet.

Definition ret {X : Type} (x : X) : M X := fun qs => (Ok x, qs).

Definition bindM {X Y : Type} (c : M X) (k : X -> M Y) : M Y :=
  fun qs =>
    match c qs with
    | (Ok x, qs') => k x qs'
    | (Throw e, qs') => (Throw e, qs')
    end.

(** A call that only reads the [QuestionSet]. *)
Definition read {X : Type} (r : QuestionSet -> Res X) : M X :=
  fun qs => (r qs, qs).

(** [questionSet.applicable_rows.push_back(item)]. *)
Definition push_back_row (item : Z) : M unit :=
  fun qs => (Ok tt, set_applicable_rows qs (applicable_rows qs ++ [item])).

(** [questionSet.applicable_rows.pop_back()]. *)
Definition pop_back_row : M unit :=
  fun qs => (Ok tt, set_applicable_rows qs (removelast (applicable_rows qs))).

(** [questionSet.answers.at(item) = v]. *)
Definition assign_answer (item v : Z) : M unit :=
  fun qs =>
    match vec_set (answers qs) item v with
    | Ok a => (Ok tt, set_answers qs a)
    | Throw e => (Throw e, qs)
    end.

Notation "'let!' x ':=' c 'in' k" := (bindM c (fun x => k))
  (at level 10, x name, c at level 100, k at level 200).

Fixpoint forM {X Y : Type} (f : Y -> X -> M Y) (l : list X) (acc : Y) : M Y :=
  match l with
  | [] => ret acc
  | x :: t => let! acc' := f acc x in forM f t acc'
  end.

Definition polytomous_posterior_variance (item : Z) (prior : Prior)
  : M double :=
  let! probabilities :=
    read (fun qs => let* t := estimateTheta ext qs prior in
                    probability qs t item) in
  let! _ := push_back_row item in
  let! row := read (fun qs => vec_at (difficulty qs) item) in
  let! variances :=
    forM (fun variances i =>
            let! _ := assign_answer item (i + 1)%Z in
            let! se := read (fun qs => estimateSE ext qs prior) in
            ret (variances ++ [pow se 2]))
         (indices 0 (List.length row + 1)) [] in
  let sum := 0 in
  let! sum :=
    read (fun qs =>
            if is_model qs "grm" then
              foldM (fun sum i =>
                       let* v := vec_at variances (i - 1)%Z in
                       let* hi := vec_at probabilities i in
                       let* lo := vec_at probabilities (i - 1)%Z in
                       Ok (sum + v * (hi - lo)))
                    (indices 1 (List.length probabilities - 1)) sum
            else Ok sum) in
  let! sum :=
    read (fun qs =>
            if is_model qs "gpcm" then
              foldM (fun sum i =>
                       let* v := vec_at variances i in
                       let* p := vec_at probabilities i in
                       Ok (sum + v * p))
                    (indices 0 (List.length probabilities)) sum
            else Ok sum) in
  let! _ := pop_back_row in
  ret sum.

Definition binary_posterior_variance (item : Z) (prior : Prior) : M double :=
  let! probability_incorrect :=
    read (fun qs => let* t := estimateTheta ext qs prior in
                    prob_ltm qs t item) in
  let! _ := push_back_row item in
  let! _ := assign_answer item 1 in
  let! se := read (fun qs => estimateSE ext qs prior) in
  let variance_correct := pow se 2 in
  let! _ := assign_answer item 0 in
  let! se := read (fun qs => estimateSE ext qs prior) in
  let variance_incorrect := pow se 2 in
  let! _ := pop_back_row in
  ret (probability_incorrect * variance_correct
       + (1 - probability_incorrect) * variance_incorrect).

Definition model_is (tag : string) : M bool :=
  fun qs => (Ok (is_model qs tag), qs).

Definition expectedPV (item : Z) (prior : Prior) : M double :=
  let result := 0 in
  let! ltm := model_is "ltm" in
  let! tpm := model_is "tpm" in
  let! result :=
    if ltm || tpm then binary_posterior_variance item prior else ret result in
  let! grm := model_is "grm" in
  let! result :=
    if grm then polytomous_posterior_variance item prior else ret result in
  let! gpcm := model_is "gpcm" in
  let! result :=
    if gpcm then polytomous_posterior_variance item prior else ret result in
  let! _ := assign_answer item NA_INTEGER in
  ret result.

End WithExternals.

End Model.

Arguments QuestionSet : clear implicits.
Arguments Prior : clear implicits.
Arguments Selection : clear implicits.
Arguments Externals : clear implicits.

(** ** The remaining overloads and criteria of [Estimator] *)

Section Criteria.
Context {A : Arith}.

Local Open Scope double_scope.

(** The overloads of the virtual [estimateTheta] and [estimateSE] that take
    one more hypothetical [(question, answer)] pair. *)
Record ExternalsQA : Type := {
  estimateTheta_qa : QuestionSet A -> Prior A -> Z -> Z -> Res double;
  estimateSE_qa : QuestionSet A -> Prior A -> Z -> Z -> Res double
}.

Definition obsInf_qa (qs : QuestionSet A) (theta : double) (item answer : Z)
  : Res double :=
  let* discrimination := vec_at (discrimination qs) item in
  if is_model qs "grm" then
    let* t := grm_partial_d2LL_qa qs theta item answer in
    Ok (- pow discrimination 2 * t)
  else if is_model qs "gpcm" then
    let* t := gpcm_partial_d2LL_qa qs theta item answer in
    Ok (- t)
  else
    let* guess := vec_at (guessing qs) item in
    let* P := prob_ltm qs theta item in
    let Q := 1 - P in
    let temp := pow ((P - guess) / (1 - guess)) 2 in
    Ok (pow discrimination 2 * temp * (Q / P)).

Definition fisherInf_qa (qs : QuestionSet A) (theta : double)
  (item answer : Z) : Res double :=
  if is_model qs "ltm" || is_model qs "tpm"
  then obsInf_qa qs theta item answer
  else
    let output := 0 in
    let* probabilities := probability qs theta item in
    let* d := vec_at (discrimination qs) item in
    let discrimination_squared := pow d 2 in
    let* output :=
      if is_model qs "grm" then
        let* row := vec_at (difficulty qs) item in
        foldM (fun output i =>
                 let* P_star1 := vec_at probabilities i in
                 let* P_star2 := vec_at probabilities (i - 1)%Z in
                 let w1 := P_star1 * (1 - P_star1) in
                 let w2 := P_star2 * (1 - P_star2) in
                 Ok (output
                     + discrimination_squared
                       * (pow (w1 - w2) 2 / (P_star1 - P_star2))))
              (indices 1 (List.length row + 1)) output
      else Ok output in
    let* output :=
      if is_model qs "gpcm" then
        let* '(prob_firstderiv, prob_secondderiv) :=
          prob_derivs_gpcm qs theta item in
        foldM (fun output i =>
                 let* p := vec_at probabilities i in
                 let* p_prime := vec_at prob_firstderiv i in
                 let* p_primeprime := vec_at prob_secondderiv i in
                 Ok (output + (pow p_prime 2 / p - p_primeprime)))
              (indices 0 (List.length probabilities)) output
      else Ok output in
    Ok output.

Definition fisherTestInfo_qa (extq : ExternalsQA) (qs : QuestionSet A)
  (prior : Prior A) (question answer : Z) : Res double :=
  let* theta := estimateTheta_qa extq qs prior question answer in
  let* sum :=
    foldM (fun sum item =>
             let* a := vec_at (answers qs) item in
             let* t := fisherInf_qa qs theta item a in Ok (sum + t))
          (applicable_rows qs) 0 in
  let* t := fisherInf_qa qs theta question answer in
  Ok (sum + t).

Definition kl (qs : QuestionSet A) (theta_not : double) (item : Z)
  (theta : double) : Res double :=
  let sum := 0 in
  let* sum :=
    if is_model qs "grm" then
      let* cdf_theta_not := probability qs theta_not item in
      let* cdf_theta_hat := probability qs theta item in
      foldM (fun sum i =>
               let* hi := vec_at cdf_theta_not i in
               let* lo := vec_at cdf_theta_not (i - 1)%Z in
               let prob_theta_not := hi - lo in
               let* hi := vec_at cdf_theta_hat i in
               let* lo := vec_at cdf_theta_hat (i - 1)%Z in
               let prob_theta_hat := hi - lo in
               Ok (sum + prob_theta_not
                         * (log prob_theta_not - log prob_theta_hat)))
            (indices 1 (List.length cdf_theta_hat - 1)) sum
    else Ok sum in
  let* sum :=
    if is_model qs "gpcm" then
      let* prob_theta_not := probability qs theta_not item in
      let* prob_theta_hat := probability qs theta item in
      foldM (fun sum i =>
               let* p := vec_at prob_theta_not i in
               let* p' := vec_at prob_theta_not i in
               let* q := vec_at prob_theta_hat i in
               Ok (sum + p * (log p' - log q)))
            (indices 0 (List.length prob_theta_not)) sum
    else Ok sum in
  let* sum :=
    if is_model qs "ltm" || is_model qs "tpm" then
      let* prob_theta_not := prob_ltm qs theta_not item in
      let* prob_theta_hat := prob_ltm qs theta item in
      let first_term :=
        prob_theta_not * (log prob_theta_not - log prob_theta_hat) in
      let second_term :=
        (1 - prob_theta_not)
        * (log (1 - prob_theta_not) - log (1 - prob_theta_hat)) in
      Ok (first_term + second_term)
    else Ok sum in
  Ok sum.

Section WithEstimators.
Variables (ext : Externals A) (extq : ExternalsQA).

Definition expectedPV_ltm_tpm (qs : QuestionSet A) (item : Z)
  (prior : Prior A) : Res double :=
  let* t := estimateTheta ext qs prior in
  let* probability_incorrect := prob_ltm qs t item in
  let* se := estimateSE_qa extq qs prior item 1 in
  let variance_correct := pow se 2 in
  let* se := estimateSE_qa extq qs prior item 0 in
  let variance_incorrect := pow se 2 in
  Ok (probability_incorrect * variance_correct
      + (1 - probability_incorrect) * variance_incorrect).

Definition expectedPV_grm_gpcm (qs : QuestionSet A) (item : Z)
  (prior : Prior A) : Res double :=
  let* t := estimateTheta ext qs prior in
  let* probabilities := probability qs t item in
  let sum := 0 in
  let* sum :=
    if is_model qs "grm" then
      foldM (fun sum i =>
               let* se := estimateSE_qa extq qs prior item i in
               let var := pow se 2 in
               let* hi := vec_at probabilities i in
               let* lo := vec_at probabilities (i - 1)%Z in
               Ok (sum + var * (hi - lo)))
            (indices 1 (List.length probabilities - 1)) sum
    else Ok sum in
  let* sum :=
    if is_model qs "gpcm" then
      foldM (fun sum i =>
               let* se := estimateSE_qa extq qs prior item (i + 1)%Z in
               let var := pow se 2 in
               let* p := vec_at probabilities i in
               Ok (sum + var * p))
            (indices 0 (List.length probabilities)) sum
    else Ok sum in
  Ok sum.

Definition expectedObsInf_rest (qs : QuestionSet A) (item : Z)
  (prior : Prior A) : Res double :=
  let* t := estimateTheta ext qs prior in
  let* prob_one := prob_ltm qs t item in
  let* t := estimateTheta_qa extq qs prior item 0 in
  let* obsInfZero := obsInf_qa qs t item 0 in
  let* t := estimateTheta_qa extq qs prior item 1 in
  let* obsInfOne := obsInf_qa qs t item 1 in
  Ok (prob_one * obsInfOne + (1 - prob_one) * obsInfZero).

Definition expectedObsInf_grm (qs : QuestionSet A) (item : Z)
  (prior : Prior A) : Res double :=
  let* t := estimateTheta ext qs prior in
  let* probabilities := probability qs t item in
  foldM (fun sum i =>
           let* t := estimateTheta_qa extq qs prior item i in
           let* v := obsInf_qa qs t item i in
           let* hi := vec_at probabilities i in
           let* lo := vec_at probabilities (i - 1)%Z in
           Ok (sum + v * (hi - lo)))
        (indices 1 (List.length probabilities - 1)) 0.

Definition expectedObsInf_gpcm (qs : QuestionSet A) (item : Z)
  (prior : Prior A) : Res double :=
  let* t := estimateTheta ext qs prior in
  let* probabilities := probability qs t item in
  foldM (fun sum i =>
           let* t := estimateTheta_qa extq qs prior item (i + 1)%Z in
           let* v := obsInf_qa qs t item (i + 1)%Z in
           let* p := vec_at probabilities i in
           Ok (sum + v * p))
        (indices 0 (List.length probabilities)) 0.

Local Notation "'let!' x ':=' c 'in' k" := (bindM c (fun x => k))
  (at level 10, x name, c at level 100, k at level 200).

(** [expectedObsInf] writes to the [QuestionSet] as [expectedPV] does. *)
Definition expectedObsInf (item : Z) (prior : Prior A) : M double :=
  let! polytomous :=
    (fun qs => (Ok (is_model qs "grm" || is_model qs "gpcm"), qs)) in
  if (polytomous : bool) then
    let! probabilities :=
      read (fun qs => let* t := estimateTheta ext qs prior in
                      probability qs t item) in
    let! _ := push_back_row item in
    let sum := 0 in
    let! row := read (fun qs => vec_at (difficulty qs) item) in
    let! obsInfs :=
      forM (fun obsInfs i =>
              let! _ := assign_answer item (i + 1)%Z in
              let! v := read (fun qs => let* t := estimateTheta ext qs prior in
                                        obsInf qs t item) in
              ret (obsInfs ++ [v]))
           (indices 0 (List.length row + 1)) [] in
    let! _ := assign_answer item NA_INTEGER in
    let! _ := pop_back_row in
    let! sum :=
      read (fun qs =>
              if is_model qs "grm" then
                foldM (fun sum i =>
                         let* v := vec_at obsInfs (i - 1)%Z in
                         let* hi := vec_at probabilities i in
                         let* lo := vec_at probabilities (i - 1)%Z in
                         Ok (sum + v * (hi - lo)))
                      (indices 1 (List.length probabilities - 1)) sum
              else Ok sum) in
    let! sum :=
      read (fun qs =>
              if is_model qs "gpcm" then
                foldM (fun sum i =>
                         let* v := vec_at obsInfs i in
                         let* p := vec_at probabilities i in
                         Ok (sum + v * p))
                      (indices 0 (List.length probabilities)) sum
              else Ok sum) in
    ret sum
  else
    let! prob_one :=
      read (fun qs => let* t := estimateTheta ext qs prior in
                      prob_ltm qs t item) in
    let! _ := push_back_row item in
    let! _ := assign_answer item 0 in
    let! obsInfZero :=
      read (fun qs => let* t := estimateTheta ext qs prior in
                      obsInf qs t item) in
    let! _ := assign_answer item 1 in
    let! obsInfOne :=
      read (fun qs => let* t := estimateTheta ext qs prior in
                      obsInf qs t item) in
    let! _ := pop_back_row in
    let! _ := assign_answer item NA_INTEGER in
    ret (prob_one * obsInfOne + (1 - prob_one) * obsInfZero).

End WithEstimators.

End Criteria.

Arguments ExternalsQA : clear implicits.

(** ** Exact real arithmetic

    Every operation gives the exact real result, and a value counts as
    infinite when its magnitude is above [DBL_MAX].  Where the C operation
    has no real value (a zero divisor, the logarithm of a number that is
    not positive, a negative base with a fractional exponent) the result
    is the one of the library function used, or [0]. *)

Definition DBL_MAX : R := ((2 - / IZR (2 ^ 52)) * IZR (2 ^ 1023))%R.

Definition Rltb (x y : R) : bool := if Rlt_dec x y then true else false.

Definition Reqb (x y : R) : bool := if Req_dec_T x y then true else false.

(** [std::pow] on the reals. *)
Definition Rpow (x y : R) : R :=
  if Rlt_dec 0 x then Rpower x y
  else if Req_dec_T x 0 then
    if Rlt_dec 0 y then 0%R else if Req_dec_T y 0 then 1%R else 0%R
  else
    let n := (up y - 1)%Z in
    if Req_dec_T (IZR n) y then
      if Z.even n then Rpower (- x) y else (- Rpower (- x) y)%R
    else 0%R.

#[export] Instance RArith : Arith := {|
  double := R;
  of_int := IZR;
  add := Rplus;
  sub := Rminus;
  mul := Rmult;
  div := Rdiv;
  neg := Ropp;
  exp := Rtrigo_def.exp;
  log := ln;
  pow := Rpow;
  ltb := Rltb;
  eqb := Reqb;
  isinf := fun x => Rltb DBL_MAX (Rabs x)
|}.

(** ** Binary64 arithmetic

    The arithmetic of the program: the kernel's binary64 numbers for the
    operations and comparisons of IEEE 754, and reference functions [exp],
    [log] and [pow] for the ones the program takes from the C library,
    which the C standard does not fix to the last bit.  The reference
    functions evaluate their series in fixed point with 160 fractional
    bits and round the result once to the nearest double. *)

Module Binary64.
Import Floats.
Local Open Scope bool_scope.
Local Open Scope Z_scope.

Definition frac_bits : Z := 160.

(** [1] as a fixed-point number. *)
Definition fx_one : Z := Z.shiftl 1 frac_bits.

(** [z + z^3/3 + z^5/5 + ...] on fixed-point numbers. *)
Fixpoint atanh_series (fuel : nat) (z z2 k acc : Z) : Z :=
  match fuel with
  | O => acc
  | S f => atanh_series f (z * z2 / fx_one) z2 (k + 2) (acc + z / k)
  end.

Definition atanh_fix (z : Z) : Z :=
  atanh_series 60 z (z * z / fx_one) 1 0.

(** [ln 2 = 2 atanh (1/3)]. *)
Definition ln2_fix : Z := Eval vm_compute in 2 * atanh_fix (fx_one / 3).

(** [1 + r + r^2/2! + ...] on fixed-point numbers. *)
Fixpoint exp_series (fuel : nat) (term n r acc : Z) : Z :=
  match fuel with
  | O => acc
  | S f => exp_series f (term * r / fx_one / n) (n + 1) r (acc + term)
  end.

(** The double nearest to [m * 2^e], ties to even. *)
Definition round (m e : Z) : float :=
  SF2Prim (binary_normalize prec emax m e false).

Definition of_Z (z : Z) : float := round z 0.

(** The exponential of a fixed-point number, rounded: [x = k ln 2 + r]
    with [|r| <= ln 2 / 2]. *)
Definition exp_fix (x : Z) : float :=
  if 1024 * fx_one <? x then infinity
  else if x <? -1100 * fx_one then zero
  else
    let k := (2 * x + ln2_fix) / (2 * ln2_fix) in
    let r := x - k * ln2_fix in
    round (exp_series 45 fx_one 1 r 0) (k - frac_bits).

(** The finite double [(-1)^s m 2^e] as a fixed-point number. *)
Definition to_fix (s : bool) (m : positive) (e : Z) : Z :=
  let v := Z.shiftl (Zpos m) (e + frac_bits) in if s then - v else v.

Definition exp (x : float) : float :=
  match Prim2SF x with
  | S754_nan => nan
  | S754_zero _ => one
  | S754_infinity s => if s then zero else infinity
  | S754_finite s m e =>
      if 1100 <? e + Z.log2 (Zpos m) then (if s then zero else infinity)
      else exp_fix (to_fix s m e)
  end.

(** The logarithm of [m 2^e] as a fixed-point number: [m 2^e = f 2^q]
    with [3/4 <= f <= 3/2] and [ln f = 2 atanh ((f - 1) / (f + 1))]. *)
Definition ln_fix (m : positive) (e : Z) : Z :=
  let d := Z.log2 (Zpos m) in
  let F := Z.shiftl (Zpos m) (frac_bits - d) in
  let '(F, q) :=
    if 3 * fx_one <? 2 * F then (F / 2, e + d + 1) else (F, e + d) in
  q * ln2_fix + 2 * atanh_fix ((F - fx_one) * fx_one / (F + fx_one)).

Definition log (x : float) : float :=
  match Prim2SF x with
  | S754_nan => nan
  | S754_zero _ => neg_infinity
  | S754_infinity s => if s then nan else infinity
  | S754_finite s m e => if s then nan else round (ln_fix m e) (- frac_bits)
  end.

(** Whether [m 2^e] is an integer, and an odd one. *)
Definition is_integer (m : positive) (e : Z) : bool :=
  (0 <=? e) || (Z.land (Zpos m) (Z.ones (- e)) =? 0).

Definition is_odd (m : positive) (e : Z) : bool :=
  is_integer m e && (e <=? 0) && Z.odd (Z.shiftr (Zpos m) (- e)).

(** [std::pow], with the special cases of the C standard. *)
Definition pow (x y : float) : float :=
  match Prim2SF x, Prim2SF y with
  | _, S754_zero _ => one
  | S754_nan, _ => nan
  | _, S754_nan => if eqb x one then one else nan
  | S754_zero sx, S754_finite sy my ey =>
      let r := if sy then infinity else zero in
      if sx && is_odd my ey then opp r else r
  | S754_zero _, S754_infinity sy => if sy then infinity else zero
  | S754_infinity sx, S754_finite sy my ey =>
      let r := if sy then zero else infinity in
      if sx && is_odd my ey then opp r else r
  | S754_infinity _, S754_infinity sy => if sy then zero else infinity
  | S754_finite sx mx ex, S754_infinity sy =>
      if eqb (abs x) one then one
      else if xorb (ltb (abs x) one) sy then zero else infinity
  | S754_finite sx mx ex, S754_finite sy my ey =>
      if sx && negb (is_integer my ey) then nan
      else
        let l := ln_fix mx ex in
        let t :=
          if 1100 <? ey + Z.log2 (Zpos my) then
            (if l =? 0 then 0
             else if xorb (l <? 0) sy then -1200 * fx_one
                  else 1200 * fx_one)
          else Z.shiftr (to_fix sy my ey * l) frac_bits in
        let r := exp_fix t in
        if sx && is_odd my ey then opp r else r
  end.

(** The double nearest to [a / b], for integers below [2^53]. *)
Definition ratio (a b : Z) : float := div (of_Z a) (of_Z b).

End Binary64.

Definition B64 : Arith := {|
  double := PrimFloat.float;
  of_int := Binary64.of_Z;
  add := PrimFloat.add;
  sub := PrimFloat.sub;
  mul := PrimFloat.mul;
  div := PrimFloat.div;
  neg := PrimFloat.opp;
  exp := Binary64.exp;
  log := Binary64.log;
  pow := Binary64.pow;
  ltb := PrimFloat.ltb;
  eqb := PrimFloat.eqb;
  isinf := PrimFloat.is_infinity
|}.

(** ** Well-formed states *)

Section Shape.
Context {A : Arith}.

(** The per-item arrays have one entry per item, as [answers] has. *)
Definition parallel (qs : QuestionSet A) : Prop :=
  List.length (discrimination qs) = List.length (answers qs)
  /\ List.length (difficulty qs) = List.length (answers qs)
  /\ List.length (guessing qs) = List.length (answers qs).

Definition valid_item (qs : QuestionSet A) (question : Z) : Prop :=
  (0 <= question < Z.of_nat (List.length (answers qs)))%Z.

Definition known_model (qs : QuestionSet A) : Prop :=
  In (model qs) ["ltm"; "tpm"; "grm"; "gpcm"]%string.

(** Two neighbours of the sequence compare equal under [==]. *)
Definition adjacent_equal (l : list double) : Prop :=
  exists l1 x y l2, l = l1 ++ x :: y :: l2 /\ eqb x y = true.

(** The running sums [s_1, ..., s_k] of the gpcm parametrization after
    [s], the exponentials of [s_0 .. s_k] and their total, added in the
    order of the categories. *)
Fixpoint gpcm_sums (discrimination theta s : double) (row : list double)
  : list double :=
  match row with
  | [] => []
  | cat :: t =>
      let s' := add s (mul discrimination (sub theta cat)) in
      s' :: gpcm_sums discrimination theta s' t
  end.

Definition gpcm_exponentials (discrimination theta : double)
  (row : list double) : list double :=
  let s0 := mul discrimination theta in
  map exp (s0 :: gpcm_sums discrimination theta s0 row).

Definition gpcm_total (discrimination theta : double) (row : list double)
  : double :=
  let s0 := mul discrimination theta in
  fold_left add (map exp (gpcm_sums discrimination theta s0 row)) (exp s0).

(** [qs] with other [answers] and [applicable_rows]. *)
Definition reshaped (qs : QuestionSet A) (a r : list Z) : QuestionSet A :=
  set_applicable_rows (set_answers qs a) r.

(** The state after [applicable_rows.push_back(question)] and
    [answers.at(question) = answer], [answers'] being the vector of
    answers after the assignment. *)
Definition committed (qs : QuestionSet A) (question : Z) (answers' : list Z)
  : QuestionSet A :=
  reshaped qs answers' (applicable_rows qs ++ [question]).

(** [qs'] is [qs] except, at most, for the answer stored at [item]. *)
Definition only_answer (item : Z) (qs qs' : QuestionSet A) : Prop :=
  qs' = qs
  \/ exists w, qs' = reshaped qs (list_set (answers qs) (Z.to_nat item) w)
                             (applicable_rows qs).

(** The comparison of [selectItem] on the pairs of a candidate and its
    score: the running maximum and its item. *)
Definition scan_step (st : double * Z) (qv : Z * double) : double * Z :=
  let '(max_mfii, max_item) := st in
  let '(question, v) := qv in
  if ltb max_mfii v then (v, question) else (max_mfii, max_item).

End Shape.

(** The value [prob_ltm] returns when the exponential did not overflow. *)
Definition ltm_clamp (result : R) : R :=
  if Rltb (1 - @eps RArith) result then (1 - @eps RArith)%R
  else if Rltb result (@eps RArith) then @eps RArith else result.

Definition Rsum (l : list R) : R := fold_right Rplus 0%R l.

(** The differences of consecutive entries: for the padded sequence of
    [prob_grm], the category masses. *)
Fixpoint differences (l : list R) : list R :=
  match l with
  | x :: (y :: _) as t => (y - x)%R :: differences t
  | _ => []
  end.


(** ** Example states *)

(** A two-item binary test with nothing answered yet. *)
Definition ltm_qs : QuestionSet RArith := {|
  model := "ltm";
  discrimination := [1; 2]%R;
  difficulty := [[0]; [1]]%R;
  guessing := [0; 0]%R;
  answers := [NA_INTEGER; NA_INTEGER];
  applicable_rows := [];
  nonapplicable_rows := [0; 1]%Z;
  question_names := ["q1"; "q2"]%string;
  lowerBound := (-5)%R;
  upperBound := 5%R;
  z := [2%R]
|}.

(** The same test after item [1] was answered [1]. *)
Definition ltm_qs_answered : QuestionSet RArith :=
  set_applicable_rows
    (set_answers ltm_qs [NA_INTEGER; 1%Z]) [1%Z].

(** A one-item graded test with two categories. *)
Definition grm_qs : QuestionSet RArith := {|
  model := "grm";
  discrimination := [1]%R;
  difficulty := [[0]]%R;
  guessing := [0]%R;
  answers := [NA_INTEGER];
  applicable_rows := [];
  nonapplicable_rows := [0%Z];
  question_names := ["q1"%string];
  lowerBound := (-5)%R;
  upperBound := 5%R;
  z := [2%R]
|}.

(** A one-item partial-credit test with two categories. *)
Definition gpcm_qs : QuestionSet RArith := {|
  model := "gpcm";
  discrimination := [1]%R;
  difficulty := [[0]]%R;
  guessing := [0]%R;
  answers := [NA_INTEGER];
  applicable_rows := [];
  nonapplicable_rows := [0%Z];
  question_names := ["q1"%string];
  lowerBound := (-5)%R;
  upperBound := 5%R;
  z := [2%R]
|}.

(** The binary test under a tag that no branch recognises. *)
Definition rasch_qs : QuestionSet RArith := {|
  model := "rasch";
  discrimination := [1; 2]%R;
  difficulty := [[0]; [1]]%R;
  guessing := [0; 0]%R;
  answers := [NA_INTEGER; NA_INTEGER];
  applicable_rows := [];
  nonapplicable_rows := [0; 1]%Z;
  question_names := ["q1"; "q2"]%string;
  lowerBound := (-5)%R;
  upperBound := 5%R;
  z := [2%R]
|}.

Definition std_prior : Prior RArith := {|
  param0 := 0%R;
  param1 := 1%R;
  prior := fun theta => Rtrigo_def.exp (- (theta * theta) / 2)
|}.

(** One panel of the midpoint rule. *)
Definition midpoint (f : R -> Res R) (lower upper : R) : Res R :=
  let* v := f ((lower + upper) / 2)%R in Ok ((upper - lower) * v)%R.

(** An estimator that reports the prior's location and a unit standard
    error. *)
Definition prior_estimator : Externals RArith := {|
  estimateTheta := fun _ prior => Ok (param0 prior);
  estimateSE := fun _ _ => Ok 1%R;
  integrate := midpoint
|}.

(** An estimator whose standard error meets a numeric-domain error. *)
Definition failing_estimator : Externals RArith := {|
  estimateTheta := fun _ prior => Ok (param0 prior);
  estimateSE := fun _ _ => Throw domain_error;
  integrate := midpoint
|}.

Section Binary64Examples.

#[local] Existing Instance B64 | 0.

(** A one-item binary test in binary64: difficulty [0], discrimination
    [a], guessing [c], nothing answered yet. *)
Definition b64_binary_qs (a c : PrimFloat.float) : QuestionSet B64 := {|
  model := "ltm";
  discrimination := [a];
  difficulty := [[PrimFloat.zero]];
  guessing := [c];
  answers := [NA_INTEGER];
  applicable_rows := [];
  nonapplicable_rows := [0%Z];
  question_names := ["q1"%string];
  lowerBound := Binary64.of_Z (-5);
  upperBound := Binary64.of_Z 5;
  z := [PrimFloat.two]
|}.

(** A one-item partial-credit test in binary64 with two categories:
    discrimination [1], threshold [0]. *)
Definition b64_gpcm_qs : QuestionSet B64 := {|
  model := "gpcm";
  discrimination := [PrimFloat.one];
  difficulty := [[PrimFloat.zero]];
  guessing := [PrimFloat.zero];
  answers := [NA_INTEGER];
  applicable_rows := [];
  nonapplicable_rows := [0%Z];
  question_names := ["q1"%string];
  lowerBound := Binary64.of_Z (-5);
  upperBound := Binary64.of_Z 5;
  z := [PrimFloat.two]
|}.

Definition b64_prior : Prior B64 := {|
  param0 := PrimFloat.zero;
  param1 := PrimFloat.one;
  prior := fun _ => PrimFloat.one
|}.

(** Two neighbouring doubles: [0x1.507349b634fa0p-3] and the next one,
    about [0.16428239428807690] and [0.16428239428807692]. *)
Definition theta_lo : PrimFloat.float :=
  Binary64.round 0x1507349b634fa0 (-55).

Definition theta_hi : PrimFloat.float :=
  Binary64.round 0x1507349b634fa1 (-55).

End Binary64Examples.

(** The overloads of [prior_estimator] with a hypothetical answer. *)
Definition prior_estimator_qa : ExternalsQA RArith := {|
  estimateTheta_qa := fun _ prior _ _ => Ok (param0 prior);
  estimateSE_qa := fun _ _ _ _ => Ok 1%R
|}.

(** A one-item graded test with three categories. *)
Definition grm_wide_qs : QuestionSet RArith := {|
  model := "grm";
  discrimination := [1]%R;
  difficulty := [[0; 1]]%R;
  guessing := [0]%R;
  answers := [NA_INTEGER];
  applicable_rows := [];
  nonapplicable_rows := [0%Z];
  question_names := ["q1"%string];
  lowerBound := (-5)%R;
  upperBound := 5%R;
  z := [2%R]
|}.

(** The pairs [(num, x)] that the first loop of [prob_derivs_gpcm] goes
    through after the running sum [s] and the multiplier [x]. *)
Fixpoint derivs_terms (d theta s x : R) (row : list R) : list (R * R) :=
  match row with
  | [] => []
  | cat :: t =>
      let s' := (s + d * (theta - cat))%R in
      let x' := (x + d)%R in
      (Rtrigo_def.exp s', x') :: derivs_terms d theta s' x' t
  end.

(** The multipliers of the pairs are [x + d], [x + 2 d], ... *)
Fixpoint stepped (d x : R) (terms : list (R * R)) : Prop :=
  match terms with
  | [] => True
  | (_, y) :: t => y = (x + d)%R /\ stepped d y t
  end.

(** The pairs of all category masses of an item, the first one included. *)
Definition all_terms (d theta : R) (row : list R) : list (R * R) :=
  (Rtrigo_def.exp (d * theta), d)
  :: derivs_terms d theta (d * theta)%R d row.

(** The entries that [prob_derivs_gpcm] writes for the pair [t], given the
    sums [g], [g1] and [g2] of its second loop. *)
Definition deriv_first (g g1 : R) (t : R * R) : R :=
  ((g * (fst t * snd t) - fst t * g1) / (g * g))%R.

Definition deriv_second (g g1 g2 : R) (t : R * R) : R :=
  ((g * g * (fst t * snd t * snd t * g - g2 * fst t)
    - (g * (fst t * snd t) - fst t * g1) * (2 * g * g1))
   / (g * g * (g * g)))%R.

Section Clamp.
Context {A : Arith}.
Local Open Scope double_scope.


End Clamp.

Section Binary64Bounds.

#[local] Existing Instance B64 | 0.
Local Open Scope double_scope.


End Binary64Bounds.

Section Push.
Context {A : Arith}.
Variable ext : Externals A.
Variables (item : Z) (prior : Prior A).

(** The first statement of [binary_posterior_variance] and of
    [polytomous_posterior_variance], which is all that [expectedPV] runs
    before [applicable_rows.push_back(item)]: under [ltm] and [tpm]
    [prob_ltm(estimateTheta(prior), item)], under [grm] and [gpcm]
    [probability(estimateTheta(prior), item)], nothing under another
    tag. *)
Definition before_push (qs : QuestionSet A) : Res unit :=
  if is_model qs "ltm" || is_model qs "tpm" then
    let* _ := (let* t := estimateTheta ext qs prior in
               prob_ltm qs t item) in
    Ok tt
  else if is_model qs "grm" || is_model qs "gpcm" then
    let* _ := (let* t := estimateTheta ext qs prior in
               probability qs t item) in
    Ok tt
  else Ok tt.

(** [qs'] is [qs] with [item] pushed on [applicable_rows] and never
    popped, and with [answers[item]] as it was or overwritten. *)
Definition left_pushed (qs qs' : QuestionSet A) : Prop :=
  qs' = committed qs item (answers qs)
  \/ exists w,
       qs' = committed qs item (list_set (answers qs) (Z.to_nat item) w).

End Push.

(** A prior located far to the right. *)
Definition far_prior : Prior RArith := {|
  param0 := 21%R;
  param1 := 1%R;
  prior := fun theta => Rtrigo_def.exp (- ((theta - 21) * (theta - 21)) / 2)
|}.


(** * Properties *)

Unset Implicit Arguments.

(** ** Vectors and loops *)

Lemma vec_at_in_range {X : Type} (v : list X) (i : Z) :
  (0 <= i < Z.of_nat (List.length v))%Z ->
  exists x, vec_at v i = Ok x /\ nth_error v (Z.to_nat i) = Some x.
Proof.
  intros Hi. unfold vec_at.
  replace ((0 <=? i)%Z && (i <? Z.of_nat (List.length v))%Z) with true
    by (symmetry; apply andb_true_iff; split;
        [apply Z.leb_le | apply Z.ltb_lt]; lia).
  destruct (nth_error v (Z.to_nat i)) as [x|] eqn:E.
  - now exists x.
  - apply nth_error_None in E. lia.
Qed.

Lemma vec_at_outside {X : Type} (v : list X) (i : Z) :
  ~ (0 <= i < Z.of_nat (List.length v))%Z -> vec_at v i = Throw out_of_range.
Proof.
  intros Hi. unfold vec_at.
  destruct (0 <=? i)%Z eqn:E1; destruct (i <? Z.of_nat (List.length v))%Z eqn:E2;
    try reflexivity.
  apply Z.leb_le in E1. apply Z.ltb_lt in E2. lia.
Qed.

Lemma vec_at_Ok_range {X : Type} (v : list X) (i : Z) (x : X) :
  vec_at v i = Ok x -> (0 <= i < Z.of_nat (List.length v))%Z.
Proof.
  intros H.
  destruct (Z_le_dec 0 i) as [H0|H0];
    [destruct (Z_lt_dec i (Z.of_nat (List.length v))) as [H1|H1]|];
    try lia; rewrite vec_at_outside in H by lia; discriminate.
Qed.

Lemma vec_at_in_range_inv {X : Type} (v : list X) (i : Z) (x : X) :
  vec_at v i = Ok x ->
  (0 <= i < Z.of_nat (List.length v))%Z /\ nth_error v (Z.to_nat i) = Some x.
Proof.
  intros H. pose proof (vec_at_Ok_range v i x H) as R. split; [exact R|].
  destruct (vec_at_in_range v i R) as (y & Hy & Hn). congruence.
Qed.

Lemma list_set_length {X : Type} (v : list X) (n : nat) (x : X) :
  List.length (list_set v n x) = List.length v.
Proof.
  revert n; induction v as [|y t IH]; intros [|n]; simpl; auto.
Qed.

Lemma list_set_same {X : Type} (v : list X) (n : nat) (x : X) :
  nth_error v n = Some x -> list_set v n x = v.
Proof.
  revert n; induction v as [|y t IH]; intros [|n]; simpl; auto.
  - now intros [= ->].
  - intros H. now rewrite IH.
Qed.

Lemma list_set_nth_eq {X : Type} (v : list X) (n : nat) (x : X) :
  (n < List.length v)%nat -> nth_error (list_set v n x) n = Some x.
Proof.
  revert n; induction v as [|y t IH]; intros [|n]; simpl; intros H;
    try lia; auto.
  apply IH. lia.
Qed.

Lemma list_set_nth_neq {X : Type} (v : list X) (n m : nat) (x : X) :
  n <> m -> nth_error (list_set v n x) m = nth_error v m.
Proof.
  revert n m; induction v as [|y t IH]; intros [|n] [|m]; simpl; intros H;
    auto; try congruence.
Qed.

Lemma list_set_twice {X : Type} (v : list X) (n : nat) (x y : X) :
  list_set (list_set v n x) n y = list_set v n y.
Proof.
  revert n; induction v as [|w t IH]; intros [|n]; simpl; auto.
  now rewrite IH.
Qed.

Lemma foldM_app {X Y : Type} (f : Y -> X -> Res Y) (l1 l2 : list X) (acc : Y) :
  foldM f (l1 ++ l2) acc = let* acc' := foldM f l1 acc in foldM f l2 acc'.
Proof.
  revert acc; induction l1 as [|x t IH]; intros acc; simpl; auto.
  destruct (f acc x); simpl; auto.
Qed.

Lemma foldM_ext_in {X Y : Type} (f g : Y -> X -> Res Y) (l : list X) (acc : Y) :
  (forall x a, In x l -> f a x = g a x) -> foldM f l acc = foldM g l acc.
Proof.
  revert acc; induction l as [|x t IH]; intros acc H; simpl; auto.
  rewrite (H x acc (or_introl eq_refl)).
  destruct (g acc x); simpl; auto.
  apply IH. intros; apply H; now right.
Qed.

(** ** Claims that hold in every arithmetic *)

Section Generic.
Context {A : Arith}.
Implicit Types (qs : QuestionSet A) (theta : double) (question : Z).

Local Open Scope double_scope.

Lemma is_model_unknown qs :
  ~ known_model qs ->
  is_model qs "ltm" = false /\ is_model qs "tpm" = false
  /\ is_model qs "grm" = false /\ is_model qs "gpcm" = false.
Proof.
  unfold known_model, is_model; intros H.
  repeat split; apply String.eqb_neq; intros E; apply H; rewrite E;
    simpl; auto.
Qed.

Lemma adjacent_find_spec (l : list double) :
  adjacent_find l = true <-> adjacent_equal l.
Proof.
  unfold adjacent_equal. induction l as [|x [|y t] IH].
  - split; [discriminate|]. intros ([|? ?] & ? & ? & ? & E & _); discriminate.
  - split; [discriminate|].
    intros ([|? [|? ?]] & ? & ? & ? & E & _); discriminate.
  - change (adjacent_find (x :: y :: t))
      with ((x =? y) || adjacent_find (y :: t))%bool.
    rewrite orb_true_iff, IH. split.
    + intros [E | (l1 & a & b & l2 & E & Hab)].
      * now exists [], x, y, t.
      * exists (x :: l1), a, b, l2. now rewrite E.
    + intros ([|c l1] & a & b & l2 & E & Hab); simpl in E.
      * injection E as -> -> _. now left.
      * injection E as -> E. right. now exists l1, a, b, l2.
Qed.

Lemma last_cons {X : Type} (l : list X) (x d : X) :
  last (x :: l) d = last l x.
Proof.
  revert x d; induction l as [|y t IH]; intros x d; [reflexivity|].
  change (last (x :: y :: t) d) with (last (y :: t) d).
  now rewrite !IH.
Qed.

Lemma gpcm_loop_spec (d theta : double) (row : list double) s den ps :
  fold_left (gpcm_step d theta) row (s, den, ps)
  = (last (gpcm_sums d theta s row) s,
     fold_left add (map exp (gpcm_sums d theta s row)) den,
     ps ++ map exp (gpcm_sums d theta s row)).
Proof.
  revert s den ps; induction row as [|cat t IH]; intros s den ps.
  - simpl. now rewrite app_nil_r.
  - cbn [fold_left gpcm_step gpcm_sums map].
    rewrite IH, <- app_assoc, last_cons. reflexivity.
Qed.

Lemma gpcm_masses_spec (d theta : double) (row : list double) :
  exists s, gpcm_masses d theta row
            = (s, gpcm_total d theta row, gpcm_exponentials d theta row).
Proof.
  unfold gpcm_masses, gpcm_total, gpcm_exponentials.
  rewrite gpcm_loop_spec. eexists. reflexivity.
Qed.

Lemma item_parameters qs question :
  parallel qs -> valid_item qs question ->
  exists d row g,
    vec_at (discrimination qs) question = Ok d
    /\ vec_at (difficulty qs) question = Ok row
    /\ vec_at (guessing qs) question = Ok g.
Proof.
  intros (H1 & H2 & H3) Hq. unfold valid_item in Hq.
  destruct (vec_at_in_range (discrimination qs) question) as (d & Hd & _);
    [lia|].
  destruct (vec_at_in_range (difficulty qs) question) as (row & Hrow & _);
    [lia|].
  destruct (vec_at_in_range (guessing qs) question) as (g & Hg & _);
    [lia|].
  now exists d, row, g.
Qed.

(** C3.  For a valid item, [prob_grm] throws a domain error exactly when
    two neighbours of the padded sequence [0, F_1, ..., F_k, 1] are equal,
    and [prob_gpcm] exactly when the total of the exponentials is zero or
    infinite; otherwise each returns its sequence: the padded one, and the
    exponentials divided by their total. *)
Theorem prob_grm_gpcm_domain_error qs theta question :
  parallel qs -> valid_item qs question ->
  exists d row,
    vec_at (discrimination qs) question = Ok d
    /\ vec_at (difficulty qs) question = Ok row
    /\ (prob_grm qs theta question = Throw domain_error
        <-> adjacent_equal (grm_padded d theta row))
    /\ (~ adjacent_equal (grm_padded d theta row) ->
        prob_grm qs theta question = Ok (grm_padded d theta row))
    /\ (prob_gpcm qs theta question = Throw domain_error
        <-> (gpcm_total d theta row =? 0) = true
            \/ isinf (gpcm_total d theta row) = true)
    /\ (~ ((gpcm_total d theta row =? 0) = true
           \/ isinf (gpcm_total d theta row) = true) ->
        prob_gpcm qs theta question
        = Ok (map (fun m => m / gpcm_total d theta row)
                  (gpcm_exponentials d theta row))).
Proof.
  intros Hp Hq.
  destruct (item_parameters qs question Hp Hq) as (d & row & g & Hd & Hrow & _).
  exists d, row. split; [exact Hd|]. split; [exact Hrow|].
  unfold prob_grm, prob_gpcm. rewrite Hd, Hrow. cbn [bind].
  destruct (gpcm_masses_spec d theta row) as (s & ->).
  rewrite <- adjacent_find_spec, <- orb_true_iff.
  destruct (adjacent_find (grm_padded d theta row));
    destruct ((gpcm_total d theta row =? 0) || isinf (gpcm_total d theta row))%bool;
    intuition congruence.
Qed.


(** C10.  Under a model tag outside [ltm], [tpm], [grm], [gpcm],
    [probability] returns the empty sequence for every valid item and
    [likelihood] returns [0.0]; nothing is thrown. *)
Theorem unknown_model_probability_likelihood qs theta question :
  ~ known_model qs -> valid_item qs question ->
  probability qs theta question = Ok [] /\ likelihood qs theta = Ok 0.
Proof.
  intros Hm Hq. destruct (is_model_unknown qs Hm) as (E1 & E2 & E3 & E4).
  unfold probability, likelihood, valid_item in *. rewrite E1, E2, E3, E4.
  split; [|reflexivity].
  replace ((question <? 0)%Z
           || (Z.of_nat (List.length (answers qs)) <? question)%Z) with false;
    [reflexivity|].
  symmetry. apply orb_false_iff. split; apply Z.ltb_ge; lia.
Qed.

(** With no applicable row, [d1LL] returns [prior_shift] itself and [d2LL]
    returns [- prior_shift], whatever [use_prior] is. *)
Lemma dLL_empty_rows qs theta (use_prior : bool) (prior : Prior A) :
  applicable_rows qs = [] ->
  d1LL qs theta use_prior prior
  = Ok ((theta - param0 prior) / pow (param1 prior) 2)
  /\ d2LL qs theta use_prior prior = Ok (- (1 / pow (param1 prior) 2)).
Proof.
  intros E. unfold d1LL, d2LL. now rewrite E.
Qed.

End Generic.

(** ** Exact real arithmetic: order and bounds *)

(** Unfolds the operations of [RArith] to those of the reals. *)
Ltac real :=
  cbn [double of_int add sub mul div neg exp log pow ltb eqb isinf RArith] in *.

Section Real.

Local Open Scope R_scope.
Local Abbreviation eps := (@eps RArith).

Lemma Rltb_true (x y : R) : Rltb x y = true <-> x < y.
Proof. unfold Rltb; destruct (Rlt_dec x y); split; auto; discriminate. Qed.

Lemma Rltb_false (x y : R) : Rltb x y = false <-> y <= x.
Proof.
  unfold Rltb; destruct (Rlt_dec x y); split; auto; try discriminate; lra.
Qed.

Lemma Reqb_true (x y : R) : Reqb x y = true <-> x = y.
Proof. unfold Reqb; destruct (Req_dec_T x y); split; auto; discriminate. Qed.

Lemma Reqb_false (x y : R) : Reqb x y = false <-> x <> y.
Proof.
  unfold Reqb; destruct (Req_dec_T x y); split; auto; try discriminate.
  contradiction.
Qed.

Lemma Rpow_pos (x y : R) : 0 < x -> Rpow x y = Rpower x y.
Proof. intros H. unfold Rpow. destruct (Rlt_dec 0 x); [reflexivity | lra]. Qed.

Lemma up_2 : up 2 = 3%Z.
Proof. symmetry. apply (tech_up 2 3); lra. Qed.

(** [pow(x, 2.0)] is the square. *)
Lemma Rpow_2 (x : R) : Rpow x 2 = x * x.
Proof.
  assert (P : forall t, 0 < t -> Rpower t 2 = t * t).
  { intros t Ht. replace 2 with (1 + 1) by lra.
    now rewrite Rpower_plus, Rpower_1. }
  unfold Rpow. destruct (Rlt_dec 0 x) as [H|H]; [now apply P|].
  destruct (Req_dec_T x 0) as [->|H0].
  - destruct (Rlt_dec 0 2); lra.
  - rewrite up_2. change (3 - 1)%Z with 2%Z.
    destruct (Req_dec_T 2 2) as [_|N]; [|lra].
    change (Z.even 2) with true. cbv iota. rewrite P by lra. lra.
Qed.

Lemma eps_real : eps = Rpower 2 (- (52 / 3)).
Proof.
  unfold eps. real. rewrite (Rpow_pos 2) by lra.
  rewrite Rpow_pos by apply exp_pos. rewrite Rpower_mult. f_equal. lra.
Qed.

Lemma eps_bounds : 0 < eps < / 2.
Proof.
  rewrite eps_real. split; [apply exp_pos|].
  replace (/ 2) with (Rpower 2 (- (1))).
  - apply Rpower_lt; lra.
  - rewrite Rpower_Ropp, Rpower_1; lra.
Qed.

Lemma DBL_MAX_gt_2 : 2 < DBL_MAX.
Proof.
  unfold DBL_MAX.
  assert (H1 : 2 <= IZR (2 ^ 1023)) by (apply IZR_le; apply Z.leb_le; reflexivity).
  assert (H2 : 2 <= IZR (2 ^ 52)) by (apply IZR_le; apply Z.leb_le; reflexivity).
  assert (H3 : / IZR (2 ^ 52) <= / 2) by (apply Rinv_le_contravar; lra).
  nra.
Qed.

Lemma DBL_MAX_gt_1 : 1 < DBL_MAX.
Proof. pose proof DBL_MAX_gt_2. lra. Qed.

Lemma ln_2_lt_1 : ln 2 < 1.
Proof.
  rewrite <- (ln_exp 1). apply ln_increasing; [lra|].
  pose proof (exp_ineq1 1). lra.
Qed.

(** [exp(-20)] is below [eps]. *)
Lemma exp_minus_20_lt_eps : Rtrigo_def.exp (- 20) < eps.
Proof.
  rewrite eps_real. unfold Rpower. apply exp_increasing.
  pose proof ln_2_lt_1. pose proof ln_lt_2. nra.
Qed.

Lemma logistic_range (e : R) : 0 < e -> 0 < e / (1 + e) < 1.
Proof.
  intros He. split.
  - apply Rdiv_lt_0_compat; lra.
  - apply Rmult_lt_reg_r with (1 + e); [lra|]. field_simplify; lra.
Qed.

Lemma logistic_mono (x y : R) : 0 < x -> x <= y -> x / (1 + x) <= y / (1 + y).
Proof.
  intros Hx Hxy.
  replace (x / (1 + x)) with (1 - / (1 + x)) by (field; lra).
  replace (y / (1 + y)) with (1 - / (1 + y)) by (field; lra).
  assert (/ (1 + y) <= / (1 + x)) by (apply Rinv_le_contravar; lra).
  lra.
Qed.

Lemma exp_mono (x y : R) : x <= y -> Rtrigo_def.exp x <= Rtrigo_def.exp y.
Proof.
  intros [H| ->]; [left; now apply exp_increasing | right; reflexivity].
Qed.

Lemma ltm_clamp_range (r : R) : eps <= ltm_clamp r <= 1 - eps.
Proof.
  pose proof eps_bounds as E. unfold ltm_clamp.
  destruct (Rltb (1 - eps) r) eqn:H1; [lra|].
  destruct (Rltb r eps) eqn:H2; [lra|].
  apply Rltb_false in H1, H2. lra.
Qed.

Lemma ltm_clamp_mono (r1 r2 : R) : r1 <= r2 -> ltm_clamp r1 <= ltm_clamp r2.
Proof.
  pose proof eps_bounds as E. intros H. unfold ltm_clamp.
  destruct (Rltb (1 - eps) r1) eqn:A1; destruct (Rltb (1 - eps) r2) eqn:A2;
    destruct (Rltb r1 eps) eqn:B1; destruct (Rltb r2 eps) eqn:B2;
    repeat match goal with
           | H : Rltb _ _ = true |- _ => apply Rltb_true in H
           | H : Rltb _ _ = false |- _ => apply Rltb_false in H
           end; lra.
Qed.

Lemma calculate_range (d t c : R) :
  eps <= calculate d t c <= 1 - eps.
Proof.
  pose proof eps_bounds as E. unfold calculate. real.
  set (e := Rtrigo_def.exp (c - d * t)).
  set (r0 := if Rltb DBL_MAX (Rabs e) then 1 - eps else e / (1 + e)).
  set (r1 := if Rltb (1 - eps) r0 then 1 - eps else r0).
  assert (H1 : r1 <= 1 - eps).
  { unfold r1. destruct (Rltb (1 - eps) r0) eqn:H; [lra|].
    now apply Rltb_false in H. }
  destruct (Rltb r1 eps) eqn:H; [lra|]. apply Rltb_false in H. lra.
Qed.

Lemma prob_ltm_real (qs : QuestionSet RArith) (theta : R) (question : Z)
  (b : R) (rest : list R) (a g : R) :
  vec_at (difficulty qs) question = Ok (b :: rest) ->
  vec_at (discrimination qs) question = Ok a ->
  vec_at (guessing qs) question = Ok g ->
  prob_ltm qs theta question
  = Ok (let e := Rtrigo_def.exp (b + a * theta) in
        if Rltb DBL_MAX e then 1 - eps
        else ltm_clamp (g + (1 - g) * (e / (1 + e)))).
Proof.
  intros Hb Ha Hg. unfold prob_ltm. rewrite Hb, Ha, Hg. cbn [bind].
  change (vec_at (b :: rest) 0) with (Ok (X:=R) b). cbn [bind]. real.
  rewrite (Rabs_pos_eq (Rtrigo_def.exp (b + a * theta)))
    by (left; apply exp_pos).
  cbv zeta. destruct (Rltb DBL_MAX (Rtrigo_def.exp (b + a * theta)));
    reflexivity.
Qed.

Lemma prob_ltm_range (qs : QuestionSet RArith) (theta : R)
  (question : Z) (b : R) (rest : list R) (a g : R) :
  vec_at (difficulty qs) question = Ok (b :: rest) ->
  vec_at (discrimination qs) question = Ok a ->
  vec_at (guessing qs) question = Ok g ->
  exists p,
    prob_ltm qs theta question = Ok p
    /\ eps <= p <= 1 - eps
    /\ (Rltb DBL_MAX (Rabs (Rtrigo_def.exp (b + a * theta))) = true ->
        p = 1 - eps).
Proof.
  intros Hb Ha Hg. pose proof eps_bounds as E.
  rewrite (prob_ltm_real qs theta question b rest a g Hb Ha Hg).
  eexists. split; [reflexivity|].
  rewrite (Rabs_pos_eq (Rtrigo_def.exp (b + a * theta)))
    by (left; apply exp_pos).
  cbv zeta. destruct (Rltb DBL_MAX (Rtrigo_def.exp (b + a * theta))).
  - repeat split; lra.
  - repeat split; try apply ltm_clamp_range; discriminate.
Qed.

(** C9 (as amended).  In exact real arithmetic, for a valid binary item
    with positive discrimination, [prob_ltm] is non-decreasing in theta,
    through the clamp and the overflow branch. *)
Theorem prob_ltm_nondecreasing (qs : QuestionSet RArith) (theta1 theta2 : R)
  (question : Z) (b : R) (rest : list R) (a g : R) :
  vec_at (difficulty qs) question = Ok (b :: rest) ->
  vec_at (discrimination qs) question = Ok a ->
  vec_at (guessing qs) question = Ok g ->
  0 < a -> theta1 <= theta2 ->
  exists p1 p2,
    prob_ltm qs theta1 question = Ok p1
    /\ prob_ltm qs theta2 question = Ok p2
    /\ p1 <= p2.
Proof.
  intros Hb Ha Hg Hpos Hle. pose proof eps_bounds as E.
  rewrite (prob_ltm_real qs theta1 question b rest a g Hb Ha Hg).
  rewrite (prob_ltm_real qs theta2 question b rest a g Hb Ha Hg).
  do 2 eexists. split; [reflexivity|]. split; [reflexivity|]. cbv zeta.
  set (e1 := Rtrigo_def.exp (b + a * theta1)).
  set (e2 := Rtrigo_def.exp (b + a * theta2)).
  assert (H1 : 0 < e1) by apply exp_pos.
  assert (H12 : e1 <= e2) by (apply exp_mono; nra).
  destruct (Rltb DBL_MAX e1) eqn:I1; destruct (Rltb DBL_MAX e2) eqn:I2.
  - lra.
  - apply Rltb_true in I1. apply Rltb_false in I2. lra.
  - apply ltm_clamp_range.
  - pose proof (logistic_mono e1 e2 H1 H12) as HL.
    pose proof (logistic_range e1 H1) as R1.
    assert (H2 : 0 < e2) by lra.
    pose proof (logistic_range e2 H2) as R2.
    destruct (Rle_dec g 1) as [G|G].
    + apply ltm_clamp_mono. nra.
    + assert (G1 : 1 < g + (1 - g) * (e1 / (1 + e1))) by nra.
      assert (G2 : 1 < g + (1 - g) * (e2 / (1 + e2))) by nra.
      unfold ltm_clamp.
      replace (Rltb (1 - eps) (g + (1 - g) * (e1 / (1 + e1)))) with true
        by (symmetry; apply Rltb_true; lra).
      replace (Rltb (1 - eps) (g + (1 - g) * (e2 / (1 + e2)))) with true
        by (symmetry; apply Rltb_true; lra).
      lra.
Qed.

Lemma prob_ltm_nondecreasing_witness :
  exists p1 p2,
    prob_ltm ltm_qs 0 1%Z = Ok p1 /\ prob_ltm ltm_qs 1 1%Z = Ok p2 /\ p1 <= p2.
Proof.
  apply (prob_ltm_nondecreasing ltm_qs 0 1 1%Z 1 [] 2 0
           eq_refl eq_refl eq_refl); lra.
Defined.

End Real.

(** ** Instances of the generic claims *)


Lemma grm_qs_parallel : parallel grm_qs.
Proof. repeat split. Qed.

Lemma prob_grm_gpcm_domain_error_witness :
  exists d row,
    vec_at (discrimination grm_qs) 0%Z = Ok d
    /\ vec_at (difficulty grm_qs) 0%Z = Ok row
    /\ (prob_grm grm_qs 0%R 0%Z = Throw domain_error
        <-> adjacent_equal (grm_padded d 0%R row)).
Proof.
  destruct (prob_grm_gpcm_domain_error grm_qs 0%R 0%Z grm_qs_parallel)
    as (d & row & Hd & Hrow & H & _).
  - unfold valid_item; simpl; lia.
  - exists d, row. auto.
Defined.




Lemma unknown_model_probability_likelihood_witness :
  probability rasch_qs 0%R 1%Z = Ok [] /\ likelihood rasch_qs 0%R = Ok 0%R.
Proof.
  apply (unknown_model_probability_likelihood rasch_qs 0%R 1%Z).
  - unfold known_model; simpl. intros [H|[H|[H|[H|[]]]]]; discriminate.
  - unfold valid_item; simpl; lia.
Defined.

(** ** The overloads with a hypothetical answer *)

Lemma bind_Ok {X : Type} (c : Res X) : (let* x := c in Ok x) = c.
Proof. now destruct c. Qed.

Lemma foldM_snoc {X Y : Type} (f : Y -> X -> Res Y) (l : list X) (x : X)
  (acc : Y) :
  foldM f (l ++ [x]) acc = let* acc' := foldM f l acc in f acc' x.
Proof.
  rewrite foldM_app. destruct (foldM f l acc); [|reflexivity].
  cbn [bind foldM]. apply bind_Ok.
Qed.

Lemma vec_set_length {X : Type} (v v' : list X) (i : Z) (x : X) :
  vec_set v i x = Ok v' -> List.length v' = List.length v.
Proof.
  unfold vec_set. destruct (_ && _); [|discriminate].
  intros [= <-]. apply list_set_length.
Qed.

Lemma vec_at_set_same {X : Type} (v v' : list X) (i : Z) (x : X) :
  vec_set v i x = Ok v' -> vec_at v' i = Ok x.
Proof.
  unfold vec_set, vec_at.
  destruct ((0 <=? i)%Z && (i <? Z.of_nat (List.length v))%Z) eqn:G;
    [|discriminate].
  intros [= <-]. rewrite list_set_length, G.
  apply andb_true_iff in G. destruct G as [G1 G2].
  apply Z.leb_le in G1. apply Z.ltb_lt in G2.
  rewrite list_set_nth_eq by lia. reflexivity.
Qed.

Lemma vec_at_set_other {X : Type} (v v' : list X) (i j : Z) (x : X) :
  vec_set v i x = Ok v' -> j <> i -> vec_at v' j = vec_at v j.
Proof.
  unfold vec_set, vec_at.
  destruct ((0 <=? i)%Z && (i <? Z.of_nat (List.length v))%Z) eqn:G;
    [|discriminate].
  intros [= <-] Hji. rewrite list_set_length.
  destruct ((0 <=? j)%Z && (j <? Z.of_nat (List.length v))%Z) eqn:Gj;
    [|reflexivity].
  apply andb_true_iff in G, Gj. destruct G as [G1 G2], Gj as [J1 J2].
  apply Z.leb_le in G1, J1.
  rewrite list_set_nth_neq by lia. reflexivity.
Qed.

Section Overloads.
Context {A : Arith}.
Variables (qs : QuestionSet A) (theta : double) (question answer : Z).
Variable answers' : list Z.

Local Open Scope double_scope.

Local Abbreviation committed_qs := (committed qs question answers').

Lemma committed_rows_nonempty :
  exists r t, applicable_rows committed_qs = r :: t.
Proof.
  unfold committed, reshaped.
  cbn [applicable_rows set_applicable_rows].
  destruct (applicable_rows qs) as [|r t];
    [exists question, [] | exists r, (t ++ [question])]; reflexivity.
Qed.

Hypothesis fresh : ~ In question (applicable_rows qs).
Hypothesis stored : vec_set (answers qs) question answer = Ok answers'.

Lemma committed_answer : vec_at answers' question = Ok answer.
Proof. exact (vec_at_set_same _ _ _ _ stored). Qed.

Lemma committed_other (q : Z) :
  In q (applicable_rows qs) -> vec_at answers' q = vec_at (answers qs) q.
Proof.
  intros Hq. apply (vec_at_set_other _ _ _ _ _ stored).
  intros ->. contradiction.
Qed.

Lemma committed_probability (t : double) (q : Z) :
  probability committed_qs t q = probability qs t q.
Proof.
  unfold probability, committed, reshaped.
  cbn [answers set_applicable_rows set_answers].
  rewrite (vec_set_length _ _ _ _ stored). reflexivity.
Qed.

Lemma committed_prob_ltm (t : double) (q : Z) :
  prob_ltm committed_qs t q = prob_ltm qs t q.
Proof. reflexivity. Qed.

Lemma committed_derivs (t : double) (q : Z) :
  prob_derivs_gpcm committed_qs t q = prob_derivs_gpcm qs t q.
Proof. reflexivity. Qed.

Lemma committed_derivs_first (t : double) (q : Z) :
  prob_derivs_gpcm_first committed_qs t q = prob_derivs_gpcm_first qs t q.
Proof. reflexivity. Qed.

Lemma committed_rows : applicable_rows committed_qs = applicable_rows qs ++ [question].
Proof. reflexivity. Qed.

Lemma committed_answers : answers committed_qs = answers'.
Proof. reflexivity. Qed.

Lemma committed_discrimination : discrimination committed_qs = discrimination qs.
Proof. reflexivity. Qed.

Lemma committed_guessing : guessing committed_qs = guessing qs.
Proof. reflexivity. Qed.

Lemma committed_is_model (tag : string) : is_model committed_qs tag = is_model qs tag.
Proof. reflexivity. Qed.

Ltac on_committed :=
  rewrite ?committed_rows, ?committed_answers, ?committed_discrimination,
    ?committed_guessing, ?committed_prob_ltm, ?committed_derivs,
    ?committed_derivs_first, ?committed_probability.

(** Runs both sides of an equation between results through their common
    calls. *)
Ltac run :=
  repeat (cbn [bind];
          match goal with
          | |- ?x = ?x => reflexivity
          | |- context [bind ?c _] =>
              match c with
              | bind _ _ => fail 1
              | _ => destruct c
              end
          end);
  cbn [bind]; try reflexivity.

(** Splits the loop over the committed_qs rows into the loop over the rows of
    [qs], which is the loop of the overload, and the term of [question]. *)
Ltac split_loop q L Hq :=
  on_committed; rewrite foldM_snoc;
  match goal with
  | |- ?lhs = ?rhs =>
      match lhs with
      | context [foldM ?g (applicable_rows qs) ?acc] =>
          match rhs with
          | context [foldM ?f (applicable_rows qs) acc] =>
              replace (foldM f (applicable_rows qs) acc)
                with (foldM g (applicable_rows qs) acc);
              [ cbv beta; on_committed; rewrite ?committed_answer
              | apply foldM_ext_in; intros q L Hq; cbv beta; on_committed;
                rewrite ?(committed_other q Hq) ]
          end
      end
  end.

Lemma likelihood_ltm_agree :
  likelihood_ltm_qa qs theta question answer = likelihood_ltm committed_qs theta.
Proof.
  unfold likelihood_ltm, likelihood_ltm_qa. split_loop q L Hq; run.
Qed.

Lemma likelihood_grm_agree :
  likelihood_grm_qa qs theta question answer = likelihood_grm committed_qs theta.
Proof.
  unfold likelihood_grm, likelihood_grm_qa. split_loop q L Hq; run.
Qed.

Lemma likelihood_gpcm_agree :
  likelihood_gpcm_qa qs theta question answer = likelihood_gpcm committed_qs theta.
Proof.
  unfold likelihood_gpcm, likelihood_gpcm_qa. split_loop q L Hq; run.
Qed.

Lemma ltm_d1LL_agree :
  ltm_d1LL_qa qs theta question answer = ltm_d1LL committed_qs theta.
Proof.
  unfold ltm_d1LL, ltm_d1LL_qa. split_loop q L Hq; run.
Qed.

Lemma grm_d1LL_agree :
  grm_d1LL_qa qs theta question answer = grm_d1LL committed_qs theta.
Proof.
  unfold grm_d1LL, grm_d1LL_qa. split_loop q L Hq; run.
Qed.

Lemma gpcm_d1LL_agree :
  gpcm_d1LL_qa qs theta question answer = gpcm_d1LL committed_qs theta.
Proof.
  unfold gpcm_d1LL, gpcm_d1LL_qa, gpcm_partial_d1LL, gpcm_partial_d1LL_qa.
  split_loop q L Hq; run.
Qed.

Lemma grm_d2LL_agree :
  grm_d2LL_qa qs theta question answer = grm_d2LL committed_qs theta.
Proof.
  unfold grm_d2LL, grm_d2LL_qa, grm_partial_d2LL, grm_partial_d2LL_qa.
  split_loop q L Hq; run.
Qed.

Lemma gpcm_d2LL_agree :
  gpcm_d2LL_qa qs theta question answer = gpcm_d2LL committed_qs theta.
Proof.
  unfold gpcm_d2LL, gpcm_d2LL_qa, gpcm_partial_d2LL, gpcm_partial_d2LL_qa.
  split_loop q L Hq; run.
Qed.

(** [ltm_d2LL] multiplies the two squares where its overload squares the
    product. *)
Hypothesis square_of_product :
  forall x y : double, pow (x * y) 2 = pow x 2 * pow y 2.

Lemma ltm_d2LL_agree :
  ltm_d2LL_qa qs theta question answer = ltm_d2LL committed_qs theta.
Proof.
  unfold ltm_d2LL, ltm_d2LL_qa.
  split_loop q L Hq; run; now rewrite square_of_product.
Qed.

End Overloads.

(** C6 (as amended).  When [question] is not an applicable row, the
    overloads of [likelihood] and [d1LL] taking [(question, answer)], and
    that of [d2LL] under [grm] and [gpcm], return what the single-state
    functions return on the state with [question] appended to
    [applicable_rows] and [answers[question] = answer]: the same value or
    the same thrown error, in every arithmetic.  Under [ltm] and [tpm] the
    two [d2LL] agree when the square of a product is the product of the
    squares, since [ltm_d2LL] computes the latter and its overload the
    former; that holds in exact arithmetic and not in binary64. *)
Theorem overloads_agree {A : Arith} (qs : QuestionSet A) (theta : double)
  (question answer : Z) (answers' : list Z) :
  ~ In question (applicable_rows qs) ->
  vec_set (answers qs) question answer = Ok answers' ->
  likelihood_qa qs theta question answer
  = likelihood (committed qs question answers') theta
  /\ forall (use_prior : bool) (prior : Prior A),
      d1LL_qa qs theta use_prior prior question answer
      = d1LL (committed qs question answers') theta use_prior prior
      /\ ((is_model qs "ltm" || is_model qs "tpm" = true ->
           forall x y : double,
             pow (mul x y) (of_int 2)
             = mul (pow x (of_int 2)) (pow y (of_int 2))) ->
          d2LL_qa qs theta use_prior prior question answer
          = d2LL (committed qs question answers') theta use_prior prior).
Proof.
  intros Hfresh Hset. split; [|intros use_prior prior; split].
  - unfold likelihood_qa, likelihood.
    rewrite !(committed_is_model qs question answers').
    rewrite <- (likelihood_ltm_agree qs theta question answer answers'),
      <- (likelihood_grm_agree qs theta question answer answers'),
      <- (likelihood_gpcm_agree qs theta question answer answers') by assumption.
    reflexivity.
  - unfold d1LL_qa, d1LL.
    destruct (committed_rows_nonempty qs question answers') as (r & t & ->).
    rewrite !(committed_is_model qs question answers').
    rewrite <- (ltm_d1LL_agree qs theta question answer answers'),
      <- (grm_d1LL_agree qs theta question answer answers'),
      <- (gpcm_d1LL_agree qs theta question answer answers') by assumption.
    reflexivity.
  - intros Hsq. unfold d2LL_qa, d2LL.
    destruct (committed_rows_nonempty qs question answers') as (r & t & ->).
    rewrite !(committed_is_model qs question answers').
    rewrite <- (grm_d2LL_agree qs theta question answer answers'),
      <- (gpcm_d2LL_agree qs theta question answer answers') by assumption.
    destruct (is_model qs "ltm" || is_model qs "tpm"); [|reflexivity].
    rewrite <- (ltm_d2LL_agree qs theta question answer answers')
      by auto.
    reflexivity.
Qed.

(** ** The transient mutation of [expectedPV] *)

Section Transient.
Context {A : Arith}.
Variable ext : Externals A.
Variables (item : Z) (prior : Prior A).

Lemma reshaped_same (qs : QuestionSet A) :
  reshaped qs (answers qs) (applicable_rows qs) = qs.
Proof. now destruct qs. Qed.

Lemma assign_answer_state (v : Z) (qs qs' : QuestionSet A) (r : Res unit) :
  assign_answer item v qs = (r, qs') ->
  qs' = qs
  \/ qs' = reshaped qs (list_set (answers qs) (Z.to_nat item) v)
                    (applicable_rows qs).
Proof.
  unfold assign_answer, vec_set.
  destruct ((0 <=? item)%Z && (item <? Z.of_nat (List.length (answers qs)))%Z).
  - intros [= _ <-]. right. reflexivity.
  - intros [= _ <-]. now left.
Qed.

(** The loop of [polytomous_posterior_variance] that sets each answer in
    turn changes nothing but [answers[item]]. *)
Lemma variances_loop_state (l : list Z) (acc : list double)
  (qs qs' : QuestionSet A) (r : Res (list double)) :
  forM (fun variances i =>
              bindM (assign_answer item (i + 1)%Z) (fun _ =>
              bindM (read (fun qs => estimateSE ext qs prior)) (fun se =>
              ret (variances ++ [pow se (of_int 2)]))))
       l acc qs = (r, qs') ->
  qs' = qs
  \/ exists w, qs' = reshaped qs (list_set (answers qs) (Z.to_nat item) w)
                             (applicable_rows qs).
Proof.
  revert acc qs; induction l as [|i t IH]; intros acc qs H.
  - injection H as _ <-. now left.
  - cbn [forM] in H. unfold bindM at 1 in H. unfold bindM at 1 in H.
    destruct (assign_answer item (i + 1) qs) as [[[]|e] s1] eqn:E1.
    + unfold bindM at 1 in H. unfold read at 1 in H.
      apply assign_answer_state in E1.
      destruct (estimateSE ext s1 prior) as [se|e].
      * unfold ret at 1 in H. apply IH in H.
        destruct E1 as [->| ->]; [exact H|].
        destruct H as [->|(w & ->)]; right; eexists; [reflexivity|].
        unfold reshaped. cbn [answers applicable_rows set_answers
                                set_applicable_rows].
        rewrite list_set_twice. reflexivity.
      * injection H as _ <-. destruct E1 as [->| ->]; [now left|].
        right. eexists. reflexivity.
    + injection H as _ <-. apply assign_answer_state in E1.
      destruct E1 as [->| ->]; [now left|]. right. eexists. reflexivity.
Qed.

Local Abbreviation touched := (only_answer item).

Lemma only_answer_trans (s1 s2 s3 : QuestionSet A) :
  touched s1 s2 -> touched s2 s3 -> touched s1 s3.
Proof.
  intros [->|(w & ->)] H; [exact H|].
  destruct H as [->|(w' & ->)]; right; eexists; [reflexivity|].
  unfold reshaped.
  cbn [answers applicable_rows set_answers set_applicable_rows].
  rewrite list_set_twice. reflexivity.
Qed.

Lemma binary_posterior_variance_state (qs qs' : QuestionSet A) (v : double) :
  binary_posterior_variance ext item prior qs = (Ok v, qs') ->
  touched qs qs'.
Proof.
  unfold binary_posterior_variance, bindM, read, push_back_row, pop_back_row,
    ret, assign_answer, vec_set.
  cbn [answers applicable_rows set_answers set_applicable_rows].
  intros H.
  destruct (let* t := estimateTheta ext qs prior in prob_ltm qs t item);
    [|discriminate H].
  destruct ((0 <=? item)%Z && (item <? Z.of_nat (List.length (answers qs)))%Z)
    eqn:G; [|discriminate H].
  cbn [answers applicable_rows set_answers set_applicable_rows] in H.
  rewrite list_set_length, G in H.
  destruct (estimateSE ext _ prior); [|discriminate H].
  destruct (estimateSE ext _ prior); [|discriminate H].
  injection H as _ <-.
  cbn [answers applicable_rows set_answers set_applicable_rows].
  rewrite removelast_last, list_set_twice.
  right. exists 0%Z. reflexivity.
Qed.

Lemma polytomous_posterior_variance_state (qs qs' : QuestionSet A)
  (v : double) :
  polytomous_posterior_variance ext item prior qs = (Ok v, qs') ->
  touched qs qs'.
Proof.
  unfold polytomous_posterior_variance.
  unfold bindM at 1, read at 1. intros H.
  destruct (let* t := estimateTheta ext qs prior in probability qs t item)
    as [probabilities|]; [|discriminate H].
  unfold bindM at 1, push_back_row at 1 in H.
  unfold bindM at 1, read at 1 in H.
  destruct (vec_at (difficulty _) item) as [row|]; [|discriminate H].
  unfold bindM at 1 in H.
  match type of H with
  | context [forM ?f ?l ?acc ?s] =>
      destruct (forM f l acc s) as [[variances|] s1] eqn:L;
      [apply variances_loop_state in L | discriminate H]
  end.
  unfold bindM, read, pop_back_row, ret in H.
  repeat match type of H with
         | context [match ?c with Ok _ => _ | Throw _ => _ end] =>
             destruct c; [|discriminate H]
         end.
  injection H as _ <-.
  destruct L as [->|(w & ->)];
    cbn [answers applicable_rows set_answers set_applicable_rows reshaped];
    rewrite removelast_last.
  - left. now destruct qs.
  - right. exists w. reflexivity.
Qed.

(** When [expectedPV] returns for an item whose answer is the
    missing-answer sentinel, it leaves the [QuestionSet] as it was:
    [applicable_rows] and [answers], and every other field. *)
Lemma expectedPV_returns_restored (qs qs' : QuestionSet A) (v : double) :
  vec_at (answers qs) item = Ok NA_INTEGER ->
  expectedPV ext item prior qs = (Ok v, qs') ->
  qs' = qs.
Proof.
  intros Hna H. unfold expectedPV in H.
  unfold bindM at 1, model_is at 1 in H.
  unfold bindM at 1, model_is at 1 in H.
  unfold bindM at 1 in H.
  assert (S1 : forall c : M double,
             (forall s s' x, c s = (Ok x, s') -> touched s s') ->
             forall (b : bool) r s s' x,
               (if b then c else ret r) s = (Ok x, s') -> touched s s').
  { intros c Hc [|] r s s' x E; [now apply (Hc s s' x)|].
    injection E as _ <-. now left. }
  match type of H with
  | context [(if ?b then ?c else ret ?r) qs] =>
      destruct ((if b then c else ret r) qs) as [[x1|] s1] eqn:E1;
      [apply S1 in E1; [|apply binary_posterior_variance_state]
      | discriminate H]
  end.
  unfold bindM at 1, model_is at 1 in H. unfold bindM at 1 in H.
  match type of H with
  | context [(if ?b then ?c else ret ?r) s1] =>
      destruct ((if b then c else ret r) s1) as [[x2|] s2] eqn:E2;
      [apply S1 in E2; [|apply polytomous_posterior_variance_state]
      | discriminate H]
  end.
  unfold bindM at 1, model_is at 1 in H. unfold bindM at 1 in H.
  match type of H with
  | context [(if ?b then ?c else ret ?r) s2] =>
      destruct ((if b then c else ret r) s2) as [[x3|] s3] eqn:E3;
      [apply S1 in E3; [|apply polytomous_posterior_variance_state]
      | discriminate H]
  end.
  pose proof (only_answer_trans _ _ _ (only_answer_trans _ _ _ E1 E2) E3)
    as E.
  unfold bindM, ret in H.
  destruct (assign_answer item NA_INTEGER s3) as [[[]|] s4] eqn:E4;
    [|discriminate H].
  injection H as _ <-.
  apply vec_at_in_range_inv in Hna. destruct Hna as [Hrange Hnth].
  unfold assign_answer, vec_set in E4.
  assert (Hlen : List.length (answers s3) = List.length (answers qs)).
  { destruct E as [->|(w & ->)]; [reflexivity|].
    cbn [answers reshaped set_answers set_applicable_rows].
    apply list_set_length. }
  rewrite Hlen in E4.
  replace ((0 <=? item)%Z && (item <? Z.of_nat (List.length (answers qs)))%Z)
    with true in E4
    by (symmetry; apply andb_true_iff; split;
        [apply Z.leb_le | apply Z.ltb_lt]; lia).
  injection E4 as <-.
  destruct E as [->|(w & ->)];
    cbn [answers reshaped set_answers set_applicable_rows];
    rewrite ?list_set_twice, (list_set_same _ _ _ Hnth);
    clear; now destruct qs.
Qed.

End Transient.


(** ** The derivatives with no applicable row *)

(** C4.  On the binary test with no applicable row, at [theta = 1] under
    the prior with location [0] and scale [1], [d2LL] returns
    [-1/param1^2 = -1] but [d1LL] returns [(theta - param0)/param1^2 = 1],
    not [-(theta - param0)/param1^2 = -1], for both values of [use_prior]. *)
Theorem d1LL_empty_rows_sign (use_prior : bool) :
  applicable_rows ltm_qs = []
  /\ d1LL ltm_qs 1%R use_prior std_prior = Ok 1%R
  /\ d2LL ltm_qs 1%R use_prior std_prior = Ok (-1)%R
  /\ (1 <> - ((1 - param0 std_prior) / (param1 std_prior * param1 std_prior)))%R.
Proof.
  split; [reflexivity|].
  destruct (dLL_empty_rows ltm_qs 1%R use_prior std_prior eq_refl) as [H1 H2].
  rewrite H1, H2.
  cbn [double of_int add sub mul div neg pow RArith param0 param1 std_prior].
  rewrite Rpow_2. repeat split.
  - f_equal. field.
  - f_equal. field.
  - lra.
Qed.

Lemma overloads_agree_witness :
  likelihood_qa ltm_qs_answered 0%R 0%Z 1%Z
  = likelihood (committed ltm_qs_answered 0%Z [1%Z; 1%Z]) 0%R
  /\ d2LL_qa ltm_qs_answered 0%R true std_prior 0%Z 1%Z
     = d2LL (committed ltm_qs_answered 0%Z [1%Z; 1%Z]) 0%R true std_prior.
Proof.
  destruct (overloads_agree ltm_qs_answered 0%R 0%Z 1%Z [1%Z; 1%Z])
    as [H1 H2].
  - simpl. intros [H|[]]. discriminate H.
  - reflexivity.
  - split; [exact H1|]. apply (proj2 (H2 true std_prior)).
    intros _ x y. cbn [double of_int mul pow RArith]. rewrite !Rpow_2. ring.
Defined.

(** ** What [probability] returns, over the reals *)

Section RealProbability.

Local Open Scope R_scope.
Local Abbreviation eps := (@eps RArith).


Lemma fold_left_Rplus (l : list R) (a : R) :
  fold_left Rplus l a = a + Rsum l.
Proof.
  revert a; induction l as [|x t IH]; intros a; simpl; [lra|].
  rewrite IH. unfold Rsum. lra.
Qed.

Lemma Rsum_map_div (l : list R) (T : R) :
  Rsum (map (fun m => m / T) l) = Rsum l / T.
Proof.
  induction l as [|x t IH]; simpl; [lra|].
  fold (Rsum (map (fun m => m / T) t)). fold (Rsum t). rewrite IH. lra.
Qed.

Lemma Rsum_nonneg (l : list R) : Forall (fun m => 0 < m) l -> 0 <= Rsum l.
Proof.
  induction 1 as [|x t Hx _ IH]; simpl; [lra|]. fold (Rsum t). lra.
Qed.

Lemma Rsum_bounds_entry (l : list R) (m : R) :
  Forall (fun m => 0 < m) l -> In m l -> m <= Rsum l.
Proof.
  induction 1 as [|x t Hx Ht IH]; simpl; [contradiction|].
  fold (Rsum t). pose proof (Rsum_nonneg t Ht).
  intros [->|Hin]; [lra|]. specialize (IH Hin). lra.
Qed.

Lemma Rsum_differences (l : list R) (x : R) :
  Rsum (differences (x :: l)) = last l x - x.
Proof.
  revert x; induction l as [|y t IH]; intros x; [simpl; lra|].
  change (differences (x :: y :: t)) with ((y - x) :: differences (y :: t)).
  change (Rsum ((y - x) :: differences (y :: t)))
    with ((y - x) + Rsum (differences (y :: t))).
  rewrite IH, last_cons. lra.
Qed.


Lemma gpcm_exponentials_positive (d theta : R) (row : list R) :
  Forall (fun m => 0 < m) (gpcm_exponentials d theta row).
Proof.
  unfold gpcm_exponentials. apply Forall_forall. intros m Hm.
  apply in_map_iff in Hm. destruct Hm as (s & <- & _). apply exp_pos.
Qed.

Lemma gpcm_total_sum (d theta : R) (row : list R) :
  gpcm_total d theta row = Rsum (gpcm_exponentials d theta row).
Proof.
  unfold gpcm_total, gpcm_exponentials. real.
  rewrite fold_left_Rplus. reflexivity.
Qed.

Lemma calculate_at_zero : calculate 1 0 0 = / 2.
Proof.
  pose proof eps_bounds as E. pose proof DBL_MAX_gt_1 as M.
  unfold calculate. real.
  replace (0 - 1 * 0) with 0 by lra. rewrite exp_0.
  rewrite Rabs_R1.
  replace (Rltb DBL_MAX 1) with false by (symmetry; apply Rltb_false; lra).
  replace (1 / (1 + 1)) with (/ 2) by lra.
  replace (Rltb (1 - eps) (/ 2)) with false
    by (symmetry; apply Rltb_false; lra).
  replace (Rltb (/ 2) eps) with false by (symmetry; apply Rltb_false; lra).
  reflexivity.
Qed.

Lemma grm_probability_example : probability grm_qs 0 0%Z = Ok [0; / 2; 1].
Proof.
  unfold probability.
  change ((0 <? 0)%Z || (Z.of_nat (List.length (answers grm_qs)) <? 0)%Z)
    with false.
  change (is_model grm_qs "grm") with true. cbv iota.
  unfold prob_grm.
  change (vec_at (discrimination grm_qs) 0%Z) with (Ok (X:=R) 1).
  change (vec_at (difficulty grm_qs) 0%Z) with (Ok (X:=list R) [0]).
  cbn [bind]. unfold grm_padded. cbn [map app].
  rewrite calculate_at_zero. unfold adjacent_find. real.
  replace (Reqb 0 (/ 2)) with false by (symmetry; apply Reqb_false; lra).
  replace (Reqb (/ 2) 1) with false by (symmetry; apply Reqb_false; lra).
  reflexivity.
Qed.

(** The binary scenario: discrimination [1], difficulty [0], guessing [0]
    and [theta = 0] give the probability one half. *)
Lemma prob_ltm_half : prob_ltm ltm_qs 0 0%Z = Ok (/ 2).
Proof.
  pose proof eps_bounds as E. pose proof DBL_MAX_gt_1 as M.
  rewrite (prob_ltm_real ltm_qs 0 0%Z 0 [] 1 0) by reflexivity.
  cbv zeta. replace (0 + 1 * 0) with 0 by lra. rewrite exp_0.
  replace (Rltb DBL_MAX 1) with false by (symmetry; apply Rltb_false; lra).
  unfold ltm_clamp. replace (0 + (1 - 0) * (1 / (1 + 1))) with (/ 2) by lra.
  replace (Rltb (1 - eps) (/ 2)) with false
    by (symmetry; apply Rltb_false; lra).
  replace (Rltb (/ 2) eps) with false by (symmetry; apply Rltb_false; lra).
  reflexivity.
Qed.

Lemma gpcm_probability_example :
  probability gpcm_qs (- 20) 0%Z
  = Ok [Rtrigo_def.exp (- 20) / (Rtrigo_def.exp (- 20) + Rtrigo_def.exp (- 40));
        Rtrigo_def.exp (- 40) / (Rtrigo_def.exp (- 20) + Rtrigo_def.exp (- 40))].
Proof.
  pose proof DBL_MAX_gt_2 as M.
  pose proof (exp_pos (- 20)) as P20. pose proof (exp_pos (- 40)) as P40.
  assert (L20 : Rtrigo_def.exp (- 20) < 1)
    by (rewrite <- exp_0; apply exp_increasing; lra).
  assert (L40 : Rtrigo_def.exp (- 40) < 1)
    by (rewrite <- exp_0; apply exp_increasing; lra).
  unfold probability.
  change ((0 <? 0)%Z || (Z.of_nat (List.length (answers gpcm_qs)) <? 0)%Z)
    with false.
  change (is_model gpcm_qs "grm") with false.
  change (is_model gpcm_qs "gpcm") with true. cbv iota.
  unfold prob_gpcm.
  change (vec_at (discrimination gpcm_qs) 0%Z) with (Ok (X:=R) 1).
  change (vec_at (difficulty gpcm_qs) 0%Z) with (Ok (X:=list R) [0]).
  cbn [bind]. unfold gpcm_masses. cbn [fold_left gpcm_step app]. real.
  replace (1 * - 20) with (- 20) by lra.
  replace (- 20 + 1 * (- 20 - 0)) with (- 40) by lra.
  set (T := Rtrigo_def.exp (- 20) + Rtrigo_def.exp (- 40)).
  replace (Reqb T 0) with false
    by (symmetry; apply Reqb_false; unfold T; lra).
  replace (Rltb DBL_MAX (Rabs T)) with false
    by (symmetry; apply Rltb_false; rewrite Rabs_pos_eq; unfold T; lra).
  reflexivity.
Qed.




End RealProbability.

(** ** A throw during the transient mutation *)

(** A throw of [estimateSE] inside [binary_posterior_variance] ends
    [expectedPV] with the hypothetical row and answer still in place. *)
Lemma expectedPV_throw_state {A : Arith} (ext : Externals A) (item : Z)
  (prior : Prior A) (qs : QuestionSet A) (p : double) (a1 : list Z)
  (e : error) :
  is_model qs "ltm" || is_model qs "tpm" = true ->
  (let* t := estimateTheta ext qs prior in prob_ltm qs t item) = Ok p ->
  vec_set (answers qs) item 1%Z = Ok a1 ->
  estimateSE ext (reshaped qs a1 (applicable_rows qs ++ [item])) prior
  = Throw e ->
  expectedPV ext item prior qs
  = (Throw e, reshaped qs a1 (applicable_rows qs ++ [item])).
Proof.
  intros Hm Hp Hset Hse.
  unfold expectedPV, binary_posterior_variance, bindM at 1 2 3, model_is.
  rewrite Hm.
  unfold bindM at 1, read at 1. rewrite Hp.
  unfold bindM at 1, push_back_row at 1.
  unfold bindM at 1, assign_answer at 1.
  cbn [answers set_applicable_rows]. rewrite Hset.
  unfold bindM at 1, read at 1.
  change (set_answers (set_applicable_rows qs (applicable_rows qs ++ [item])) a1)
    with (reshaped qs a1 (applicable_rows qs ++ [item])).
  rewrite Hse. reflexivity.
Qed.

(** The same inside the first round of the loop of
    [polytomous_posterior_variance]. *)
Lemma expectedPV_throw_state_grm {A : Arith} (ext : Externals A) (item : Z)
  (prior : Prior A) (qs : QuestionSet A) (probabilities row : list double)
  (a1 : list Z) (e : error) :
  is_model qs "ltm" || is_model qs "tpm" = false ->
  is_model qs "grm" = true ->
  (let* t := estimateTheta ext qs prior in probability qs t item)
  = Ok probabilities ->
  vec_at (difficulty qs) item = Ok row ->
  vec_set (answers qs) item 1%Z = Ok a1 ->
  estimateSE ext (reshaped qs a1 (applicable_rows qs ++ [item])) prior
  = Throw e ->
  expectedPV ext item prior qs
  = (Throw e, reshaped qs a1 (applicable_rows qs ++ [item])).
Proof.
  intros Hb Hm Hp Hrow Hset Hse.
  unfold expectedPV, bindM at 1 2 3, model_is.
  rewrite Hb. unfold ret at 1.
  unfold bindM at 1 2. rewrite Hm.
  unfold polytomous_posterior_variance.
  unfold bindM at 1, read at 1. rewrite Hp.
  unfold bindM at 1, push_back_row at 1.
  unfold bindM at 1, read at 1.
  cbn [difficulty set_applicable_rows]. rewrite Hrow.
  unfold bindM at 1.
  rewrite Nat.add_1_r. unfold indices. cbn [seq map forM].
  unfold bindM at 1 2, assign_answer at 1.
  cbn [answers set_applicable_rows]. change (0 + Z.of_nat 0 + 1)%Z with 1%Z.
  rewrite Hset.
  unfold bindM at 1, read at 1.
  change (set_answers (set_applicable_rows qs (applicable_rows qs ++ [item])) a1)
    with (reshaped qs a1 (applicable_rows qs ++ [item])).
  rewrite Hse. reflexivity.
Qed.

(** C1, as stated, fails: with an estimator whose [estimateSE] throws, the
    call ends in the thrown error with item [0] still in
    [applicable_rows] and its answer set to [1], on the binary test and
    on the graded test alike. *)
Lemma expectedPV_throw_keeps_mutation :
  (vec_at (answers ltm_qs) 0%Z = Ok NA_INTEGER
   /\ applicable_rows ltm_qs = []
   /\ exists qs',
       expectedPV failing_estimator 0%Z std_prior ltm_qs
       = (Throw domain_error, qs')
       /\ applicable_rows qs' = [0%Z]
       /\ vec_at (answers qs') 0%Z = Ok 1%Z)
  /\ (vec_at (answers grm_qs) 0%Z = Ok NA_INTEGER
      /\ applicable_rows grm_qs = []
      /\ exists qs',
          expectedPV failing_estimator 0%Z std_prior grm_qs
          = (Throw domain_error, qs')
          /\ applicable_rows qs' = [0%Z]
          /\ vec_at (answers qs') 0%Z = Ok 1%Z).
Proof.
  split.
  - split; [reflexivity|]. split; [reflexivity|].
    eexists. split.
    + eapply (expectedPV_throw_state failing_estimator 0%Z std_prior ltm_qs).
      * reflexivity.
      * cbn [estimateTheta failing_estimator bind].
        apply (prob_ltm_real ltm_qs _ 0%Z 0%R [] 1%R 0%R); reflexivity.
      * reflexivity.
      * reflexivity.
    + split; reflexivity.
  - split; [reflexivity|]. split; [reflexivity|].
    eexists. split.
    + eapply (expectedPV_throw_state_grm failing_estimator 0%Z std_prior
                grm_qs).
      * reflexivity.
      * reflexivity.
      * cbn [estimateTheta failing_estimator bind param0 std_prior].
        exact grm_probability_example.
      * reflexivity.
      * reflexivity.
      * reflexivity.
    + split; reflexivity.
Qed.

(** ** The selection of [MFIISelector] *)

Section SelectorLoop.
Context {A : Arith}.
Variables (ext : Externals A) (qs : QuestionSet A) (prior : Prior A).


End SelectorLoop.

Section RealSelector.

Local Open Scope R_scope.




Lemma Rpow_0_half : Rpow 0 (1 / 2) = 0.
Proof.
  unfold Rpow. destruct (Rlt_dec 0 0) as [H|_]; [lra|].
  destruct (Req_dec_T 0 0) as [_|H]; [|lra].
  destruct (Rlt_dec 0 (1 / 2)) as [_|H]; [reflexivity | lra].
Qed.

(** Before the first answer the test information is [0], the window of
    [fii] has no width and every score is [0]. *)
Lemma fii_without_rows (q : Z) (b a g : R) :
  vec_at (difficulty ltm_qs) q = Ok [b] ->
  vec_at (discrimination ltm_qs) q = Ok a ->
  vec_at (guessing ltm_qs) q = Ok g ->
  fii prior_estimator ltm_qs q std_prior = Ok 0.
Proof.
  intros Hb Ha Hg. unfold fii, fisherTestInfo.
  change (vec_at (z ltm_qs) 0%Z) with (Ok (X:=R) 2).
  cbn [estimateTheta integrate prior_estimator bind applicable_rows ltm_qs
       foldM param0 std_prior].
  unfold midpoint, fisherInf.
  change (is_model ltm_qs "ltm" || is_model ltm_qs "tpm") with true.
  cbv iota. unfold obsInf. rewrite Ha, Hg.
  change (is_model ltm_qs "grm") with false.
  change (is_model ltm_qs "gpcm") with false.
  cbn [bind]. rewrite (prob_ltm_real ltm_qs _ q b [] a g Hb Ha Hg).
  cbn [bind]. real. rewrite Rpow_0_half. f_equal. ring.
Qed.

Lemma selectItem_example :
  selectItem prior_estimator ltm_qs std_prior
  = Ok {| questions := [0; 1]%Z;
          values := [0; 0];
          name := "MFII";
          sel_question_names := ["q1"; "q2"]%string;
          item := (-1)%Z |}.
Proof.
  unfold selectItem.
  cbn [nonapplicable_rows ltm_qs foldM]. unfold selectItem_step.
  rewrite (fii_without_rows 0%Z 0 1 0) by reflexivity.
  rewrite (fii_without_rows 1%Z 1 2 0) by reflexivity.
  assert (H0 : Rltb 0 0 = false) by (apply Rltb_false; lra).
  cbn [bind]. real. rewrite H0. cbn [bind]. rewrite H0. reflexivity.
Qed.


End RealSelector.

(** ** Worked values *)

Section Worked.

Local Open Scope R_scope.
Local Abbreviation eps := (@eps RArith).

(** The guard of [probability] compares with [>]: under a tag that no
    branch recognises, the id equal to the size gets the empty sequence. *)
Example probability_at_size_unknown_model :
  probability rasch_qs 0 2%Z = Ok [].
Proof. reflexivity. Qed.

(** With no applicable row the likelihood is [exp(0)]. *)
Example likelihood_no_rows : likelihood ltm_qs 0 = Ok 1.
Proof.
  unfold likelihood, likelihood_ltm.
  change (is_model ltm_qs "ltm" || is_model ltm_qs "tpm") with true.
  change (is_model ltm_qs "grm") with false.
  change (is_model ltm_qs "gpcm") with false.
  cbn [applicable_rows ltm_qs foldM bind].
  cbn [double of_int exp RArith]. now rewrite exp_0.
Qed.

End Worked.

(** * Further properties of the estimation engine *)

(** ** The information overloads *)

Section InformationOverloads.
Context {A : Arith}.
Implicit Types (qs : QuestionSet A) (theta : double).

Local Open Scope double_scope.

Lemma probability_set_answers qs theta (q : Z) (a : list Z) :
  List.length a = List.length (answers qs) ->
  probability (set_answers qs a) theta q = probability qs theta q.
Proof.
  intros H. unfold probability. cbn [answers set_answers]. now rewrite H.
Qed.

Lemma models_exclusive qs :
  is_model qs "ltm" || is_model qs "tpm" = true ->
  is_model qs "grm" = false /\ is_model qs "gpcm" = false.
Proof.
  intros Hm. apply orb_true_iff in Hm.
  destruct Hm as [Hm|Hm]; apply String.eqb_eq in Hm; unfold is_model;
    rewrite Hm; split; reflexivity.
Qed.

(** X1.  [obsInf(theta, item, answer)] returns what [obsInf(theta, item)]
    returns once [answers[item] = answer] is stored: the same value or the
    same thrown error, under every model. *)
Theorem obsInf_overload_agrees qs theta (item answer : Z) (answers' : list Z) :
  vec_set (answers qs) item answer = Ok answers' ->
  obsInf_qa qs theta item answer = obsInf (set_answers qs answers') theta item.
Proof.
  intros Hset. pose proof (vec_set_length _ _ _ _ Hset) as Hlen.
  pose proof (vec_at_set_same _ _ _ _ Hset) as Hat.
  unfold obsInf_qa, obsInf, grm_partial_d2LL, grm_partial_d2LL_qa,
    gpcm_partial_d2LL, gpcm_partial_d2LL_qa.
  rewrite (probability_set_answers qs theta item answers' Hlen).
  cbn [answers discrimination guessing set_answers].
  change (is_model (set_answers qs answers')) with (is_model qs).
  change (prob_ltm (set_answers qs answers')) with (prob_ltm qs).
  change (prob_derivs_gpcm (set_answers qs answers'))
    with (prob_derivs_gpcm qs).
  rewrite Hat. cbn [bind]. reflexivity.
Qed.

(** X2.  The [answer] argument of [fisherInf(theta, item, answer)] has no
    effect: the overload returns what [fisherInf(theta, item)] returns. *)
Theorem fisherInf_overload_ignores_answer qs theta (item answer : Z) :
  fisherInf_qa qs theta item answer = fisherInf qs theta item.
Proof.
  unfold fisherInf_qa, fisherInf.
  destruct (is_model qs "ltm" || is_model qs "tpm") eqn:Hm; [|reflexivity].
  destruct (models_exclusive qs Hm) as [Hg Hp].
  unfold obsInf_qa, obsInf. now rewrite Hg, Hp.
Qed.

End InformationOverloads.

Lemma obsInf_overload_agrees_witness :
  obsInf_qa ltm_qs 0%R 0%Z 1%Z
  = obsInf (set_answers ltm_qs [1%Z; NA_INTEGER]) 0%R 0%Z.
Proof.
  apply (obsInf_overload_agrees ltm_qs 0%R 0%Z 1%Z [1%Z; NA_INTEGER]).
  reflexivity.
Defined.

(** ** The transient mutation of [expectedObsInf] *)

Section TransientInformation.
Context {A : Arith}.
Variable ext : Externals A.
Variables (item : Z) (prior : Prior A).

(** A loop that assigns [answers[item]] and then only reads leaves the
    state as it was except for that answer. *)
Lemma assign_read_loop_state {X Y : Type} (r : QuestionSet A -> Res X)
  (f : Y -> X -> Y) (l : list Z) (acc : Y) (qs qs' : QuestionSet A)
  (res : Res Y) :
  forM (fun acc i =>
          bindM (assign_answer item (i + 1)%Z) (fun _ =>
          bindM (read r) (fun v => ret (f acc v))))
       l acc qs = (res, qs') ->
  only_answer item qs qs'.
Proof.
  revert acc qs; induction l as [|i t IH]; intros acc qs H.
  - injection H as _ <-. now left.
  - cbn [forM] in H. unfold bindM at 1 in H. unfold bindM at 1 in H.
    destruct (assign_answer item (i + 1) qs) as [[[]|e] s1] eqn:E1.
    + unfold bindM at 1 in H. unfold read at 1 in H.
      apply assign_answer_state in E1.
      assert (S1 : only_answer item qs s1).
      { destruct E1 as [->| ->]; [now left | right; eexists; reflexivity]. }
      destruct (r s1) as [v|e].
      * unfold ret at 1 in H. apply IH in H.
        exact (only_answer_trans item _ _ _ S1 H).
      * injection H as _ <-. exact S1.
    + injection H as _ <-. apply assign_answer_state in E1.
      destruct E1 as [->| ->]; [now left | right; eexists; reflexivity].
Qed.

(** X3.  When [expectedObsInf] returns for an item whose answer is the
    missing-answer sentinel, it leaves the [QuestionSet] as it was. *)
Theorem expectedObsInf_restores_state (qs qs' : QuestionSet A) (v : double) :
  vec_at (answers qs) item = Ok NA_INTEGER ->
  expectedObsInf ext item prior qs = (Ok v, qs') ->
  qs' = qs.
Proof.
  intros Hna H. apply vec_at_in_range_inv in Hna.
  destruct Hna as [Hrange Hnth].
  assert (G : (0 <=? item)%Z
              && (item <? Z.of_nat (List.length (answers qs)))%Z = true).
  { apply andb_true_iff; split; [apply Z.leb_le | apply Z.ltb_lt]; lia. }
  unfold expectedObsInf in H. unfold bindM at 1 in H.
  destruct (is_model qs "grm" || is_model qs "gpcm").
  - unfold bindM at 1, read at 1 in H.
    destruct (let* t := estimateTheta ext qs prior in probability qs t item)
      as [probabilities|]; [|discriminate H].
    unfold bindM at 1, push_back_row at 1 in H.
    unfold bindM at 1, read at 1 in H.
    destruct (vec_at (difficulty _) item) as [row|]; [|discriminate H].
    unfold bindM at 1 in H.
    match type of H with
    | context [forM ?f ?l ?acc ?s] =>
        destruct (forM f l acc s) as [[obsInfs|] s1] eqn:L;
        [apply assign_read_loop_state in L | discriminate H]
    end.
    unfold bindM at 1 in H.
    destruct (assign_answer item NA_INTEGER s1) as [[[]|] s2] eqn:E2;
      [|discriminate H].
    unfold bindM, read, pop_back_row, ret in H.
    repeat match type of H with
           | context [match ?c with Ok _ => _ | Throw _ => _ end] =>
               destruct c; [|discriminate H]
           end.
    injection H as _ <-.
    unfold assign_answer, vec_set in E2.
    assert (Hlen : List.length (answers s1) = List.length (answers qs)).
    { destruct L as [->|(w & ->)];
        cbn [answers reshaped set_answers set_applicable_rows];
        rewrite ?list_set_length; reflexivity. }
    rewrite Hlen, G in E2. injection E2 as <-.
    destruct L as [->|(w & ->)];
      cbn [answers applicable_rows reshaped set_answers set_applicable_rows];
      rewrite ?list_set_twice, (list_set_same _ _ _ Hnth), removelast_last;
      clear; now destruct qs.
  - unfold bindM, read, push_back_row, pop_back_row, ret, assign_answer,
      vec_set in H.
    cbn [answers applicable_rows set_answers set_applicable_rows] in H.
    destruct (let* t := estimateTheta ext qs prior in prob_ltm qs t item);
      [|discriminate H].
    repeat (first
              [ rewrite G in H
              | rewrite list_set_length in H
              | progress cbn [answers applicable_rows set_answers
                              set_applicable_rows] in H
              | match type of H with
                | context [match ?c with Ok _ => _ | Throw _ => _ end] =>
                    destruct c; [|discriminate H]
                end ]).
    injection H as _ <-.
    cbn [answers applicable_rows set_answers set_applicable_rows].
    rewrite removelast_last, !list_set_twice, (list_set_same _ _ _ Hnth).
    clear. now destruct qs.
Qed.

End TransientInformation.

Lemma expectedObsInf_restores_state_witness :
  exists v,
    expectedObsInf prior_estimator 0%Z std_prior ltm_qs = (Ok v, ltm_qs).
Proof.
  assert (E : exists v s,
             expectedObsInf prior_estimator 0%Z std_prior ltm_qs = (Ok v, s)).
  { unfold expectedObsInf, bindM, read, push_back_row, pop_back_row, ret,
      assign_answer, obsInf.
    change (is_model ltm_qs "grm" || is_model ltm_qs "gpcm") with false.
    cbv iota. cbn [estimateTheta prior_estimator bind].
    rewrite (prob_ltm_real ltm_qs _ 0%Z 0%R [] 1%R 0%R) by reflexivity.
    change (vec_set (answers (set_applicable_rows ltm_qs
                                (applicable_rows ltm_qs ++ [0%Z]))) 0%Z 0%Z)
      with (Ok (X:=list Z) [0%Z; NA_INTEGER]).
    cbv iota.
    rewrite (prob_ltm_real _ _ 0%Z 0%R [] 1%R 0%R) by reflexivity.
    cbn [bind].
    match goal with
    | |- context [vec_set ?a 0%Z 1%Z] =>
        change (vec_set a 0%Z 1%Z) with (Ok (X:=list Z) [1%Z; NA_INTEGER])
    end.
    cbv iota.
    rewrite (prob_ltm_real _ _ 0%Z 0%R [] 1%R 0%R) by reflexivity.
    do 2 eexists. reflexivity. }
  destruct E as (v & s & E). exists v. rewrite E. f_equal.
  exact (expectedObsInf_restores_state prior_estimator 0%Z std_prior ltm_qs s v
           eq_refl E).
Defined.

(** ** What [selectItem] returns and when it throws *)

Section SelectorRun.
Context {A : Arith}.
Variables (ext : Externals A) (qs : QuestionSet A) (prior : Prior A).

Local Abbreviation score := (fun q => fii ext qs q prior).
Local Abbreviation label :=
  (fun q => nth (Z.to_nat q) (question_names qs) ""%string).

Lemma selectItem_loop_run (rows : list Z) (names : list string)
  (vals : list double) (mx : double) (mi : Z) :
  foldM (selectItem_step ext qs prior) rows (names, vals, mx, mi)
  = let* vs := mapM score rows in
    Ok (names ++ map label rows, vals ++ vs,
        fst (fold_left scan_step (combine rows vs) (mx, mi)),
        snd (fold_left scan_step (combine rows vs) (mx, mi))).
Proof.
  revert names vals mx mi; induction rows as [|q t IH];
    intros names vals mx mi.
  - cbn. now rewrite !app_nil_r.
  - cbn [foldM mapM map]. unfold selectItem_step at 1.
    destruct (fii ext qs q prior) as [v|e]; [|reflexivity].
    cbn [bind].
    assert (E : (if ltb mx v
                 then Ok (names ++ [label q], vals ++ [v], v, q)
                 else Ok (names ++ [label q], vals ++ [v], mx, mi))
                = Ok (names ++ [label q], vals ++ [v],
                      fst (scan_step (mx, mi) (q, v)),
                      snd (scan_step (mx, mi) (q, v)))).
    { unfold scan_step. now destruct (ltb mx v). }
    rewrite E. cbn [bind]. rewrite IH.
    destruct (mapM score t) as [vs|e]; [|reflexivity].
    cbn [bind combine fold_left].
    rewrite <- !app_assoc, <- surjective_pairing. reflexivity.
Qed.

Lemma mapM_Throw {X Y : Type} (f : X -> Res Y) (l : list X) (e : error) :
  mapM f l = Throw e <->
  exists l1 x l2,
    l = l1 ++ x :: l2
    /\ (forall y, In y l1 -> exists v, f y = Ok v)
    /\ f x = Throw e.
Proof.
  induction l as [|x t IH].
  - split; [discriminate|]. intros ([|? ?] & ? & ? & E & _); discriminate.
  - cbn [mapM]. destruct (f x) as [v|e'] eqn:Ex; cbn [bind].
    + assert (T : (let* ys := mapM f t in Ok (v :: ys)) = Throw e
                  <-> mapM f t = Throw e).
      { destruct (mapM f t); cbn [bind]; split; congruence. }
      rewrite T, IH. split.
      * intros (l1 & z & l2 & -> & Hall & Hz).
        exists (x :: l1), z, l2. split; [reflexivity|]. split; [|exact Hz].
        intros w [<-|Hw]; [now exists v | now apply Hall].
      * intros ([|y l1] & z & l2 & E & Hall & Hz); injection E as E1 E2.
        -- subst z. congruence.
        -- subst y t. exists l1, z, l2. split; [reflexivity|].
           split; [|exact Hz]. intros w Hw. apply Hall. now right.
    + split.
      * intros [= ->]. exists [], x, t. split; [reflexivity|].
        split; [|exact Ex]. intros y [].
      * intros ([|y l1] & z & l2 & E & Hall & Hz); injection E as E1 E2.
        -- subst z. congruence.
        -- subst y. destruct (Hall x (or_introl eq_refl)) as (v & Hv).
           congruence.
Qed.

Lemma mapM_length {X Y : Type} (f : X -> Res Y) (l : list X) (ys : list Y) :
  mapM f l = Ok ys -> List.length ys = List.length l.
Proof.
  revert ys; induction l as [|x t IH]; intros ys; cbn [mapM].
  - now intros [= <-].
  - destruct (f x); [|discriminate]. cbn [bind].
    destruct (mapM f t); [|discriminate]. cbn [bind].
    intros [= <-]. cbn. f_equal. now apply IH.
Qed.

Lemma scan_item_origin (l : list (Z * double)) (mx : double) (mi : Z) :
  snd (fold_left scan_step l (mx, mi)) = mi
  \/ In (snd (fold_left scan_step l (mx, mi))) (map fst l).
Proof.
  revert mx mi; induction l as [|[q v] t IH]; intros mx mi; [now left|].
  cbn [fold_left map fst].
  assert (E : scan_step (mx, mi) (q, v) = (v, q)
              \/ scan_step (mx, mi) (q, v) = (mx, mi))
    by (unfold scan_step; destruct (ltb mx v); auto).
  destruct E as [-> | ->].
  - destruct (IH v q) as [E|H]; right; [left; now rewrite E | now right].
  - destruct (IH mx mi) as [E|H]; [now left | right; now right].
Qed.

(** X4.  [selectItem] throws exactly when the score of some candidate
    throws, and then with the error of the first such candidate in the
    order of [nonapplicable_rows]: no partial selection is returned. *)
Theorem selectItem_throws_first_error (e : error) :
  selectItem ext qs prior = Throw e <->
  exists l1 q l2,
    nonapplicable_rows qs = l1 ++ q :: l2
    /\ (forall q', In q' l1 -> exists v, fii ext qs q' prior = Ok v)
    /\ fii ext qs q prior = Throw e.
Proof.
  rewrite <- (mapM_Throw score (nonapplicable_rows qs) e).
  unfold selectItem. rewrite selectItem_loop_run.
  destruct (mapM score (nonapplicable_rows qs)); cbn [bind];
    split; congruence.
Qed.

(** X5.  A returned [Selection] lists the candidates with one score and
    one name each, the name being the candidate's entry of
    [question_names]; it is called "MFII"; and its item is a candidate or
    [-1]. *)
Theorem selectItem_selection_shape (sel : Selection A) :
  selectItem ext qs prior = Ok sel ->
  questions sel = nonapplicable_rows qs
  /\ name sel = "MFII"%string
  /\ List.length (values sel) = List.length (nonapplicable_rows qs)
  /\ sel_question_names sel = map label (nonapplicable_rows qs)
  /\ (item sel = (-1)%Z \/ In (item sel) (nonapplicable_rows qs)).
Proof.
  unfold selectItem. rewrite selectItem_loop_run.
  destruct (mapM score (nonapplicable_rows qs)) as [vs|] eqn:E;
    cbn [bind]; [|discriminate].
  intros [= <-]. cbn [questions name values sel_question_names item app].
  pose proof (mapM_length _ _ _ E) as Hlen.
  repeat split; auto.
  destruct (scan_item_origin (combine (nonapplicable_rows qs) vs)
              (of_int 0) (-1)%Z) as [H|H]; [now left|].
  right. apply in_map_iff in H. destruct H as ([q v] & <- & H).
  exact (in_combine_l _ _ _ _ H).
Qed.

End SelectorRun.

Lemma selectItem_selection_shape_witness :
  exists sel,
    selectItem prior_estimator ltm_qs std_prior = Ok sel
    /\ List.length (values sel) = List.length (nonapplicable_rows ltm_qs)
    /\ (item sel = (-1)%Z \/ In (item sel) (nonapplicable_rows ltm_qs)).
Proof.
  eexists. split; [exact selectItem_example|].
  destruct (selectItem_selection_shape prior_estimator ltm_qs std_prior _
              selectItem_example) as (_ & _ & H3 & _ & H5).
  split; [exact H3 | exact H5].
Defined.

(** ** Which errors the probability routines raise *)

Lemma vec_at_Throw {X : Type} (v : list X) (i : Z) (e : error) :
  vec_at v i = Throw e -> e = out_of_range.
Proof.
  unfold vec_at.
  destruct ((0 <=? i)%Z && (i <? Z.of_nat (List.length v))%Z).
  - destruct (nth_error v (Z.to_nat i)); congruence.
  - congruence.
Qed.

Lemma vec_at_head {X : Type} (v : list X) (x : X) :
  vec_at v 0 = Ok x <-> exists rest, v = x :: rest.
Proof.
  split.
  - intros H. apply vec_at_in_range_inv in H. destruct H as [_ H].
    destruct v as [|y rest]; [discriminate|]. cbn in H.
    injection H as ->. now exists rest.
  - intros [rest ->]. reflexivity.
Qed.

Section ProbabilityErrors.
Context {A : Arith}.
Implicit Types (qs : QuestionSet A) (theta : double).

Local Open Scope double_scope.

Lemma prob_ltm_Throw qs theta (q : Z) (e : error) :
  prob_ltm qs theta q = Throw e -> e = out_of_range.
Proof.
  unfold prob_ltm.
  destruct (vec_at (difficulty qs) q) as [row|e1] eqn:Hrow; cbn [bind];
    [|intros [= <-]; exact (vec_at_Throw _ _ _ Hrow)].
  destruct (vec_at row 0) as [b|e1] eqn:Hb; cbn [bind];
    [|intros [= <-]; exact (vec_at_Throw _ _ _ Hb)].
  destruct (vec_at (discrimination qs) q) as [a|e1] eqn:Ha; cbn [bind];
    [|intros [= <-]; exact (vec_at_Throw _ _ _ Ha)].
  destruct (isinf (exp (b + a * theta))); [discriminate|].
  destruct (vec_at (guessing qs) q) as [g|e1] eqn:Hg; cbn [bind];
    [discriminate|intros [= <-]; exact (vec_at_Throw _ _ _ Hg)].
Qed.

(** X6.  [prob_ltm] returns exactly when the item has a discrimination, a
    first difficulty and, unless the exponential overflowed, a guessing
    parameter: the guessing parameter is not read after an overflow.  Every
    error it raises is the range error of [vector::at]. *)
Theorem prob_ltm_returns_iff qs theta (q : Z) :
  ((exists p, prob_ltm qs theta q = Ok p) <->
   exists b rest a,
     vec_at (difficulty qs) q = Ok (b :: rest)
     /\ vec_at (discrimination qs) q = Ok a
     /\ (isinf (exp (b + a * theta)) = true
         \/ exists g, vec_at (guessing qs) q = Ok g))
  /\ forall e, prob_ltm qs theta q = Throw e -> e = out_of_range.
Proof.
  split; [|intros e; apply prob_ltm_Throw].
  unfold prob_ltm. split.
  - intros [p H].
    destruct (vec_at (difficulty qs) q) as [row|] eqn:Hrow; [|discriminate].
    cbn [bind] in H.
    destruct (vec_at row 0) as [b|] eqn:Hb; [|discriminate].
    cbn [bind] in H. apply vec_at_head in Hb. destruct Hb as [rest ->].
    destruct (vec_at (discrimination qs) q) as [a|] eqn:Ha; [|discriminate].
    cbn [bind] in H. exists b, rest, a. repeat split.
    destruct (isinf (exp (b + a * theta))); [now left|right].
    destruct (vec_at (guessing qs) q) as [g|]; [now exists g|discriminate].
  - intros (b & rest & a & -> & -> & H). cbn [bind].
    change (vec_at (b :: rest) 0) with (Ok b). cbn [bind].
    destruct (isinf (exp (b + a * theta))); [eexists; reflexivity|].
    destruct H as [H|[g ->]]; [discriminate|]. cbn [bind].
    eexists; reflexivity.
Qed.

(** The three vectors of the first loop of [prob_derivs_gpcm] grow by one
    entry per category. *)
Lemma derivs_loop_lengths (d theta : double) (row : list double)
  (s x : double) (f f1 f2 : list double) :
  let '(_, _, F, F1, F2) :=
    fold_left (derivs_step d theta) row (s, x, f, f1, f2) in
  List.length F = (List.length f + List.length row)%nat
  /\ List.length F1 = (List.length f1 + List.length row)%nat
  /\ List.length F2 = (List.length f2 + List.length row)%nat.
Proof.
  revert s x f f1 f2.
  induction row as [|cat row IH]; intros s x f f1 f2; cbn [fold_left].
  - cbn. lia.
  - unfold derivs_step at 2.
    specialize (IH (s + d * (theta - cat)) (x + d)
                   (f ++ [exp (s + d * (theta - cat))])
                   (f1 ++ [exp (s + d * (theta - cat)) * (x + d)])
                   (f2 ++ [exp (s + d * (theta - cat)) * (x + d) * (x + d)])).
    destruct (fold_left _ row _) as [[[[s' x'] F] F1] F2].
    rewrite !length_app in IH. cbn [List.length] in *. lia.
Qed.

Lemma map_combine_left {X Y W V : Type} (g : X * (Y * W) -> V)
  (h : X * Y -> V) (l : list X) (l1 : list Y) (l2 : list W) :
  (forall a b c, g (a, (b, c)) = h (a, b)) ->
  List.length l1 = List.length l2 ->
  map g (combine l (combine l1 l2)) = map h (combine l l1).
Proof.
  intros E. revert l1 l2.
  induction l as [|a l IH]; intros [|b l1] [|c l2] H;
    try discriminate; try reflexivity.
  cbn. rewrite E. f_equal. apply IH. now injection H.
Qed.

(** X7.  [prob_derivs_gpcm_first] returns the vector that
    [prob_derivs_gpcm] writes to [first], or throws as it does; the two
    vectors that [prob_derivs_gpcm] writes have one entry per category
    mass of the item. *)
Theorem prob_derivs_gpcm_first_agrees qs theta (q : Z) :
  prob_derivs_gpcm_first qs theta q
  = (let* both := prob_derivs_gpcm qs theta q in Ok (fst both))
  /\ forall first second,
       prob_derivs_gpcm qs theta q = Ok (first, second) ->
       exists row,
         vec_at (difficulty qs) q = Ok row
         /\ List.length first = S (List.length row)
         /\ List.length second = S (List.length row).
Proof.
  unfold prob_derivs_gpcm_first, prob_derivs_gpcm.
  destruct (vec_at (discrimination qs) q) as [d|e]; cbn [bind];
    [|split; [reflexivity|discriminate]].
  destruct (vec_at (difficulty qs) q) as [row|e]; cbn [bind];
    [|split; [reflexivity|discriminate]].
  unfold derivs_f.
  pose proof (derivs_loop_lengths d theta row (d * theta) d
                [exp (d * theta)] [exp (d * theta) * d]
                [exp (d * theta) * d * d]) as L.
  destruct (fold_left _ row _) as [[[[s' x'] F] F1] F2].
  destruct L as (LF & LF1 & LF2). cbn [List.length] in *.
  destruct (derivs_g d F) as [[[x g] g1] g2]. cbn [bind fst].
  split.
  - f_equal. symmetry. apply map_combine_left; [reflexivity|lia].
  - intros first second [= <- <-]. exists row. split; [reflexivity|].
    rewrite !length_map, !length_combine. lia.
Qed.

End ProbabilityErrors.

(** ** Test information *)

Section TestInformation.
Context {A : Arith}.
Implicit Types (qs : QuestionSet A) (theta : double).

Local Open Scope double_scope.

(** [fisherInf] reads neither the answers nor the applicable rows, only
    how many answers there are. *)
Lemma fisherInf_reshaped qs (a r : list Z) theta (item : Z) :
  List.length a = List.length (answers qs) ->
  fisherInf (reshaped qs a r) theta item = fisherInf qs theta item.
Proof.
  intros Hlen. unfold fisherInf.
  change (is_model (reshaped qs a r)) with (is_model qs).
  destruct (is_model qs "ltm" || is_model qs "tpm") eqn:Hm.
  - destruct (models_exclusive qs Hm) as [Hg Hp].
    unfold obsInf.
    change (is_model (reshaped qs a r)) with (is_model qs).
    now rewrite Hg, Hp.
  - replace (probability (reshaped qs a r) theta item)
      with (probability qs theta item); [reflexivity|].
    unfold probability. cbn [answers reshaped set_answers set_applicable_rows].
    now rewrite Hlen.
Qed.

Lemma fisherInf_qa_eq qs theta (item answer : Z) :
  fisherInf_qa qs theta item answer = fisherInf qs theta item.
Proof.
  unfold fisherInf_qa, fisherInf.
  destruct (is_model qs "ltm" || is_model qs "tpm") eqn:Hm; [|reflexivity].
  destruct (models_exclusive qs Hm) as [Hg Hp].
  unfold obsInf_qa, obsInf. now rewrite Hg, Hp.
Qed.

(** X8.  [fisherTestInfo(prior, question, answer)] is [fisherTestInfo(prior)]
    of the state with the pair committed, provided the two overloads of
    [estimateTheta] agree there and every applicable row has an answer
    slot, which the overload reads and the plain function does not. *)
Theorem fisherTestInfo_overload_agrees (ext : Externals A)
  (extq : ExternalsQA A) qs (prior : Prior A) (question answer : Z)
  (answers' : list Z) :
  vec_set (answers qs) question answer = Ok answers' ->
  Forall (valid_item qs) (applicable_rows qs) ->
  estimateTheta_qa extq qs prior question answer
  = estimateTheta ext (committed qs question answers') prior ->
  fisherTestInfo_qa extq qs prior question answer
  = fisherTestInfo ext (committed qs question answers') prior.
Proof.
  intros Hset Hrows Htheta.
  pose proof (vec_set_length _ _ _ _ Hset) as Hlen.
  unfold fisherTestInfo_qa, fisherTestInfo. rewrite Htheta.
  destruct (estimateTheta ext (committed qs question answers') prior)
    as [t|e]; [cbn [bind]|reflexivity].
  change (applicable_rows (committed qs question answers'))
    with (applicable_rows qs ++ [question]).
  rewrite foldM_snoc.
  replace (foldM (fun sum item =>
                    let* t0 := fisherInf (committed qs question answers') t item in
                    Ok (sum + t0)) (applicable_rows qs) 0)
    with (foldM (fun sum item =>
                   let* a := vec_at (answers qs) item in
                   let* t0 := fisherInf_qa qs t item a in Ok (sum + t0))
                (applicable_rows qs) 0).
  - destruct (foldM _ (applicable_rows qs) 0) as [s|e]; [cbn [bind]|reflexivity].
    rewrite fisherInf_qa_eq. unfold committed.
    now rewrite (fisherInf_reshaped qs answers' _ t question Hlen).
  - apply foldM_ext_in. intros q s Hq.
    rewrite Forall_forall in Hrows.
    destruct (vec_at_in_range (answers qs) q (Hrows q Hq)) as (a & -> & _).
    cbn [bind]. rewrite fisherInf_qa_eq. unfold committed.
    now rewrite (fisherInf_reshaped qs answers' _ t q Hlen).
Qed.

Lemma ltm_information_step qs theta (q : Z) (acc : double) :
  is_model qs "ltm" || is_model qs "tpm" = true ->
  (let* t := fisherInf qs theta q in Ok (acc + t))
  = (let* P := prob_ltm qs theta q in
     let* guess := vec_at (guessing qs) q in
     let* d := vec_at (discrimination qs) q in
     Ok (acc + pow d 2 * pow ((P - guess) / (1 - guess)) 2 * ((1 - P) / P))).
Proof.
  intros Hm. destruct (models_exclusive qs Hm) as [Hg Hp].
  unfold fisherInf, obsInf. rewrite Hm, Hg, Hp.
  destruct (vec_at (discrimination qs) q) as [d|e1] eqn:Hd;
    destruct (vec_at (guessing qs) q) as [g|e2] eqn:Hgs;
    destruct (prob_ltm qs theta q) as [P|e3] eqn:HP; cbn [bind];
    repeat match goal with
           | H : vec_at _ _ = Throw _ |- _ => apply vec_at_Throw in H; subst
           | H : prob_ltm _ _ _ = Throw _ |- _ =>
               apply prob_ltm_Throw in H; subst
           end; reflexivity.
Qed.

(** X9.  Under the binary models the second derivative of the
    log-likelihood, taken at the estimate, is the negated test information:
    [ltm_d2LL] and [fisherTestInfo] add the same terms over the applicable
    rows and throw on the same states. *)
Theorem ltm_d2LL_negates_test_information (ext : Externals A) qs
  (prior : Prior A) :
  is_model qs "ltm" || is_model qs "tpm" = true ->
  (let* theta := estimateTheta ext qs prior in ltm_d2LL qs theta)
  = (let* info := fisherTestInfo ext qs prior in Ok (- info)).
Proof.
  intros Hm. unfold fisherTestInfo, ltm_d2LL.
  destruct (estimateTheta ext qs prior) as [t|e]; [cbn [bind]|reflexivity].
  f_equal. apply foldM_ext_in. intros q acc _.
  symmetry. now apply ltm_information_step.
Qed.

End TestInformation.

Lemma fisherTestInfo_overload_agrees_witness :
  fisherTestInfo_qa prior_estimator_qa ltm_qs_answered std_prior 0%Z 1%Z
  = fisherTestInfo prior_estimator (committed ltm_qs_answered 0%Z [1%Z; 1%Z])
                   std_prior.
Proof.
  apply (fisherTestInfo_overload_agrees prior_estimator prior_estimator_qa
           ltm_qs_answered std_prior 0%Z 1%Z [1%Z; 1%Z]).
  - reflexivity.
  - repeat constructor; unfold valid_item; cbn; lia.
  - reflexivity.
Defined.

Lemma ltm_d2LL_negates_test_information_witness :
  (let* theta := estimateTheta prior_estimator ltm_qs_answered std_prior in
   ltm_d2LL ltm_qs_answered theta)
  = (let* info := fisherTestInfo prior_estimator ltm_qs_answered std_prior in
     Ok (- info)%R).
Proof.
  apply (ltm_d2LL_negates_test_information prior_estimator ltm_qs_answered
           std_prior).
  reflexivity.
Defined.

(** ** The criteria with a hypothetical answer and the mutating ones *)

Section ConsistentEstimators.
Context {A : Arith}.
Variables (ext : Externals A) (extq : ExternalsQA A).
Variables (qs : QuestionSet A) (item : Z) (prior : Prior A).

Local Open Scope double_scope.

(** An assignment to the answer of an item in range. *)
Lemma assign_answer_run (s : QuestionSet A) (v : Z) :
  valid_item s item ->
  assign_answer item v s
  = (Ok tt, set_answers s (list_set (answers s) (Z.to_nat item) v)).
Proof.
  intros [H0 H1]. unfold assign_answer, vec_set.
  destruct (Z.leb_spec 0 item); [|lia].
  destruct (Z.ltb_spec item (Z.of_nat (List.length (answers s)))); [|lia].
  reflexivity.
Qed.

Lemma vec_set_valid (s : QuestionSet A) (v : Z) :
  valid_item s item ->
  vec_set (answers s) item v = Ok (list_set (answers s) (Z.to_nat item) v).
Proof.
  intros [H0 H1]. unfold vec_set.
  destruct (Z.leb_spec 0 item); [|lia].
  destruct (Z.ltb_spec item (Z.of_nat (List.length (answers s)))); [|lia].
  reflexivity.
Qed.

Hypothesis se_agrees :
  forall a answers',
    vec_set (answers qs) item a = Ok answers' ->
    estimateSE_qa extq qs prior item a
    = estimateSE ext (committed qs item answers') prior.

(** X10.  [expectedPV_ltm_tpm] returns what [expectedPV] returns under a
    binary model, value or thrown error, when the overload of [estimateSE]
    with a hypothetical answer agrees with [estimateSE] on the state that
    has the answer stored. *)
Theorem expectedPV_ltm_tpm_agrees :
  is_model qs "ltm" || is_model qs "tpm" = true ->
  valid_item qs item ->
  expectedPV_ltm_tpm ext extq qs item prior
  = fst (expectedPV ext item prior qs).
Proof.
  intros Hm Hv. destruct (models_exclusive qs Hm) as [Hg Hp].
  unfold expectedPV, expectedPV_ltm_tpm, binary_posterior_variance.
  rewrite (se_agrees _ _ (vec_set_valid qs 1%Z Hv)).
  rewrite (se_agrees _ _ (vec_set_valid qs 0%Z Hv)).
  unfold bindM, model_is, read, push_back_row, pop_back_row, ret.
  rewrite Hm.
  destruct (estimateTheta ext qs prior) as [t|e]; cbn [bind fst]; [|reflexivity].
  destruct (prob_ltm qs t item) as [p|e]; cbn [bind fst]; [|reflexivity].
  rewrite assign_answer_run by exact Hv.
  change (set_answers (set_applicable_rows qs (applicable_rows qs ++ [item]))
            (list_set (answers (set_applicable_rows qs
                                  (applicable_rows qs ++ [item])))
                      (Z.to_nat item) 1%Z))
    with (committed qs item (list_set (answers qs) (Z.to_nat item) 1%Z)).
  destruct (estimateSE ext (committed qs item _) prior) as [se1|e];
    cbn [bind fst]; [|reflexivity].
  rewrite assign_answer_run
    by (unfold valid_item; cbn [committed reshaped set_answers
          set_applicable_rows answers]; rewrite list_set_length; exact Hv).
  change (set_answers (committed qs item ?a) ?b) with (committed qs item b).
  change (answers (committed qs item ?a)) with a.
  rewrite list_set_twice.
  destruct (estimateSE ext (committed qs item _) prior) as [se0|e];
    cbn [bind fst]; [|reflexivity].
  change (is_model (set_applicable_rows (committed qs item ?a) ?r))
    with (is_model qs).
  rewrite Hg. cbv beta iota.
  change (is_model (set_applicable_rows (committed qs item ?a) ?r))
    with (is_model qs).
  rewrite Hp. cbv beta iota.
  rewrite assign_answer_run
    by (unfold valid_item; cbn [committed reshaped set_answers
          set_applicable_rows answers]; rewrite list_set_length; exact Hv).
  reflexivity.
Qed.

Hypothesis theta_agrees :
  forall a answers',
    vec_set (answers qs) item a = Ok answers' ->
    estimateTheta_qa extq qs prior item a
    = estimateTheta ext (committed qs item answers') prior.

Lemma obsInf_binary_committed (a : list Z) (t : double) (answer : Z) :
  is_model qs "grm" || is_model qs "gpcm" = false ->
  obsInf (committed qs item a) t item = obsInf_qa qs t item answer.
Proof.
  intros Hm. apply orb_false_iff in Hm. destruct Hm as [Hg Hp].
  unfold obsInf, obsInf_qa.
  change (is_model (committed qs item a)) with (is_model qs).
  now rewrite Hg, Hp.
Qed.

(** X11.  [expectedObsInf_rest] returns what [expectedObsInf] returns
    under every model other than grm and gpcm, value or thrown error, when
    the overload of [estimateTheta] with a hypothetical answer agrees with
    [estimateTheta] on the state that has the answer stored. *)
Theorem expectedObsInf_rest_agrees :
  is_model qs "grm" || is_model qs "gpcm" = false ->
  valid_item qs item ->
  expectedObsInf_rest ext extq qs item prior
  = fst (expectedObsInf ext item prior qs).
Proof.
  intros Hm Hv.
  unfold expectedObsInf, expectedObsInf_rest.
  rewrite (theta_agrees _ _ (vec_set_valid qs 1%Z Hv)).
  rewrite (theta_agrees _ _ (vec_set_valid qs 0%Z Hv)).
  unfold bindM at 1. rewrite Hm.
  unfold bindM, read, push_back_row, pop_back_row, ret.
  destruct (estimateTheta ext qs prior) as [t|e]; cbn [bind fst]; [|reflexivity].
  destruct (prob_ltm qs t item) as [p|e]; cbn [bind fst]; [|reflexivity].
  rewrite assign_answer_run by exact Hv.
  change (set_answers (set_applicable_rows qs (applicable_rows qs ++ [item]))
            (list_set (answers (set_applicable_rows qs
                                  (applicable_rows qs ++ [item])))
                      (Z.to_nat item) 0%Z))
    with (committed qs item (list_set (answers qs) (Z.to_nat item) 0%Z)).
  destruct (estimateTheta ext (committed qs item _) prior) as [t0|e];
    cbn [bind fst]; [|reflexivity].
  rewrite (obsInf_binary_committed _ t0 0%Z Hm).
  destruct (obsInf_qa qs t0 item 0) as [i0|e]; cbn [bind fst]; [|reflexivity].
  rewrite assign_answer_run
    by (unfold valid_item; cbn [committed reshaped set_answers
          set_applicable_rows answers]; rewrite list_set_length; exact Hv).
  change (set_answers (committed qs item ?a) ?b) with (committed qs item b).
  change (answers (committed qs item ?a)) with a.
  rewrite list_set_twice.
  destruct (estimateTheta ext (committed qs item _) prior) as [t1|e];
    cbn [bind fst]; [|reflexivity].
  rewrite (obsInf_binary_committed _ t1 1%Z Hm).
  destruct (obsInf_qa qs t1 item 1) as [i1|e]; cbn [bind fst]; [|reflexivity].
  rewrite assign_answer_run
    by (unfold valid_item; cbn [committed reshaped set_answers
          set_applicable_rows answers]; rewrite list_set_length; exact Hv).
  reflexivity.
Qed.

End ConsistentEstimators.

Lemma expectedPV_ltm_tpm_agrees_witness :
  expectedPV_ltm_tpm prior_estimator prior_estimator_qa ltm_qs 0%Z std_prior
  = fst (expectedPV prior_estimator 0%Z std_prior ltm_qs).
Proof.
  apply (expectedPV_ltm_tpm_agrees prior_estimator prior_estimator_qa
           ltm_qs 0%Z std_prior).
  - intros; reflexivity.
  - reflexivity.
  - unfold valid_item; cbn; lia.
Defined.

Lemma expectedObsInf_rest_agrees_witness :
  expectedObsInf_rest prior_estimator prior_estimator_qa ltm_qs 0%Z std_prior
  = fst (expectedObsInf prior_estimator 0%Z std_prior ltm_qs).
Proof.
  apply (expectedObsInf_rest_agrees prior_estimator prior_estimator_qa
           ltm_qs 0%Z std_prior).
  - intros; reflexivity.
  - reflexivity.
  - unfold valid_item; cbn; lia.
Defined.

(** ** The boundaries of the graded model, over the reals *)

Section RealGraded.

Local Open Scope R_scope.
Local Abbreviation eps := (@eps RArith).
Local Abbreviation calculate := (@calculate RArith).
Local Abbreviation grm_padded := (@grm_padded RArith).

(** [calculate] is the clamp of the logistic value, or of [1 - eps] after
    an overflow. *)
Lemma calculate_clamp (d t c : R) :
  calculate d t c
  = ltm_clamp (let e := Rtrigo_def.exp (c - d * t) in
               if Rltb DBL_MAX e then 1 - eps else e / (1 + e)).
Proof.
  pose proof eps_bounds as E. unfold calculate, ltm_clamp. real. cbv zeta.
  rewrite (Rabs_pos_eq (Rtrigo_def.exp (c - d * t)))
    by (left; apply exp_pos).
  set (r0 := if Rltb DBL_MAX _ then 1 - eps else _).
  destruct (Rltb (1 - eps) r0) eqn:H1; [|reflexivity].
  destruct (Rltb (1 - eps) eps) eqn:H2; [|reflexivity].
  apply Rltb_true in H2. lra.
Qed.

Lemma calculate_mono (d t c1 c2 : R) :
  c1 <= c2 -> calculate d t c1 <= calculate d t c2.
Proof.
  intros H. rewrite !calculate_clamp. cbv zeta.
  assert (He : Rtrigo_def.exp (c1 - d * t) <= Rtrigo_def.exp (c2 - d * t))
    by (apply exp_mono; lra).
  pose proof (exp_pos (c1 - d * t)) as P1.
  destruct (Rltb DBL_MAX (Rtrigo_def.exp (c1 - d * t))) eqn:I1;
    destruct (Rltb DBL_MAX (Rtrigo_def.exp (c2 - d * t))) eqn:I2.
  - lra.
  - apply Rltb_true in I1. apply Rltb_false in I2. lra.
  - pose proof (ltm_clamp_range (1 - eps)).
    pose proof (ltm_clamp_range
                  (Rtrigo_def.exp (c1 - d * t)
                   / (1 + Rtrigo_def.exp (c1 - d * t)))).
    assert (ltm_clamp (1 - eps) = 1 - eps).
    { pose proof eps_bounds. unfold ltm_clamp.
      destruct (Rltb (1 - eps) (1 - eps)) eqn:A; [reflexivity|].
      destruct (Rltb (1 - eps) eps) eqn:B; [|reflexivity].
      apply Rltb_true in B. lra. }
    lra.
  - apply ltm_clamp_mono. now apply logistic_mono.
Qed.

(** A boundary far below the ability is clamped to [eps], one far above to
    [1 - eps]. *)
Lemma calculate_low (d t c : R) :
  Rtrigo_def.exp (c - d * t) < eps -> calculate d t c = eps.
Proof.
  intros H. pose proof eps_bounds as E. pose proof DBL_MAX_gt_1 as D.
  pose proof (exp_pos (c - d * t)) as P.
  rewrite calculate_clamp. cbv zeta.
  destruct (Rltb DBL_MAX _) eqn:I; [apply Rltb_true in I; lra|].
  assert (L : Rtrigo_def.exp (c - d * t) / (1 + Rtrigo_def.exp (c - d * t))
              < eps).
  { apply Rle_lt_trans with (Rtrigo_def.exp (c - d * t)); [|exact H].
    apply Rmult_le_reg_r with (1 + Rtrigo_def.exp (c - d * t)); [lra|].
    unfold Rdiv. rewrite Rmult_assoc, Rinv_l by lra. nra. }
  unfold ltm_clamp.
  destruct (Rltb (1 - eps) _) eqn:A; [apply Rltb_true in A; lra|].
  destruct (Rltb _ eps) eqn:B; [reflexivity|apply Rltb_false in B; lra].
Qed.

Lemma calculate_high (d t c : R) :
  (1 - eps) / eps < Rtrigo_def.exp (c - d * t) -> calculate d t c = 1 - eps.
Proof.
  intros H. pose proof eps_bounds as E.
  pose proof (exp_pos (c - d * t)) as P.
  rewrite calculate_clamp. cbv zeta.
  assert (C : ltm_clamp (1 - eps) = 1 - eps).
  { unfold ltm_clamp.
    destruct (Rltb (1 - eps) (1 - eps)) eqn:A; [reflexivity|].
    destruct (Rltb (1 - eps) eps) eqn:B; [|reflexivity].
    apply Rltb_true in B. lra. }
  destruct (Rltb DBL_MAX _) eqn:I; [exact C|].
  assert (L : 1 - eps < Rtrigo_def.exp (c - d * t)
                        / (1 + Rtrigo_def.exp (c - d * t))).
  { apply Rmult_lt_reg_r with (1 + Rtrigo_def.exp (c - d * t)); [lra|].
    unfold Rdiv. rewrite Rmult_assoc, Rinv_l by lra.
    assert (1 - eps < eps * Rtrigo_def.exp (c - d * t)).
    { apply Rmult_lt_reg_r with (/ eps); [apply Rinv_0_lt_compat; lra|].
      replace (eps * Rtrigo_def.exp (c - d * t) * / eps)
        with (Rtrigo_def.exp (c - d * t)) by (field; lra).
      exact H. }
    nra. }
  unfold ltm_clamp.
  destruct (Rltb (1 - eps) _) eqn:A; [reflexivity|].
  apply Rltb_false in A. lra.
Qed.

(** Between the two bounds [calculate] is the logistic value itself. *)
Lemma calculate_inside (d t c : R) :
  eps < calculate d t c < 1 - eps ->
  calculate d t c
  = Rtrigo_def.exp (c - d * t) / (1 + Rtrigo_def.exp (c - d * t)).
Proof.
  pose proof eps_bounds as E. rewrite calculate_clamp. cbv zeta.
  assert (C : ltm_clamp (1 - eps) = 1 - eps).
  { unfold ltm_clamp.
    destruct (Rltb (1 - eps) (1 - eps)) eqn:A; [reflexivity|].
    destruct (Rltb (1 - eps) eps) eqn:B; [|reflexivity].
    apply Rltb_true in B. lra. }
  destruct (Rltb DBL_MAX _) eqn:I; [rewrite C; lra|].
  unfold ltm_clamp.
  destruct (Rltb (1 - eps) _) eqn:A; [lra|].
  destruct (Rltb _ eps) eqn:B; [lra|reflexivity].
Qed.

Lemma logistic_strict (x y : R) :
  0 < x -> x < y -> x / (1 + x) < y / (1 + y).
Proof.
  intros Hx Hxy.
  replace (x / (1 + x)) with (1 - / (1 + x)) by (field; lra).
  replace (y / (1 + y)) with (1 - / (1 + y)) by (field; lra).
  assert (/ (1 + y) < / (1 + x)) by (apply Rinv_lt_contravar; nra).
  lra.
Qed.

Lemma sorted_map_calculate (d t : R) (row : list R) :
  Sorted Rle row -> Sorted Rle (map (calculate d t) row).
Proof.
  induction 1 as [|b row HS IH HR]; cbn [map]; constructor; [exact IH|].
  destruct HR as [|c row Hbc]; cbn [map]; constructor.
  now apply calculate_mono.
Qed.

Lemma sorted_snoc_one (l : list R) :
  Sorted Rle l -> Forall (fun x => x <= 1) l -> Sorted Rle (l ++ [1]).
Proof.
  induction 1 as [|x l HS IH HR]; intros HF; cbn [app].
  - repeat constructor.
  - inversion HF as [|? ? Hx HF']; subst.
    constructor; [now apply IH|].
    destruct HR as [|y l Hxy]; cbn [app]; constructor; assumption.
Qed.

Lemma grm_padded_sorted (d t : R) (row : list R) :
  Sorted Rle row -> Sorted Rle (grm_padded d t row).
Proof.
  intros HS. unfold grm_padded. real.
  assert (S1 : Sorted Rle (map (calculate d t) row ++ [1])).
  { apply sorted_snoc_one; [now apply sorted_map_calculate|].
    apply Forall_forall. intros x Hx. apply in_map_iff in Hx.
    destruct Hx as (c & <- & _).
    pose proof (calculate_range d t c). pose proof eps_bounds. lra. }
  constructor; [exact S1|].
  destruct row as [|c row]; cbn [map app]; constructor; [lra|].
  pose proof (calculate_range d t c). pose proof eps_bounds. lra.
Qed.

Lemma sorted_differences (l : list R) :
  Sorted Rle l -> adjacent_find l = false ->
  Forall (fun m => 0 < m) (differences l).
Proof.
  induction 1 as [|x l HS IH HR]; intros HA; [constructor|].
  destruct HR as [|y l Hxy]; [constructor|].
  cbn [adjacent_find] in HA. apply orb_false_iff in HA.
  destruct HA as [HE HA]. real. apply Reqb_false in HE.
  cbn [differences]. constructor; [lra|now apply IH].
Qed.

Lemma prob_grm_Ok (qs : QuestionSet RArith) (theta : R) (q : Z)
  (d : R) (row l : list R) :
  vec_at (discrimination qs) q = Ok d ->
  vec_at (difficulty qs) q = Ok row ->
  prob_grm qs theta q = Ok l ->
  l = grm_padded d theta row /\ adjacent_find l = false.
Proof.
  intros Hd Hrow. unfold prob_grm. rewrite Hd, Hrow. cbn [bind].
  destruct (adjacent_find (grm_padded d theta row)) eqn:HA; [discriminate|].
  intros [= <-]. now split.
Qed.

Lemma padded_masses_range (d theta : R) (row : list R) :
  Sorted Rle row ->
  adjacent_find (grm_padded d theta row) = false ->
  Forall (fun m => 0 < m <= 1) (differences (grm_padded d theta row)).
Proof.
  intros HS HA.
  pose proof (sorted_differences _ (grm_padded_sorted d theta row HS) HA)
    as HP.
  apply Forall_forall. intros m Hm. split.
  - rewrite Forall_forall in HP. now apply HP.
  - pose proof (Rsum_bounds_entry _ m HP Hm) as Hle.
    unfold grm_padded in Hle. rewrite Rsum_differences, last_last in Hle.
    real. lra.
Qed.

(** X12.  For an item whose thresholds do not decrease, every category
    mass of the sequence that [prob_grm] returns, the difference of two
    neighbours, is positive and at most one. *)
Theorem prob_grm_masses_positive (qs : QuestionSet RArith) (theta : R)
  (q : Z) (row l : list R) :
  vec_at (difficulty qs) q = Ok row ->
  Sorted Rle row ->
  prob_grm qs theta q = Ok l ->
  Forall (fun m => 0 < m <= 1) (differences l).
Proof.
  intros Hrow HS H.
  destruct (vec_at (discrimination qs) q) as [d|e] eqn:Hd;
    [|unfold prob_grm in H; rewrite Hd in H; discriminate].
  destruct (prob_grm_Ok qs theta q d row l Hd Hrow H) as [-> HA].
  now apply padded_masses_range.
Qed.

Lemma clamped_neighbours_throw (qs : QuestionSet RArith) (theta : R)
  (q : Z) (d b1 b2 : R) (l1 l2 : list R) :
  vec_at (discrimination qs) q = Ok d ->
  vec_at (difficulty qs) q = Ok (l1 ++ b1 :: b2 :: l2) ->
  calculate d theta b1 = calculate d theta b2 ->
  prob_grm qs theta q = Throw domain_error.
Proof.
  intros Hd Hrow Hc. unfold prob_grm. rewrite Hd, Hrow. cbn [bind].
  replace (adjacent_find (grm_padded d theta (l1 ++ b1 :: b2 :: l2)))
    with true; [reflexivity|].
  symmetry. apply adjacent_find_spec.
  exists (0 :: map (calculate d theta) l1),
    (calculate d theta b1), (calculate d theta b2),
    (map (calculate d theta) l2 ++ [1]).
  split.
  - unfold grm_padded. rewrite map_app. cbn [map app].
    rewrite <- app_assoc. reflexivity.
  - real. now apply Reqb_true.
Qed.

Lemma adjacent_find_boundaries (d t : R) (row : list R) :
  Sorted Rlt row ->
  adjacent_find (map (calculate d t) row ++ [1]) = true ->
  exists l1 b1 b2 l2,
    row = l1 ++ b1 :: b2 :: l2
    /\ b1 < b2 /\ calculate d t b1 = calculate d t b2.
Proof.
  induction 1 as [|b row HS IH HR]; intros HA; [discriminate|].
  destruct HR as [|c row Hbc].
  - cbn in HA. rewrite orb_false_r in HA. apply Reqb_true in HA.
    pose proof (calculate_range d t b). pose proof eps_bounds. lra.
  - cbn [map app adjacent_find] in HA. apply orb_true_iff in HA.
    destruct HA as [HE|HA].
    + real. apply Reqb_true in HE. now exists [], b, c, row.
    + destruct (IH HA) as (l1 & b1 & b2 & l2 & E & Hlt & HF).
      exists (b :: l1), b1, b2, l2. rewrite E. now split.
Qed.

(** X13.  With strictly increasing thresholds [prob_grm] throws the
    domain error exactly when two neighbouring boundaries were both clamped
    to [eps] or both to [1 - eps]: distinct thresholds collide only at the
    clamps. *)
Theorem prob_grm_domain_error_clamped (qs : QuestionSet RArith) (theta : R)
  (q : Z) (d : R) (row : list R) :
  vec_at (discrimination qs) q = Ok d ->
  vec_at (difficulty qs) q = Ok row ->
  Sorted Rlt row ->
  prob_grm qs theta q = Throw domain_error <->
  exists l1 b1 b2 l2,
    row = l1 ++ b1 :: b2 :: l2
    /\ ((calculate d theta b1 = eps /\ calculate d theta b2 = eps)
        \/ (calculate d theta b1 = 1 - eps
            /\ calculate d theta b2 = 1 - eps)).
Proof.
  intros Hd Hrow HS. split.
  2:{ intros (l1 & b1 & b2 & l2 & E & Hc). subst row.
      apply (clamped_neighbours_throw qs theta q d b1 b2 l1 l2 Hd Hrow).
      destruct Hc as [[H1 H2]|[H1 H2]]; congruence. }
  unfold prob_grm. rewrite Hd, Hrow. cbn [bind].
  destruct (adjacent_find (grm_padded d theta row)) eqn:HA; [|discriminate].
  intros _. unfold grm_padded in HA. real.
  assert (HA' : adjacent_find (map (calculate d theta) row ++ [1]) = true).
  { destruct row as [|c row]; cbn [map app adjacent_find] in HA |- *.
    - apply orb_true_iff in HA. destruct HA as [HE|HA]; [|discriminate].
      real. apply Reqb_true in HE. lra.
    - apply orb_true_iff in HA. destruct HA as [HE|HA]; [|exact HA].
      real. apply Reqb_true in HE.
      pose proof (calculate_range d theta c). pose proof eps_bounds. lra. }
  destruct (adjacent_find_boundaries d theta row HS HA')
    as (l1 & b1 & b2 & l2 & E & Hlt & HF).
  exists l1, b1, b2, l2. split; [exact E|].
  pose proof (calculate_range d theta b1) as R1.
  destruct (Req_dec (calculate d theta b1) eps) as [E1|N1];
    [left; split; congruence|].
  destruct (Req_dec (calculate d theta b1) (1 - eps)) as [E2|N2];
    [right; split; congruence|].
  exfalso.
  assert (I1 : eps < calculate d theta b1 < 1 - eps) by lra.
  assert (I2 : eps < calculate d theta b2 < 1 - eps) by (rewrite <- HF; exact I1).
  rewrite (calculate_inside _ _ _ I1), (calculate_inside _ _ _ I2) in HF.
  assert (Rtrigo_def.exp (b1 - d * theta) < Rtrigo_def.exp (b2 - d * theta))
    by (apply exp_increasing; lra).
  pose proof (logistic_strict _ _ (exp_pos (b1 - d * theta)) H). lra.
Qed.

End RealGraded.

Lemma prob_grm_masses_positive_witness :
  exists l,
    prob_grm grm_qs 0%R 0%Z = Ok l
    /\ Forall (fun m => 0 < m <= 1)%R (differences l).
Proof.
  assert (H : prob_grm grm_qs 0%R 0%Z = Ok [0; / 2; 1]%R)
    by exact grm_probability_example.
  exists [0; / 2; 1]%R. split; [exact H|].
  apply (prob_grm_masses_positive grm_qs 0%R 0%Z [0%R] [0; / 2; 1]%R).
  - reflexivity.
  - repeat constructor.
  - exact H.
Defined.

Lemma prob_grm_domain_error_clamped_witness :
  prob_grm grm_wide_qs 21%R 0%Z = Throw domain_error.
Proof.
  apply (prob_grm_domain_error_clamped grm_wide_qs 21%R 0%Z 1%R [0; 1]%R).
  - reflexivity.
  - reflexivity.
  - repeat constructor. lra.
  - exists [], 0%R, 1%R, []. split; [reflexivity|]. left.
    pose proof exp_minus_20_lt_eps as E.
    split; apply calculate_low.
    + apply Rlt_trans with (Rtrigo_def.exp (- 20)); [|exact E].
      apply exp_increasing. lra.
    + replace (1 - 1 * 21)%R with (- 20)%R by lra. exact E.
Defined.

(** ** The binary models, over the reals *)

Section RealBinary.

Local Open Scope R_scope.
Local Abbreviation eps := (@eps RArith).
Implicit Types (qs : QuestionSet RArith) (theta : R).

(** Whatever [prob_ltm] returns lies between the clamps. *)
Lemma prob_ltm_Ok_range qs theta (q : Z) (p : R) :
  prob_ltm qs theta q = Ok p -> eps <= p <= 1 - eps.
Proof.
  intros H. pose proof eps_bounds as E. unfold prob_ltm in H.
  destruct (vec_at (difficulty qs) q) as [row|]; [|discriminate].
  cbn [bind] in H. destruct (vec_at row 0) as [b|]; [|discriminate].
  cbn [bind] in H.
  destruct (vec_at (discrimination qs) q) as [a|]; [|discriminate].
  cbn [bind] in H.
  destruct (isinf _).
  { real. assert (Hp : 1 - eps = p) by congruence. rewrite <- Hp. lra. }
  destruct (vec_at (guessing qs) q) as [g|]; [|discriminate].
  cbn [bind] in H. real.
  match type of H with
  | Ok ?r = Ok p => assert (Hp : r = p) by congruence
  end.
  rewrite <- Hp. apply (ltm_clamp_range (g + (1 - g) * _)).
Qed.

Lemma ln_le_minus_1 (x : R) : 0 < x -> ln x <= x - 1.
Proof.
  intros Hx. destruct (Req_dec (ln x) 0) as [E|N].
  - rewrite E. rewrite <- (exp_ln x Hx), E, exp_0. lra.
  - pose proof (exp_ineq1 (ln x) N) as H. rewrite exp_ln in H by exact Hx.
    lra.
Qed.

(** Gibbs' inequality for one term. *)
Lemma gibbs_term (p q : R) : 0 < p -> 0 < q -> p - q <= p * (ln p - ln q).
Proof.
  intros Hp Hq.
  assert (H : ln (q / p) <= q / p - 1)
    by (apply ln_le_minus_1; apply Rdiv_lt_0_compat; assumption).
  unfold Rdiv at 1 in H.
  rewrite ln_mult, ln_Rinv in H
    by (try apply Rinv_0_lt_compat; assumption).
  assert (p * (ln q - ln p) <= p * (q / p - 1))
    by (apply Rmult_le_compat_l; lra).
  replace (p * (q / p - 1)) with (q - p) in H0 by (field; lra).
  lra.
Qed.

(** X14.  Under the binary models the Kullback-Leibler term [kl] is never
    negative, and it is zero when the two abilities coincide. *)
Theorem kl_binary_nonnegative qs (theta_not theta : R) (item : Z) (v : R) :
  is_model qs "ltm" || is_model qs "tpm" = true ->
  kl qs theta_not item theta = Ok v ->
  0 <= v /\ (theta_not = theta -> v = 0).
Proof.
  intros Hm. destruct (models_exclusive qs Hm) as [Hg Hp].
  unfold kl. rewrite Hg, Hp, Hm. cbn [bind].
  destruct (prob_ltm qs theta_not item) as [p|] eqn:P1; [|discriminate].
  cbn [bind].
  destruct (prob_ltm qs theta item) as [q|] eqn:P2; [|discriminate].
  cbn [bind]. real. intros H.
  match type of H with
  | Ok ?r = Ok v => assert (Hv : v = r) by congruence
  end.
  clear H. pose proof eps_bounds as E.
  pose proof (prob_ltm_Ok_range _ _ _ _ P1) as R1.
  pose proof (prob_ltm_Ok_range _ _ _ _ P2) as R2.
  split.
  - pose proof (gibbs_term p q). pose proof (gibbs_term (1 - p) (1 - q)).
    lra.
  - intros ->. assert (p = q) by congruence. subst q. lra.
Qed.

Lemma ln_negative (x : R) : 0 < x < 1 -> ln x < 0.
Proof. intros H. rewrite <- ln_1. apply ln_increasing; lra. Qed.

Lemma likelihood_ltm_loop qs theta (rows : list Z) (acc L : R) :
  Forall (fun q => vec_at (answers qs) q = Ok 0%Z
                   \/ vec_at (answers qs) q = Ok 1%Z) rows ->
  foldM (fun L question =>
           let* prob := prob_ltm qs theta question in
           let* this_answer := vec_at (answers qs) question in
           Ok (L + (IZR this_answer * ln prob
                    + IZR (1 - this_answer) * ln (1 - prob))))
        rows acc = Ok L ->
  L <= acc /\ (rows <> [] -> L < acc).
Proof.
  pose proof eps_bounds as E. intros HF. revert acc.
  induction HF as [|q rows Hq HF IH]; intros acc H; cbn [foldM] in H.
  - assert (acc = L) by congruence. subst. split; [lra|congruence].
  - destruct (prob_ltm qs theta q) as [p|] eqn:P; [|discriminate].
    cbn [bind] in H. pose proof (prob_ltm_Ok_range _ _ _ _ P) as Rp.
    assert (T : exists t, t < 0
                /\ foldM (fun L question =>
                            let* prob := prob_ltm qs theta question in
                            let* this_answer := vec_at (answers qs) question in
                            Ok (L + (IZR this_answer * ln prob
                                     + IZR (1 - this_answer) * ln (1 - prob))))
                         rows (acc + t) = Ok L).
    { destruct Hq as [Hq|Hq]; rewrite Hq in H; cbn [bind] in H.
      - exists (0 * ln p + 1 * ln (1 - p)). split; [|exact H].
        pose proof (ln_negative (1 - p)). lra.
      - exists (1 * ln p + 0 * ln (1 - p)). split; [|exact H].
        pose proof (ln_negative p). lra. }
    destruct T as (t & Ht & H'). destruct (IH _ H') as [Hle _].
    split; [lra|intros _; lra].
Qed.

(** X15.  Under the binary models, when every applicable row holds the
    answer 0 or 1, the likelihood is positive and at most one, and below
    one as soon as a row is applicable. *)
Theorem likelihood_binary_range qs theta (v : R) :
  is_model qs "ltm" || is_model qs "tpm" = true ->
  Forall (fun q => vec_at (answers qs) q = Ok 0%Z
                   \/ vec_at (answers qs) q = Ok 1%Z) (applicable_rows qs) ->
  likelihood qs theta = Ok v ->
  0 < v <= 1 /\ (applicable_rows qs <> [] -> v < 1).
Proof.
  intros Hm HF. destruct (models_exclusive qs Hm) as [Hg Hp].
  unfold likelihood. rewrite Hm, Hg, Hp. cbn [bind].
  unfold likelihood_ltm. real.
  destruct (foldM _ (applicable_rows qs) 0) as [L|] eqn:HL; [|discriminate].
  cbn [bind]. intros H.
  assert (Hv : v = Rtrigo_def.exp L) by congruence. subst v. clear H.
  destruct (likelihood_ltm_loop qs theta _ _ _ HF HL) as [Hle Hlt].
  rewrite <- exp_0. repeat split.
  - apply exp_pos.
  - now apply exp_mono.
  - intros Hne. apply exp_increasing. now apply Hlt.
Qed.

Lemma inverse_square_nonneg (x : R) : 0 <= 1 / (x * x).
Proof.
  destruct (Req_dec x 0) as [->|N].
  - rewrite Rmult_0_l. unfold Rdiv. rewrite Rinv_0. lra.
  - apply Rlt_le, Rdiv_lt_0_compat; [lra|nra].
Qed.

Lemma information_term_nonneg (d lam P : R) :
  eps <= P <= 1 - eps -> 0 <= Rpow d 2 * Rpow lam 2 * ((1 - P) / P).
Proof.
  pose proof eps_bounds as E. intros HP. rewrite !Rpow_2.
  assert (0 < (1 - P) / P) by (apply Rdiv_lt_0_compat; lra).
  assert (0 <= d * d) by nra. assert (0 <= lam * lam) by nra.
  apply Rmult_le_pos; [apply Rmult_le_pos|]; lra.
Qed.

Lemma ltm_d2LL_loop qs theta (rows : list Z) (acc L : R) :
  foldM (fun lambda_theta question =>
           let* P := prob_ltm qs theta question in
           let* guess := vec_at (guessing qs) question in
           let* discrimination := vec_at (discrimination qs) question in
           Ok (lambda_theta
               + Rpow discrimination 2 * Rpow ((P - guess) / (1 - guess)) 2
                 * ((1 - P) / P)))
        rows acc = Ok L ->
  acc <= L.
Proof.
  revert acc. induction rows as [|q rows IH]; intros acc H; cbn [foldM] in H.
  - assert (acc = L) by congruence. lra.
  - destruct (prob_ltm qs theta q) as [P|] eqn:HP; [|discriminate].
    cbn [bind] in H.
    destruct (vec_at (guessing qs) q) as [g|]; [|discriminate].
    cbn [bind] in H.
    destruct (vec_at (discrimination qs) q) as [d|]; [|discriminate].
    cbn [bind] in H. apply IH in H.
    pose proof (information_term_nonneg d ((P - g) / (1 - g)) P
                  (prob_ltm_Ok_range _ _ _ _ HP)).
    lra.
Qed.

(** X16.  Under the binary models the information of an item is never
    negative and the second derivative of the log-likelihood is never
    positive, with or without the prior and with or without applicable
    rows. *)
Theorem binary_information_nonnegative qs theta :
  is_model qs "ltm" || is_model qs "tpm" = true ->
  (forall item v, obsInf qs theta item = Ok v -> 0 <= v)
  /\ (forall item v, fisherInf qs theta item = Ok v -> 0 <= v)
  /\ (forall use_prior prior v,
        d2LL qs theta use_prior prior = Ok v -> v <= 0).
Proof.
  intros Hm. destruct (models_exclusive qs Hm) as [Hg Hp].
  assert (HO : forall item v, obsInf qs theta item = Ok v -> 0 <= v).
  { intros item v. unfold obsInf. rewrite Hg, Hp.
    destruct (vec_at (discrimination qs) item) as [d|]; [|discriminate].
    cbn [bind].
    destruct (vec_at (guessing qs) item) as [g|]; [|discriminate].
    cbn [bind].
    destruct (prob_ltm qs theta item) as [P|] eqn:HP; [|discriminate].
    cbn [bind]. real. intros H.
    match type of H with
    | Ok ?r = Ok v => assert (Hv : v = r) by congruence
    end.
    rewrite Hv. apply information_term_nonneg.
    exact (prob_ltm_Ok_range _ _ _ _ HP). }
  split; [exact HO|]. split.
  - intros item v. unfold fisherInf. rewrite Hm. apply HO.
  - intros use_prior prior v. unfold d2LL. real.
    pose proof (inverse_square_nonneg (param1 prior)) as HS.
    rewrite Rpow_2.
    destruct (applicable_rows qs) as [|r rows] eqn:Hrows.
    + intros H.
      assert (Hv : v = - (1 / (param1 prior * param1 prior))) by congruence.
      lra.
    + rewrite Hm, Hg, Hp. cbn [bind]. unfold ltm_d2LL. real.
      rewrite Hrows.
      destruct (foldM _ (r :: rows) 0) as [L|] eqn:HL; [|discriminate].
      cbn [bind]. apply ltm_d2LL_loop in HL.
      destruct use_prior; intros H.
      * assert (Hv : v = - L - 1 / (param1 prior * param1 prior))
          by congruence.
        lra.
      * assert (Hv : v = - L) by congruence. lra.
Qed.

End RealBinary.

Lemma kl_binary_nonnegative_witness :
  exists v, kl ltm_qs 0%R 0%Z 1%R = Ok v /\ (0 <= v)%R.
Proof.
  destruct (kl ltm_qs 0%R 0%Z 1%R) as [v|e] eqn:H.
  - exists v. split; [reflexivity|].
    apply (kl_binary_nonnegative ltm_qs 0%R 1%R 0%Z v); [reflexivity|exact H].
  - exfalso. unfold kl in H.
    destruct (prob_ltm_range ltm_qs 0%R 0%Z 0%R [] 1%R 0%R
                eq_refl eq_refl eq_refl) as (p & Hp & _).
    destruct (prob_ltm_range ltm_qs 1%R 0%Z 0%R [] 1%R 0%R
                eq_refl eq_refl eq_refl) as (q & Hq & _).
    cbn [is_model model ltm_qs String.eqb Ascii.eqb Bool.eqb orb bind] in H.
    rewrite Hp, Hq in H. discriminate H.
Defined.

Lemma likelihood_binary_range_witness :
  exists v, likelihood ltm_qs_answered 0%R = Ok v /\ (0 < v < 1)%R.
Proof.
  destruct (likelihood ltm_qs_answered 0%R) as [v|e] eqn:H.
  - exists v. split; [reflexivity|].
    destruct (likelihood_binary_range ltm_qs_answered 0%R v) as [[H0 H1] H2].
    + reflexivity.
    + constructor; [right; reflexivity|constructor].
    + exact H.
    + split; [exact H0|]. apply H2. discriminate.
  - exfalso. unfold likelihood, likelihood_ltm in H.
    cbn [is_model model ltm_qs_answered set_applicable_rows set_answers
           ltm_qs String.eqb Ascii.eqb Bool.eqb orb bind applicable_rows
           foldM] in H.
    destruct (prob_ltm_range ltm_qs_answered 0%R 1%Z 1%R [] 2%R 0%R
                eq_refl eq_refl eq_refl) as (p & Hp & _).
    rewrite Hp in H. discriminate H.
Defined.

Lemma binary_information_nonnegative_witness :
  exists v, obsInf ltm_qs 0%R 0%Z = Ok v /\ (0 <= v)%R.
Proof.
  destruct (obsInf ltm_qs 0%R 0%Z) as [v|e] eqn:H.
  - exists v. split; [reflexivity|].
    exact (proj1 (binary_information_nonnegative ltm_qs 0%R eq_refl) 0%Z v H).
  - exfalso. unfold obsInf in H.
    change (vec_at (discrimination ltm_qs) 0%Z) with (@Ok R 1%R) in H.
    change (vec_at (guessing ltm_qs) 0%Z) with (@Ok R 0%R) in H.
    change (is_model ltm_qs "grm") with false in H.
    change (is_model ltm_qs "gpcm") with false in H.
    cbn [bind] in H. rewrite prob_ltm_half in H. discriminate H.
Defined.

(** ** The derivatives of the gpcm category masses, over the reals *)

Section RealDerivatives.

Local Open Scope R_scope.
Implicit Types (qs : QuestionSet RArith) (theta : R).

Lemma derivs_loop_spec (d theta : R) (row : list R) (s x : R)
  (f f1 f2 : list R) :
  exists s' x',
    fold_left (@derivs_step RArith d theta) row (s, x, f, f1, f2)
    = (s', x',
       f ++ map fst (derivs_terms d theta s x row),
       f1 ++ map (fun t => fst t * snd t) (derivs_terms d theta s x row),
       f2 ++ map (fun t => fst t * snd t * snd t)
                 (derivs_terms d theta s x row)).
Proof.
  revert s x f f1 f2.
  induction row as [|cat row IH]; intros s x f f1 f2;
    cbn [fold_left derivs_terms map].
  - exists s, x. now rewrite !app_nil_r.
  - unfold derivs_step at 2. real.
    destruct (IH (s + d * (theta - cat)) (x + d)
                 (f ++ [Rtrigo_def.exp (s + d * (theta - cat))])
                 (f1 ++ [Rtrigo_def.exp (s + d * (theta - cat)) * (x + d)])
                 (f2 ++ [Rtrigo_def.exp (s + d * (theta - cat)) * (x + d)
                         * (x + d)]))
      as (s' & x' & E).
    exists s', x'. rewrite E. cbn [fst snd]. now rewrite <- !app_assoc.
Qed.

Lemma derivs_terms_stepped (d theta s x : R) (row : list R) :
  stepped d x (derivs_terms d theta s x row).
Proof.
  revert s x. induction row as [|cat row IH]; intros s x;
    cbn [derivs_terms stepped]; [exact I|].
  split; [reflexivity|apply IH].
Qed.

Lemma derivs_g_spec (d : R) (terms : list (R * R)) (x g g1 g2 : R) :
  stepped d x terms ->
  exists x',
    fold_left (fun (st : R * R * R * R) fi =>
                 let '(x, g, g_prime, g_primeprime) := st in
                 let x := x + d in
                 (x, g + fi, g_prime + fi * x, g_primeprime + fi * x * x))
              (map fst terms) (x, g, g1, g2)
    = (x',
       g + Rsum (map fst terms),
       g1 + Rsum (map (fun t => fst t * snd t) terms),
       g2 + Rsum (map (fun t => fst t * snd t * snd t) terms)).
Proof.
  revert x g g1 g2.
  induction terms as [|[n y] terms IH]; intros x g g1 g2 HS;
    cbn [map fold_left Rsum fold_right fst snd].
  - exists x. f_equal; [f_equal; [f_equal|]|]; lra.
  - destruct HS as [-> HS].
    destruct (IH (x + d) (g + n) (g1 + n * (x + d))
                 (g2 + n * (x + d) * (x + d)) HS) as (x' & E).
    exists x'. etransitivity; [exact E|].
    unfold Rsum. f_equal; [f_equal; [f_equal|]|]; lra.
Qed.

Lemma derivs_f_terms (d theta : R) (row : list R) :
  exists s' x',
    @derivs_f RArith d theta row
    = (s', x',
       map fst (all_terms d theta row),
       map (fun t => fst t * snd t) (all_terms d theta row),
       map (fun t => fst t * snd t * snd t) (all_terms d theta row)).
Proof.
  destruct (derivs_loop_spec d theta row (d * theta) d
              [Rtrigo_def.exp (d * theta)] [Rtrigo_def.exp (d * theta) * d]
              [Rtrigo_def.exp (d * theta) * d * d]) as (s' & x' & E).
  exists s', x'. exact E.
Qed.

Lemma derivs_g_terms (d theta : R) (row : list R) :
  exists x',
    @derivs_g RArith d (map fst (all_terms d theta row))
    = (x',
       Rsum (map fst (all_terms d theta row)),
       Rsum (map (fun t => fst t * snd t) (all_terms d theta row)),
       Rsum (map (fun t => fst t * snd t * snd t) (all_terms d theta row))).
Proof.
  assert (HS : stepped d 0 (all_terms d theta row)).
  { unfold all_terms. cbn [stepped].
    split; [lra|apply derivs_terms_stepped]. }
  destruct (derivs_g_spec d (all_terms d theta row) 0 0 0 0 HS) as (x' & E).
  exists x'. etransitivity; [exact E|].
  apply f_equal2; [apply f_equal2; [apply f_equal2; [reflexivity|]|]|]; lra.
Qed.

Lemma Rsum_linear {X : Type} (u w : X -> R) (a b c : R) (l : list X) :
  Rsum (map (fun t => (a * u t - b * w t) / c) l)
  = (a * Rsum (map u l) - b * Rsum (map w l)) / c.
Proof.
  induction l as [|t l IH]; cbn [map Rsum fold_right].
  - unfold Rdiv. lra.
  - unfold Rsum in IH. rewrite IH. unfold Rdiv. lra.
Qed.

Lemma combine_terms {X : Type} (u v w : X -> R) (l : list X) :
  combine (map u l) (combine (map v l) (map w l))
  = map (fun t => (u t, (v t, w t))) l.
Proof.
  induction l as [|t l IH]; cbn [map combine]; [reflexivity|].
  now rewrite IH.
Qed.

Lemma Rsum_linear3 {X : Type} (u v w : X -> R) (a b c e : R) (l : list X) :
  Rsum (map (fun t => (a * u t + b * v t - c * w t) / e) l)
  = (a * Rsum (map u l) + b * Rsum (map v l) - c * Rsum (map w l)) / e.
Proof.
  induction l as [|t l IH]; cbn [map Rsum fold_right].
  - unfold Rdiv. lra.
  - unfold Rsum in IH. rewrite IH. unfold Rdiv. lra.
Qed.

(** What [prob_derivs_gpcm] writes, in terms of the pairs of the item. *)
Lemma prob_derivs_gpcm_terms qs theta (q : Z) (d : R) (row : list R) :
  vec_at (discrimination qs) q = Ok d ->
  vec_at (difficulty qs) q = Ok row ->
  prob_derivs_gpcm qs theta q
  = Ok (map (deriv_first (Rsum (map fst (all_terms d theta row)))
               (Rsum (map (fun t => fst t * snd t) (all_terms d theta row))))
            (all_terms d theta row),
        map (deriv_second (Rsum (map fst (all_terms d theta row)))
               (Rsum (map (fun t => fst t * snd t) (all_terms d theta row)))
               (Rsum (map (fun t => fst t * snd t * snd t)
                          (all_terms d theta row))))
            (all_terms d theta row)).
Proof.
  intros Hd Hrow. unfold prob_derivs_gpcm. rewrite Hd, Hrow. cbn [bind].
  destruct (derivs_f_terms d theta row) as (s' & x' & ->).
  destruct (derivs_g_terms d theta row) as (x'' & ->).
  rewrite combine_terms, !map_map. real. reflexivity.
Qed.

Lemma deriv_sums_zero (terms : list (R * R)) :
  Rsum (map (deriv_first (Rsum (map fst terms))
               (Rsum (map (fun t => fst t * snd t) terms))) terms) = 0
  /\ Rsum (map (deriv_second (Rsum (map fst terms))
                  (Rsum (map (fun t => fst t * snd t) terms))
                  (Rsum (map (fun t => fst t * snd t * snd t) terms)))
               terms) = 0.
Proof.
  set (g := Rsum (map fst terms)).
  set (g1 := Rsum (map (fun t => fst t * snd t) terms)).
  set (g2 := Rsum (map (fun t => fst t * snd t * snd t) terms)).
  split.
  - rewrite (map_ext _
               (fun t => (g * (fst t * snd t) - g1 * fst t) / (g * g)))
      by (intros t; unfold deriv_first, Rdiv; ring).
    rewrite Rsum_linear. fold g g1. unfold Rdiv. ring.
  - rewrite (map_ext _
               (fun t =>
                  ((g * g * g) * (fst t * snd t * snd t)
                   + (- (g * g * g2) + g1 * (2 * g * g1)) * fst t
                   - (2 * g * g1 * g) * (fst t * snd t))
                  / (g * g * (g * g))))
      by (intros t; unfold deriv_second, Rdiv; ring).
    rewrite Rsum_linear3. fold g g1 g2. unfold Rdiv. ring.
Qed.

(** X17.  The two vectors that [prob_derivs_gpcm] writes, the first and
    second derivatives of the category masses, each add up to zero. *)
Theorem prob_derivs_gpcm_sum_zero qs theta (q : Z) (first second : list R) :
  prob_derivs_gpcm qs theta q = Ok (first, second) ->
  Rsum first = 0 /\ Rsum second = 0.
Proof.
  intros H.
  destruct (vec_at (discrimination qs) q) as [d|] eqn:Hd;
    [|unfold prob_derivs_gpcm in H; rewrite Hd in H; discriminate].
  destruct (vec_at (difficulty qs) q) as [row|] eqn:Hrow;
    [|unfold prob_derivs_gpcm in H; rewrite Hd, Hrow in H; discriminate].
  rewrite (prob_derivs_gpcm_terms qs theta q d row Hd Hrow) in H.
  match type of H with
  | Ok (?a, ?b) = Ok _ =>
      assert (H1 : first = a) by congruence;
      assert (H2 : second = b) by congruence
  end.
  rewrite H1, H2. apply deriv_sums_zero.
Qed.

End RealDerivatives.

Lemma prob_derivs_gpcm_sum_zero_witness :
  exists first second,
    prob_derivs_gpcm gpcm_qs 0%R 0%Z = Ok (first, second)
    /\ Rsum first = 0%R /\ Rsum second = 0%R.
Proof.
  destruct (prob_derivs_gpcm gpcm_qs 0%R 0%Z) as [[first second]|e] eqn:H.
  - exists first, second. split; [reflexivity|].
    exact (prob_derivs_gpcm_sum_zero gpcm_qs 0%R 0%Z first second H).
  - exfalso. unfold prob_derivs_gpcm in H.
    change (vec_at (discrimination gpcm_qs) 0%Z) with (@Ok R 1%R) in H.
    change (vec_at (difficulty gpcm_qs) 0%Z) with (@Ok (list R) [0%R]) in H.
    cbn [bind] in H.
    destruct (derivs_f _ _ _) as [[[[s x] f] f1] f2].
    destruct (derivs_g _ _) as [[[x' g] g1] g2]. discriminate H.
Defined.

(** ** Loops over an index range *)

Lemma indices_cons (first : Z) (count : nat) :
  indices first (S count) = first :: indices (first + 1) count.
Proof.
  unfold indices. cbn [seq map]. f_equal; [lia|].
  rewrite <- seq_shift, map_map. apply map_ext. intros n. lia.
Qed.

Lemma length_indices (first : Z) (count : nat) :
  List.length (indices first count) = count.
Proof. unfold indices. now rewrite length_map, length_seq. Qed.

Lemma in_indices (first : Z) (count : nat) (i : Z) :
  In i (indices first count) <-> (first <= i < first + Z.of_nat count)%Z.
Proof.
  unfold indices. rewrite in_map_iff. split.
  - intros (n & <- & Hn). apply in_seq in Hn. lia.
  - intros H. exists (Z.to_nat (i - first)). split; [lia|].
    apply in_seq. lia.
Qed.

Lemma vec_at_app_head {X : Type} (pre l : list X) (x : X) :
  vec_at (pre ++ x :: l) (Z.of_nat (List.length pre)) = Ok x.
Proof.
  unfold vec_at. rewrite length_app. cbn [List.length].
  destruct (Z.leb_spec 0 (Z.of_nat (List.length pre))); [|lia].
  destruct (Z.ltb_spec (Z.of_nat (List.length pre))
              (Z.of_nat (List.length pre + S (List.length l)))); [|lia].
  cbn [andb]. rewrite Nat2Z.id, nth_error_app2 by lia.
  now rewrite Nat.sub_diag.
Qed.

(** A loop that reads [vs] at the running index goes through the entries
    of [vs] in order. *)
Lemma foldM_indexed {X Y : Type} (body : Y -> Z -> X -> Res Y)
  (first : Z) (vs pre : list X) (acc : Y) :
  foldM (fun acc i => let* v := vec_at (pre ++ vs) (i - first) in body acc i v)
        (indices (first + Z.of_nat (List.length pre)) (List.length vs)) acc
  = foldM (fun acc iv => body acc (fst iv) (snd iv))
          (combine (indices (first + Z.of_nat (List.length pre))
                            (List.length vs)) vs) acc.
Proof.
  revert pre acc. induction vs as [|v vs IH]; intros pre acc; [reflexivity|].
  cbn [List.length]. rewrite indices_cons. cbn [foldM combine fst snd].
  replace (first + Z.of_nat (List.length pre) - first)%Z
    with (Z.of_nat (List.length pre)) by lia.
  rewrite vec_at_app_head. cbn [bind].
  destruct (body acc (first + Z.of_nat (List.length pre))%Z v) as [acc'|e];
    [cbn [bind]|reflexivity].
  specialize (IH (pre ++ [v]) acc').
  rewrite <- app_assoc, length_app in IH. cbn [app List.length] in IH.
  replace (first + Z.of_nat (List.length pre) + 1)%Z
    with (first + Z.of_nat (List.length pre + 1))%Z by lia.
  exact IH.
Qed.

(** Computing the values first and consuming them afterwards is the
    interleaved loop, as long as the consumer cannot throw. *)
Lemma foldM_fused {X Y : Type} (G : Z -> Res X) (body : Y -> Z -> X -> Res Y)
  (l : list Z) (acc : Y) :
  (forall i a v, In i l -> exists r, body a i v = Ok r) ->
  (let* vs := mapM G l in
   foldM (fun acc iv => body acc (fst iv) (snd iv)) (combine l vs) acc)
  = foldM (fun acc i => let* v := G i in body acc i v) l acc.
Proof.
  revert acc. induction l as [|i l IH]; intros acc HT; [reflexivity|].
  cbn [mapM foldM]. destruct (G i) as [v|e]; [cbn [bind]|reflexivity].
  destruct (HT i acc v (or_introl eq_refl)) as [r Hr]. rewrite Hr.
  cbn [bind]. rewrite <- IH by (intros; apply HT; now right).
  destruct (mapM G l) as [vs|e]; cbn [bind foldM combine fst snd].
  - now rewrite Hr.
  - reflexivity.
Qed.

Lemma mapM_map {X Y W : Type} (f : X -> Y) (G : Y -> Res W) (l : list X) :
  mapM G (map f l) = mapM (fun x => G (f x)) l.
Proof.
  induction l as [|x l IH]; cbn [map mapM]; [reflexivity|]. now rewrite IH.
Qed.

Lemma indices_shift (first : Z) (count : nat) :
  indices (first + 1) count = map (fun i => (i + 1)%Z) (indices first count).
Proof.
  unfold indices. rewrite map_map. apply map_ext. intros n. lia.
Qed.

(** ** [expectedPV_grm_gpcm] against [expectedPV] *)

Section PolytomousVariance.
Context {A : Arith}.
Variables (ext : Externals A) (extq : ExternalsQA A).
Variables (qs : QuestionSet A) (item : Z) (prior : Prior A).

Local Open Scope double_scope.

Lemma gpcm_sums_size (d theta s : double) (row : list double) :
  List.length (gpcm_sums d theta s row) = List.length row.
Proof.
  revert s. induction row as [|c row IH]; intros s; cbn [gpcm_sums List.length];
    [reflexivity|]. now rewrite IH.
Qed.

(** How many entries [probability] returns under the polytomous models. *)
Lemma probability_size (theta : double) (probs : list double) :
  probability qs theta item = Ok probs ->
  (is_model qs "grm" = true ->
   exists row, vec_at (difficulty qs) item = Ok row
               /\ List.length probs = (List.length row + 2)%nat)
  /\ (is_model qs "grm" = false -> is_model qs "gpcm" = true ->
      exists row, vec_at (difficulty qs) item = Ok row
                  /\ List.length probs = (List.length row + 1)%nat).
Proof.
  unfold probability.
  destruct ((item <? 0)%Z || _); [discriminate|]. intros H. split.
  - intros Hg. rewrite Hg in H. unfold prob_grm in H.
    destruct (vec_at (discrimination qs) item) as [d|]; [|discriminate].
    cbn [bind] in H.
    destruct (vec_at (difficulty qs) item) as [row|]; [|discriminate].
    cbn [bind] in H. destruct (adjacent_find _); [discriminate|].
    exists row. split; [reflexivity|].
    assert (E : probs = grm_padded d theta row) by congruence.
    rewrite E. unfold grm_padded. cbn [List.length].
    rewrite length_app, length_map. cbn [List.length]. lia.
  - intros Hg Hp. rewrite Hg, Hp in H. unfold prob_gpcm in H.
    destruct (vec_at (discrimination qs) item) as [d|]; [|discriminate].
    cbn [bind] in H.
    destruct (vec_at (difficulty qs) item) as [row|]; [|discriminate].
    cbn [bind] in H.
    destruct (gpcm_masses_spec d theta row) as [s E]. rewrite E in H.
    destruct (_ || _); [discriminate|].
    exists row. split; [reflexivity|].
    assert (E' : probs = map (fun prob => prob / gpcm_total d theta row)
                             (gpcm_exponentials d theta row)) by congruence.
    rewrite E', length_map. unfold gpcm_exponentials.
    cbn [List.length map]. rewrite length_map, gpcm_sums_size. lia.
Qed.

Local Abbreviation pushed := (applicable_rows qs ++ [item]).
Local Abbreviation stored a :=
  (reshaped qs (list_set (answers qs) (Z.to_nat item) a) pushed).

(** The variance of the answer [a]: [estimateSE] on the state with the
    item pushed and the answer stored, squared. *)
Local Abbreviation variance_of :=
  (fun a => let* se := estimateSE ext (stored a) prior in Ok (pow se 2)).

Lemma variances_loop_run (l : list Z) (acc : list double) (a : list Z) :
  valid_item qs item ->
  List.length a = List.length (answers qs) ->
  (forall w, list_set a (Z.to_nat item) w
             = list_set (answers qs) (Z.to_nat item) w) ->
  exists a',
    List.length a' = List.length (answers qs)
    /\ forM (fun variances i =>
               bindM (assign_answer item (i + 1)%Z) (fun _ =>
               bindM (read (fun qs => estimateSE ext qs prior)) (fun se =>
               ret (variances ++ [pow se 2]))))
            l acc (reshaped qs a pushed)
       = (let* vs := mapM (fun i => variance_of (i + 1)%Z) l in
          Ok (acc ++ vs),
          reshaped qs a' pushed).
Proof.
  intros Hv. revert acc a.
  induction l as [|i l IH]; intros acc a Hlen Hset; cbn [forM mapM bind].
  - exists a. split; [exact Hlen|]. unfold ret. now rewrite app_nil_r.
  - unfold bindM at 1. unfold bindM at 1.
    rewrite assign_answer_run by (unfold valid_item; cbn [reshaped
      set_answers set_applicable_rows answers]; rewrite Hlen; exact Hv).
    change (set_answers (reshaped qs a pushed)
              (list_set (answers (reshaped qs a pushed)) (Z.to_nat item)
                        (i + 1)%Z))
      with (reshaped qs (list_set a (Z.to_nat item) (i + 1)%Z) pushed).
    rewrite Hset. unfold bindM at 1. unfold read at 1.
    destruct (estimateSE ext (stored (i + 1)%Z) prior) as [se|e];
      cbn [bind].
    + unfold ret at 1.
      destruct (IH (acc ++ [pow se 2])
                  (list_set (answers qs) (Z.to_nat item) (i + 1)%Z))
        as (a' & Hlen' & E).
      * apply list_set_length.
      * intros w. apply list_set_twice.
      * exists a'. split; [exact Hlen'|]. rewrite E. f_equal.
        destruct (mapM _ l) as [vs|e]; cbn [bind]; [|reflexivity].
        now rewrite <- app_assoc.
    + exists (list_set (answers qs) (Z.to_nat item) (i + 1)%Z).
      split; [apply list_set_length|reflexivity].
Qed.

Lemma grm_excludes :
  is_model qs "grm" = true ->
  is_model qs "ltm" || is_model qs "tpm" = false
  /\ is_model qs "gpcm" = false.
Proof.
  intros H. apply String.eqb_eq in H. unfold is_model. now rewrite H.
Qed.

Lemma gpcm_excludes :
  is_model qs "gpcm" = true ->
  is_model qs "ltm" || is_model qs "tpm" = false
  /\ is_model qs "grm" = false.
Proof.
  intros H. apply String.eqb_eq in H. unfold is_model. now rewrite H.
Qed.

(** The loops of [expectedPV_grm_gpcm], with the variance taken on the
    state that has the answer stored. *)
Local Abbreviation grm_sum probabilities :=
  (foldM (fun sum i =>
            let* v := variance_of i in
            let* hi := vec_at probabilities i in
            let* lo := vec_at probabilities (i - 1)%Z in
            Ok (sum + v * (hi - lo)))
         (indices 1 (List.length probabilities - 1)) 0).

Local Abbreviation gpcm_sum probabilities :=
  (foldM (fun sum i =>
            let* v := variance_of (i + 1)%Z in
            let* p := vec_at probabilities i in
            Ok (sum + v * p))
         (indices 0 (List.length probabilities)) 0).

Lemma polytomous_run_grm :
  is_model qs "grm" = true ->
  valid_item qs item ->
  exists s',
    polytomous_posterior_variance ext item prior qs
    = (let* t := estimateTheta ext qs prior in
       let* probabilities := probability qs t item in
       grm_sum probabilities, s')
    /\ is_model s' "gpcm" = false
    /\ valid_item s' item.
Proof.
  intros Hg Hv. destruct (grm_excludes Hg) as [_ Hp].
  unfold polytomous_posterior_variance.
  unfold bindM at 1. unfold read at 1.
  destruct (estimateTheta ext qs prior) as [t|e]; cbn [bind];
    [|now exists qs].
  destruct (probability qs t item) as [probs|e] eqn:HP; cbn [bind];
    [|now exists qs].
  destruct (proj1 (probability_size t probs HP) Hg) as (row & Hrow & Hsize).
  unfold bindM at 1. unfold push_back_row at 1.
  unfold bindM at 1. unfold read at 1.
  change (difficulty (set_applicable_rows qs pushed)) with (difficulty qs).
  rewrite Hrow. unfold bindM at 1.
  change (set_applicable_rows qs pushed)
    with (reshaped qs (answers qs) pushed).
  destruct (variances_loop_run (indices 0 (List.length row + 1)) []
              (answers qs) Hv eq_refl (fun w => eq_refl))
    as (a' & Hlen' & E).
  rewrite E. clear E.
  assert (HR : mapM variance_of (indices 1 (List.length probs - 1))
               = mapM (fun i => variance_of (i + 1)%Z)
                      (indices 0 (List.length row + 1))).
  { replace (List.length probs - 1)%nat with (List.length row + 1)%nat
      by lia.
    change 1%Z with (0 + 1)%Z at 1. now rewrite indices_shift, mapM_map. }
  assert (HT : forall i (a : double) (v : double),
             In i (indices 1 (List.length probs - 1)) ->
             exists r, (let* hi := vec_at probs i in
                        let* lo := vec_at probs (i - 1)%Z in
                        Ok (a + v * (hi - lo))) = Ok r).
  { intros i a v Hi. apply in_indices in Hi.
    destruct (vec_at_in_range probs i) as (hi & -> & _); [lia|].
    destruct (vec_at_in_range probs (i - 1)%Z) as (lo & -> & _); [lia|].
    cbn [bind]. eexists; reflexivity. }
  rewrite <- (foldM_fused variance_of
                (fun sum i v => let* hi := vec_at probs i in
                                let* lo := vec_at probs (i - 1)%Z in
                                Ok (sum + v * (hi - lo))) _ 0 HT).
  rewrite HR.
  destruct (mapM _ (indices 0 (List.length row + 1))) as [vs|e] eqn:HM;
    cbn [bind app].
  - apply mapM_length in HM. rewrite length_indices in HM.
    unfold bindM at 1. unfold read at 1.
    change (is_model (reshaped qs a' pushed)) with (is_model qs).
    rewrite Hg. cbv iota.
    pose proof (foldM_indexed
                  (fun sum i v => let* hi := vec_at probs i in
                                  let* lo := vec_at probs (i - 1)%Z in
                                  Ok (sum + v * (hi - lo)))
                  1%Z vs [] 0) as F.
    cbn [app List.length] in F. change (1 + Z.of_nat 0)%Z with 1%Z in F.
    replace (List.length probs - 1)%nat with (List.length vs) by lia.
    rewrite F. clear F.
    destruct (foldM _ (combine (indices 1 (List.length vs)) vs) 0)
      as [sum|e]; cbn [bind].
    + unfold bindM at 1. unfold read at 1.
      change (is_model (reshaped qs a' pushed)) with (is_model qs).
      rewrite Hp. unfold bindM, pop_back_row, ret.
      eexists. split; [reflexivity|]. split; [exact Hp|].
      unfold valid_item. cbn [reshaped set_answers set_applicable_rows
                               answers].
      rewrite Hlen'. exact Hv.
    + eexists. split; [reflexivity|]. split; [exact Hp|].
      unfold valid_item. cbn [reshaped set_answers set_applicable_rows
                               answers].
      rewrite Hlen'. exact Hv.
  - eexists. split; [reflexivity|]. split; [exact Hp|].
    unfold valid_item. cbn [reshaped set_answers set_applicable_rows
                             answers].
    rewrite Hlen'. exact Hv.
Qed.

Lemma polytomous_run_gpcm :
  is_model qs "gpcm" = true ->
  valid_item qs item ->
  exists s',
    polytomous_posterior_variance ext item prior qs
    = (let* t := estimateTheta ext qs prior in
       let* probabilities := probability qs t item in
       gpcm_sum probabilities, s')
    /\ valid_item s' item.
Proof.
  intros Hp Hv. destruct (gpcm_excludes Hp) as [_ Hg].
  unfold polytomous_posterior_variance.
  unfold bindM at 1. unfold read at 1.
  destruct (estimateTheta ext qs prior) as [t|e]; cbn [bind];
    [|now exists qs].
  destruct (probability qs t item) as [probs|e] eqn:HP; cbn [bind];
    [|now exists qs].
  destruct (proj2 (probability_size t probs HP) Hg Hp)
    as (row & Hrow & Hsize).
  unfold bindM at 1. unfold push_back_row at 1.
  unfold bindM at 1. unfold read at 1.
  change (difficulty (set_applicable_rows qs pushed)) with (difficulty qs).
  rewrite Hrow. unfold bindM at 1.
  change (set_applicable_rows qs pushed)
    with (reshaped qs (answers qs) pushed).
  destruct (variances_loop_run (indices 0 (List.length row + 1)) []
              (answers qs) Hv eq_refl (fun w => eq_refl))
    as (a' & Hlen' & E).
  rewrite E. clear E.
  assert (HT : forall i (a : double) (v : double),
             In i (indices 0 (List.length probs)) ->
             exists r, (let* p := vec_at probs i in Ok (a + v * p)) = Ok r).
  { intros i a v Hi. apply in_indices in Hi.
    destruct (vec_at_in_range probs i) as (p & -> & _); [lia|].
    cbn [bind]. eexists; reflexivity. }
  rewrite <- (foldM_fused (fun i => variance_of (i + 1)%Z)
                (fun sum i v => let* p := vec_at probs i in Ok (sum + v * p))
                _ 0 HT).
  replace (List.length probs) with (List.length row + 1)%nat by lia.
  assert (Hstate : valid_item (reshaped qs a' pushed) item /\
                   valid_item (set_applicable_rows (reshaped qs a' pushed)
                                 (removelast pushed)) item).
  { unfold valid_item. cbn [reshaped set_answers set_applicable_rows
                             answers].
    rewrite Hlen'. now split. }
  destruct Hstate as [Hs1 Hs2].
  destruct (mapM _ (indices 0 (List.length row + 1))) as [vs|e] eqn:HM;
    cbn [bind app]; [|now eexists].
  apply mapM_length in HM. rewrite length_indices in HM.
  unfold bindM at 1. unfold read at 1.
  change (is_model (reshaped qs a' pushed)) with (is_model qs).
  rewrite Hg. cbv iota.
  unfold bindM at 1. unfold read at 1.
  change (is_model (reshaped qs a' pushed)) with (is_model qs).
  rewrite Hp. cbv iota.
  pose proof (foldM_indexed
                (fun sum i v => let* p := vec_at probs i in Ok (sum + v * p))
                0%Z vs [] 0) as F.
  cbn [app List.length] in F. change (0 + Z.of_nat 0)%Z with 0%Z in F.
  rewrite HM in F.
  replace (foldM (fun sum i => let* v := vec_at vs i in
                               let* p := vec_at probs i in Ok (sum + v * p))
                 (indices 0 (List.length row + 1)) 0)
    with (foldM (fun sum i => let* v := vec_at vs (i - 0)%Z in
                              let* p := vec_at probs i in Ok (sum + v * p))
                (indices 0 (List.length row + 1)) 0)
    by (apply foldM_ext_in; intros i a _; now rewrite Z.sub_0_r).
  rewrite F. clear F.
  destruct (foldM _ (combine (indices 0 (List.length row + 1)) vs) 0)
    as [sum|e]; cbn [bind].
  - unfold bindM, pop_back_row, ret. now eexists.
  - now eexists.
Qed.

Hypothesis se_agrees :
  forall a answers',
    vec_set (answers qs) item a = Ok answers' ->
    estimateSE_qa extq qs prior item a
    = estimateSE ext (committed qs item answers') prior.

Lemma variance_overload (a : Z) :
  valid_item qs item ->
  estimateSE_qa extq qs prior item a = estimateSE ext (stored a) prior.
Proof.
  intros Hv. exact (se_agrees _ _ (vec_set_valid item qs a Hv)).
Qed.

(** X18.  [expectedPV_grm_gpcm] returns what [expectedPV] returns under
    the models grm and gpcm, value or thrown error, when the overload of
    [estimateSE] with a hypothetical answer agrees with [estimateSE] on the
    state that has the answer stored: computing every variance before the
    weighted sum, or inside it, makes no difference. *)
Theorem expectedPV_grm_gpcm_agrees :
  is_model qs "grm" || is_model qs "gpcm" = true ->
  valid_item qs item ->
  expectedPV_grm_gpcm ext extq qs item prior
  = fst (expectedPV ext item prior qs).
Proof.
  intros Hm Hv.
  unfold expectedPV, expectedPV_grm_gpcm.
  unfold bindM at 1. unfold model_is at 1.
  unfold bindM at 1. unfold model_is at 1.
  destruct (is_model qs "grm") eqn:Hg.
  - destruct (grm_excludes Hg) as [Hb Hp]. rewrite Hb, Hp.
    unfold bindM at 1. unfold ret at 1.
    unfold bindM at 1. unfold model_is at 1. rewrite Hg.
    destruct (polytomous_run_grm Hg Hv) as (s' & E & Hp' & Hv').
    unfold bindM at 1. rewrite E. clear E.
    destruct (estimateTheta ext qs prior) as [t|e]; cbn [bind fst];
      [|reflexivity].
    destruct (probability qs t item) as [probs|e]; cbn [bind fst];
      [|reflexivity].
    replace (foldM _ (indices 1 (List.length probs - 1)) 0)
      with (grm_sum probs).
    2:{ apply foldM_ext_in. intros i a _.
        rewrite (variance_overload i Hv).
        now destruct (estimateSE ext (stored i) prior). }
    destruct (grm_sum probs) as [sum|e]; cbn [bind fst]; [|reflexivity].
    unfold bindM at 1. unfold model_is at 1. rewrite Hp'.
    unfold bindM at 1. unfold ret at 1.
    unfold bindM. rewrite (assign_answer_run item s' NA_INTEGER Hv').
    reflexivity.
  - cbn [orb] in Hm. destruct (gpcm_excludes Hm) as [Hb _]. rewrite Hb, Hm.
    unfold bindM at 1. unfold ret at 1.
    unfold bindM at 1. unfold model_is at 1. rewrite Hg.
    unfold bindM at 1. unfold ret at 1.
    unfold bindM at 1. unfold model_is at 1. rewrite Hm.
    destruct (polytomous_run_gpcm Hm Hv) as (s' & E & Hv').
    unfold bindM at 1. rewrite E. clear E.
    destruct (estimateTheta ext qs prior) as [t|e]; cbn [bind fst];
      [|reflexivity].
    destruct (probability qs t item) as [probs|e]; cbn [bind fst];
      [|reflexivity].
    replace (foldM _ (indices 0 (List.length probs)) 0)
      with (gpcm_sum probs).
    2:{ apply foldM_ext_in. intros i a _.
        rewrite (variance_overload (i + 1)%Z Hv).
        now destruct (estimateSE ext (stored (i + 1)%Z) prior). }
    destruct (gpcm_sum probs) as [sum|e]; cbn [bind fst]; [|reflexivity].
    unfold bindM. rewrite (assign_answer_run item s' NA_INTEGER Hv').
    reflexivity.
Qed.

End PolytomousVariance.

Lemma expectedPV_grm_gpcm_agrees_witness :
  expectedPV_grm_gpcm prior_estimator prior_estimator_qa grm_qs 0%Z std_prior
  = fst (expectedPV prior_estimator 0%Z std_prior grm_qs).
Proof.
  apply (expectedPV_grm_gpcm_agrees prior_estimator prior_estimator_qa
           grm_qs 0%Z std_prior).
  - intros; reflexivity.
  - reflexivity.
  - unfold valid_item; cbn; lia.
Defined.

(** ** [expectedObsInf_grm] and [expectedObsInf_gpcm] against [expectedObsInf] *)

Section PolytomousInformation.
Context {A : Arith}.
Variables (ext : Externals A) (extq : ExternalsQA A).
Variables (qs : QuestionSet A) (item : Z) (prior : Prior A).

Local Open Scope double_scope.

Local Abbreviation pushed := (applicable_rows qs ++ [item]).
Local Abbreviation stored a :=
  (reshaped qs (list_set (answers qs) (Z.to_nat item) a) pushed).

(** The loop that stores the answers [i + 1] in turn and reads the state
    after each. *)
Lemma assign_read_loop_run {X : Type} (r : QuestionSet A -> Res X)
  (l : list Z) (acc : list X) (a : list Z) :
  valid_item qs item ->
  List.length a = List.length (answers qs) ->
  (forall w, list_set a (Z.to_nat item) w
             = list_set (answers qs) (Z.to_nat item) w) ->
  exists a',
    List.length a' = List.length (answers qs)
    /\ forM (fun acc i =>
               bindM (assign_answer item (i + 1)%Z) (fun _ =>
               bindM (read r) (fun v => ret (acc ++ [v]))))
            l acc (reshaped qs a pushed)
       = (let* vs := mapM (fun i => r (stored (i + 1)%Z)) l in
          Ok (acc ++ vs),
          reshaped qs a' pushed).
Proof.
  intros Hv. revert acc a.
  induction l as [|i l IH]; intros acc a Hlen Hset; cbn [forM mapM bind].
  - exists a. split; [exact Hlen|]. unfold ret. now rewrite app_nil_r.
  - unfold bindM at 1. unfold bindM at 1.
    rewrite assign_answer_run by (unfold valid_item; cbn [reshaped
      set_answers set_applicable_rows answers]; rewrite Hlen; exact Hv).
    change (set_answers (reshaped qs a pushed)
              (list_set (answers (reshaped qs a pushed)) (Z.to_nat item)
                        (i + 1)%Z))
      with (reshaped qs (list_set a (Z.to_nat item) (i + 1)%Z) pushed).
    rewrite Hset. unfold bindM at 1. unfold read at 1.
    destruct (r (stored (i + 1)%Z)) as [v|e]; cbn [bind].
    + unfold ret at 1.
      destruct (IH (acc ++ [v])
                  (list_set (answers qs) (Z.to_nat item) (i + 1)%Z))
        as (a' & Hlen' & E).
      * apply list_set_length.
      * intros w. apply list_set_twice.
      * exists a'. split; [exact Hlen'|]. rewrite E. f_equal.
        destruct (mapM _ l) as [vs|e]; cbn [bind]; [|reflexivity].
        now rewrite <- app_assoc.
    + exists (list_set (answers qs) (Z.to_nat item) (i + 1)%Z).
      split; [apply list_set_length|reflexivity].
Qed.

(** [obsInf] with a hypothetical answer, and on the state that has it. *)
Lemma obsInf_qa_stored (t : double) (a : Z) :
  valid_item qs item ->
  obsInf_qa qs t item a = obsInf (stored a) t item.
Proof.
  intros Hv.
  pose proof (vec_at_set_same _ _ _ _ (vec_set_valid item qs a Hv)) as Hat.
  assert (HP : probability (stored a) t item = probability qs t item).
  { unfold probability.
    cbn [answers reshaped set_answers set_applicable_rows].
    now rewrite list_set_length. }
  unfold obsInf_qa, obsInf, grm_partial_d2LL, grm_partial_d2LL_qa,
    gpcm_partial_d2LL, gpcm_partial_d2LL_qa.
  rewrite HP.
  change (is_model (stored a)) with (is_model qs).
  change (prob_ltm (stored a)) with (prob_ltm qs).
  change (prob_derivs_gpcm (stored a)) with (prob_derivs_gpcm qs).
  change (answers (stored a)) with (list_set (answers qs) (Z.to_nat item) a).
  change (discrimination (stored a)) with (discrimination qs).
  change (guessing (stored a)) with (guessing qs).
  rewrite Hat. cbn [bind]. reflexivity.
Qed.

Local Abbreviation info_of :=
  (fun a => let* t := estimateTheta ext (stored a) prior in
            obsInf (stored a) t item).

Local Abbreviation grm_info probabilities :=
  (foldM (fun sum i =>
            let* v := info_of i in
            let* hi := vec_at probabilities i in
            let* lo := vec_at probabilities (i - 1)%Z in
            Ok (sum + v * (hi - lo)))
         (indices 1 (List.length probabilities - 1)) 0).

Local Abbreviation gpcm_info probabilities :=
  (foldM (fun sum i =>
            let* v := info_of (i + 1)%Z in
            let* p := vec_at probabilities i in
            Ok (sum + v * p))
         (indices 0 (List.length probabilities)) 0).

Lemma expectedObsInf_run_grm :
  is_model qs "grm" = true ->
  valid_item qs item ->
  fst (expectedObsInf ext item prior qs)
  = (let* t := estimateTheta ext qs prior in
     let* probabilities := probability qs t item in
     grm_info probabilities).
Proof.
  intros Hg Hv. destruct (grm_excludes qs Hg) as [_ Hp].
  unfold expectedObsInf.
  unfold bindM at 1. rewrite Hg. cbn [orb].
  unfold bindM at 1. unfold read at 1.
  destruct (estimateTheta ext qs prior) as [t|e]; cbn [bind fst];
    [|reflexivity].
  destruct (probability qs t item) as [probs|e] eqn:HP; cbn [bind fst];
    [|reflexivity].
  destruct (proj1 (probability_size qs item t probs HP) Hg)
    as (row & Hrow & Hsize).
  unfold bindM at 1. unfold push_back_row at 1.
  unfold bindM at 1. unfold read at 1.
  change (difficulty (set_applicable_rows qs pushed)) with (difficulty qs).
  rewrite Hrow. unfold bindM at 1.
  change (set_applicable_rows qs pushed)
    with (reshaped qs (answers qs) pushed).
  destruct (assign_read_loop_run
              (fun s => let* t := estimateTheta ext s prior in obsInf s t item)
              (indices 0 (List.length row + 1)) []
              (answers qs) Hv eq_refl (fun w => eq_refl))
    as (a' & Hlen' & E).
  rewrite E. clear E.
  assert (HR : mapM info_of (indices 1 (List.length probs - 1))
               = mapM (fun i => info_of (i + 1)%Z)
                      (indices 0 (List.length row + 1))).
  { replace (List.length probs - 1)%nat with (List.length row + 1)%nat
      by lia.
    change 1%Z with (0 + 1)%Z at 1. now rewrite indices_shift, mapM_map. }
  assert (HT : forall i (a : double) (v : double),
             In i (indices 1 (List.length probs - 1)) ->
             exists r, (let* hi := vec_at probs i in
                        let* lo := vec_at probs (i - 1)%Z in
                        Ok (a + v * (hi - lo))) = Ok r).
  { intros i a v Hi. apply in_indices in Hi.
    destruct (vec_at_in_range probs i) as (hi & -> & _); [lia|].
    destruct (vec_at_in_range probs (i - 1)%Z) as (lo & -> & _); [lia|].
    cbn [bind]. eexists; reflexivity. }
  rewrite <- (foldM_fused info_of
                (fun sum i v => let* hi := vec_at probs i in
                                let* lo := vec_at probs (i - 1)%Z in
                                Ok (sum + v * (hi - lo))) _ 0 HT).
  rewrite HR.
  destruct (mapM _ (indices 0 (List.length row + 1))) as [vs|e] eqn:HM;
    cbn [bind app fst]; [|reflexivity].
  apply mapM_length in HM. rewrite length_indices in HM.
  unfold bindM at 1.
  rewrite assign_answer_run by (unfold valid_item; cbn [reshaped
    set_answers set_applicable_rows answers]; rewrite Hlen'; exact Hv).
  unfold bindM at 1. unfold pop_back_row at 1.
  unfold bindM at 1. unfold read at 1.
  match goal with
  | |- context [is_model ?s "grm"] =>
      change (is_model s "grm") with (is_model qs "grm")
  end.
  rewrite Hg. cbv iota.
  pose proof (foldM_indexed
                (fun sum i v => let* hi := vec_at probs i in
                                let* lo := vec_at probs (i - 1)%Z in
                                Ok (sum + v * (hi - lo)))
                1%Z vs [] 0) as F.
  cbn [app List.length] in F. change (1 + Z.of_nat 0)%Z with 1%Z in F.
  replace (List.length probs - 1)%nat with (List.length vs) by lia.
  rewrite F. clear F.
  destruct (foldM _ (combine (indices 1 (List.length vs)) vs) 0)
    as [sum|e]; cbn [bind fst]; [|reflexivity].
  unfold bindM at 1. unfold read at 1.
  match goal with
  | |- context [is_model ?s "gpcm"] =>
      change (is_model s "gpcm") with (is_model qs "gpcm")
  end.
  rewrite Hp. reflexivity.
Qed.

Lemma expectedObsInf_run_gpcm :
  is_model qs "gpcm" = true ->
  valid_item qs item ->
  fst (expectedObsInf ext item prior qs)
  = (let* t := estimateTheta ext qs prior in
     let* probabilities := probability qs t item in
     gpcm_info probabilities).
Proof.
  intros Hp Hv. destruct (gpcm_excludes qs Hp) as [_ Hg].
  unfold expectedObsInf.
  unfold bindM at 1. rewrite Hg, Hp. cbn [orb].
  unfold bindM at 1. unfold read at 1.
  destruct (estimateTheta ext qs prior) as [t|e]; cbn [bind fst];
    [|reflexivity].
  destruct (probability qs t item) as [probs|e] eqn:HP; cbn [bind fst];
    [|reflexivity].
  destruct (proj2 (probability_size qs item t probs HP) Hg Hp)
    as (row & Hrow & Hsize).
  unfold bindM at 1. unfold push_back_row at 1.
  unfold bindM at 1. unfold read at 1.
  change (difficulty (set_applicable_rows qs pushed)) with (difficulty qs).
  rewrite Hrow. unfold bindM at 1.
  change (set_applicable_rows qs pushed)
    with (reshaped qs (answers qs) pushed).
  destruct (assign_read_loop_run
              (fun s => let* t := estimateTheta ext s prior in obsInf s t item)
              (indices 0 (List.length row + 1)) []
              (answers qs) Hv eq_refl (fun w => eq_refl))
    as (a' & Hlen' & E).
  rewrite E. clear E.
  assert (HT : forall i (a : double) (v : double),
             In i (indices 0 (List.length probs)) ->
             exists r, (let* p := vec_at probs i in Ok (a + v * p)) = Ok r).
  { intros i a v Hi. apply in_indices in Hi.
    destruct (vec_at_in_range probs i) as (p & -> & _); [lia|].
    cbn [bind]. eexists; reflexivity. }
  rewrite <- (foldM_fused (fun i => info_of (i + 1)%Z)
                (fun sum i v => let* p := vec_at probs i in Ok (sum + v * p))
                _ 0 HT).
  replace (List.length probs) with (List.length row + 1)%nat by lia.
  destruct (mapM _ (indices 0 (List.length row + 1))) as [vs|e] eqn:HM;
    cbn [bind app fst]; [|reflexivity].
  apply mapM_length in HM. rewrite length_indices in HM.
  unfold bindM at 1.
  rewrite assign_answer_run by (unfold valid_item; cbn [reshaped
    set_answers set_applicable_rows answers]; rewrite Hlen'; exact Hv).
  unfold bindM at 1. unfold pop_back_row at 1.
  unfold bindM at 1. unfold read at 1.
  match goal with
  | |- context [is_model ?s "grm"] =>
      change (is_model s "grm") with (is_model qs "grm")
  end.
  rewrite Hg. cbv iota.
  unfold bindM at 1. unfold read at 1.
  match goal with
  | |- context [is_model ?s "gpcm"] =>
      change (is_model s "gpcm") with (is_model qs "gpcm")
  end.
  rewrite Hp. cbv iota.
  pose proof (foldM_indexed
                (fun sum i v => let* p := vec_at probs i in Ok (sum + v * p))
                0%Z vs [] 0) as F.
  cbn [app List.length] in F. change (0 + Z.of_nat 0)%Z with 0%Z in F.
  rewrite HM in F.
  replace (foldM (fun sum i => let* v := vec_at vs i in
                               let* p := vec_at probs i in Ok (sum + v * p))
                 (indices 0 (List.length row + 1)) 0)
    with (foldM (fun sum i => let* v := vec_at vs (i - 0)%Z in
                              let* p := vec_at probs i in Ok (sum + v * p))
                (indices 0 (List.length row + 1)) 0)
    by (apply foldM_ext_in; intros i a _; now rewrite Z.sub_0_r).
  rewrite F. clear F.
  now destruct (foldM _ (combine (indices 0 (List.length row + 1)) vs) 0).
Qed.

Hypothesis theta_agrees :
  forall a answers',
    vec_set (answers qs) item a = Ok answers' ->
    estimateTheta_qa extq qs prior item a
    = estimateTheta ext (committed qs item answers') prior.

Lemma info_overload (a : Z) :
  valid_item qs item ->
  (let* t := estimateTheta_qa extq qs prior item a in obsInf_qa qs t item a)
  = info_of a.
Proof.
  intros Hv. rewrite (theta_agrees _ _ (vec_set_valid item qs a Hv)).
  change (committed qs item (list_set (answers qs) (Z.to_nat item) a))
    with (stored a).
  destruct (estimateTheta ext (stored a) prior) as [t|e]; cbn [bind];
    [|reflexivity].
  now apply obsInf_qa_stored.
Qed.

(** X19.  Under model grm [expectedObsInf_grm], and under model gpcm
    [expectedObsInf_gpcm], returns what [expectedObsInf] returns, value or
    thrown error, when the overload of [estimateTheta] with a hypothetical
    answer agrees with [estimateTheta] on the state that has the answer
    stored. *)
Theorem expectedObsInf_polytomous_agrees :
  valid_item qs item ->
  (is_model qs "grm" = true ->
   expectedObsInf_grm ext extq qs item prior
   = fst (expectedObsInf ext item prior qs))
  /\ (is_model qs "gpcm" = true ->
      expectedObsInf_gpcm ext extq qs item prior
      = fst (expectedObsInf ext item prior qs)).
Proof.
  intros Hv. split; intros Hm.
  - rewrite (expectedObsInf_run_grm Hm Hv). unfold expectedObsInf_grm.
    destruct (estimateTheta ext qs prior) as [t|e]; cbn [bind];
      [|reflexivity].
    destruct (probability qs t item) as [probs|e]; cbn [bind];
      [|reflexivity].
    apply foldM_ext_in. intros i a _.
    rewrite <- (info_overload i Hv).
    now destruct (estimateTheta_qa extq qs prior item i).
  - rewrite (expectedObsInf_run_gpcm Hm Hv). unfold expectedObsInf_gpcm.
    destruct (estimateTheta ext qs prior) as [t|e]; cbn [bind];
      [|reflexivity].
    destruct (probability qs t item) as [probs|e]; cbn [bind];
      [|reflexivity].
    apply foldM_ext_in. intros i a _.
    rewrite <- (info_overload (i + 1)%Z Hv).
    now destruct (estimateTheta_qa extq qs prior item (i + 1)%Z).
Qed.

End PolytomousInformation.

Lemma expectedObsInf_polytomous_agrees_witness :
  expectedObsInf_grm prior_estimator prior_estimator_qa grm_qs 0%Z std_prior
  = fst (expectedObsInf prior_estimator 0%Z std_prior grm_qs).
Proof.
  apply (expectedObsInf_polytomous_agrees prior_estimator prior_estimator_qa
           grm_qs 0%Z std_prior).
  - intros; reflexivity.
  - unfold valid_item; cbn; lia.
  - reflexivity.
Defined.

(** ** The polytomous models, over the reals *)

Section RealPolytomous.

Local Open Scope R_scope.
Local Abbreviation eps := (@eps RArith).
Local Abbreviation grm_padded := (@grm_padded RArith).
Local Abbreviation gpcm_total := (@gpcm_total RArith).
Local Abbreviation gpcm_exponentials := (@gpcm_exponentials RArith).
Implicit Types (qs : QuestionSet RArith) (theta : R).

Lemma vec_at_In {X : Type} (v : list X) (i : Z) (x : X) :
  vec_at v i = Ok x -> In x v.
Proof.
  intros H. apply vec_at_in_range_inv in H. destruct H as [_ H].
  now apply nth_error_In in H.
Qed.

Lemma ln_nonpositive (x : R) : 0 < x <= 1 -> ln x <= 0.
Proof.
  intros [H0 [H1| ->]]; [left; apply ln_negative; lra|].
  rewrite ln_1. lra.
Qed.

Lemma Rsum_positive (l : list R) :
  Forall (fun m => 0 < m) l -> l <> [] -> 0 < Rsum l.
Proof.
  intros HP Hne. destruct l as [|m l]; [congruence|].
  inversion HP as [|? ? Hm HP']; subst.
  pose proof (Rsum_nonneg l HP') as H. unfold Rsum in *.
  cbn [fold_right]. lra.
Qed.

(** Under gpcm [probability] returns positive masses that add up to one. *)
Lemma gpcm_entries_range qs theta (q : Z) (l : list R) :
  is_model qs "gpcm" = true ->
  probability qs theta q = Ok l ->
  Forall (fun p => 0 < p <= 1) l /\ Rsum l = 1.
Proof.
  intros Hp. destruct (gpcm_excludes qs Hp) as [_ Hg].
  unfold probability. destruct (_ || _); [discriminate|].
  rewrite Hg, Hp. unfold prob_gpcm.
  destruct (vec_at (discrimination qs) q) as [d|]; [|discriminate].
  cbn [bind].
  destruct (vec_at (difficulty qs) q) as [row|]; [|discriminate].
  cbn [bind].
  destruct (gpcm_masses_spec d theta row) as [s E]. rewrite E.
  destruct (_ || _); [discriminate|]. intros H. real.
  assert (El : l = map (fun m => m / gpcm_total d theta row)
                       (gpcm_exponentials d theta row)) by congruence.
  clear H.
  pose proof (gpcm_exponentials_positive d theta row) as HP.
  pose proof (gpcm_total_sum d theta row) as HT.
  assert (H0 : 0 < gpcm_total d theta row).
  { rewrite HT. apply Rsum_positive; [exact HP|].
    unfold gpcm_exponentials. cbn [map]. discriminate. }
  split.
  - rewrite El. apply Forall_forall. intros p Hin.
    apply in_map_iff in Hin. destruct Hin as (m & <- & Hm).
    pose proof (Rsum_bounds_entry _ m HP Hm) as Hle. rewrite <- HT in Hle.
    rewrite Forall_forall in HP. specialize (HP m Hm). split.
    + now apply Rdiv_lt_0_compat.
    + apply Rmult_le_reg_r with (gpcm_total d theta row); [exact H0|].
      unfold Rdiv. rewrite Rmult_assoc, Rinv_l by lra. lra.
  - rewrite El, Rsum_map_div, <- HT. field. lra.
Qed.

(** Under grm [probability] returns the padded sequence of the item, with
    no two neighbours equal. *)
Lemma grm_entries qs theta (q : Z) (l : list R) :
  is_model qs "grm" = true ->
  probability qs theta q = Ok l ->
  exists d row,
    vec_at (difficulty qs) q = Ok row
    /\ l = grm_padded d theta row
    /\ adjacent_find l = false.
Proof.
  intros Hg. unfold probability. destruct (_ || _); [discriminate|].
  rewrite Hg. intros H.
  destruct (vec_at (discrimination qs) q) as [d|] eqn:Hd;
    [|unfold prob_grm in H; rewrite Hd in H; discriminate].
  destruct (vec_at (difficulty qs) q) as [row|] eqn:Hrow;
    [|unfold prob_grm in H; rewrite Hd, Hrow in H; discriminate].
  exists d, row. split; [reflexivity|].
  exact (prob_grm_Ok qs theta q d row l Hd Hrow H).
Qed.

Lemma differences_nth (l : list R) (n : nat) (lo hi : R) :
  nth_error l n = Some lo -> nth_error l (S n) = Some hi ->
  In (hi - lo) (differences l).
Proof.
  revert n. induction l as [|x l IH]; intros n Hlo Hhi; [destruct n; discriminate|].
  destruct l as [|y l]; [destruct n; discriminate|].
  destruct n as [|n].
  - cbn in Hlo, Hhi. injection Hlo as <-. injection Hhi as <-.
    cbn [differences]. now left.
  - cbn [differences]. right. apply (IH n); assumption.
Qed.

Lemma differences_at (l : list R) (a : Z) (lo hi : R) :
  vec_at l a = Ok hi -> vec_at l (a - 1)%Z = Ok lo ->
  In (hi - lo) (differences l).
Proof.
  intros Hhi Hlo. apply vec_at_in_range_inv in Hhi, Hlo.
  destruct Hhi as [R1 Hhi]. destruct Hlo as [R2 Hlo].
  replace (Z.to_nat a) with (S (Z.to_nat (a - 1))) in Hhi by lia.
  exact (differences_nth l _ lo hi Hlo Hhi).
Qed.

Lemma likelihood_gpcm_loop qs theta (rows : list Z) (acc L : R) :
  is_model qs "gpcm" = true ->
  foldM (fun L question =>
           let* answer := vec_at (answers qs) question in
           let* probs := probability qs theta question in
           let answer := (answer - 1)%Z in
           let* p := vec_at probs answer in
           Ok (L + ln p))
        rows acc = Ok L ->
  L <= acc.
Proof.
  intros Hp. revert acc.
  induction rows as [|q rows IH]; intros acc H; cbn [foldM] in H.
  - assert (acc = L) by congruence. lra.
  - destruct (vec_at (answers qs) q) as [a|]; [|discriminate].
    cbn [bind] in H.
    destruct (probability qs theta q) as [probs|] eqn:HP; [|discriminate].
    cbn [bind] in H. cbv zeta in H.
    destruct (vec_at probs (a - 1)%Z) as [p|] eqn:Hat; [|discriminate].
    cbn [bind] in H. apply IH in H.
    destruct (gpcm_entries_range qs theta q probs Hp HP) as [HF _].
    rewrite Forall_forall in HF.
    pose proof (ln_nonpositive p (HF p (vec_at_In _ _ _ Hat))). lra.
Qed.

Lemma likelihood_grm_loop qs theta (rows : list Z) (acc L : R) :
  is_model qs "grm" = true ->
  Forall (fun q => forall row,
            vec_at (difficulty qs) q = Ok row -> Sorted Rle row) rows ->
  foldM (fun L question =>
           let* answer := vec_at (answers qs) question in
           let* question_cdf := probability qs theta question in
           let* hi := vec_at question_cdf answer in
           let* lo := vec_at question_cdf (answer - 1)%Z in
           Ok (L + ln (hi - lo)))
        rows acc = Ok L ->
  L <= acc.
Proof.
  intros Hg HF. revert acc.
  induction HF as [|q rows Hq HF IH]; intros acc H; cbn [foldM] in H.
  - assert (acc = L) by congruence. lra.
  - destruct (vec_at (answers qs) q) as [a|]; [|discriminate].
    cbn [bind] in H.
    destruct (probability qs theta q) as [cdf|] eqn:HP; [|discriminate].
    cbn [bind] in H.
    destruct (vec_at cdf a) as [hi|] eqn:Hhi; [|discriminate].
    cbn [bind] in H.
    destruct (vec_at cdf (a - 1)%Z) as [lo|] eqn:Hlo; [|discriminate].
    cbn [bind] in H. apply IH in H.
    destruct (grm_entries qs theta q cdf Hg HP) as (d & row & Hrow & E & HA).
    subst cdf.
    pose proof (padded_masses_range d theta row (Hq row Hrow) HA) as HM.
    rewrite Forall_forall in HM.
    pose proof (ln_nonpositive _ (HM _ (differences_at _ _ _ _ Hhi Hlo))).
    lra.
Qed.

(** X20.  Under gpcm, and under grm when the thresholds of every
    applicable row do not decrease, the likelihood is positive and at most
    one whenever it is returned. *)
Theorem likelihood_polytomous_range qs theta (v : R) :
  is_model qs "grm" || is_model qs "gpcm" = true ->
  (is_model qs "grm" = true ->
   Forall (fun q => forall row,
             vec_at (difficulty qs) q = Ok row -> Sorted Rle row)
          (applicable_rows qs)) ->
  likelihood qs theta = Ok v ->
  0 < v <= 1.
Proof.
  intros Hm HS. unfold likelihood.
  destruct (is_model qs "grm") eqn:Hg.
  - destruct (grm_excludes qs Hg) as [Hb Hp]. rewrite Hb, Hp. cbn [bind].
    unfold likelihood_grm. real.
    destruct (foldM _ (applicable_rows qs) 0) as [L|] eqn:HL; [|discriminate].
    cbn [bind]. intros H.
    assert (Hv : v = Rtrigo_def.exp L) by congruence. subst v.
    apply (likelihood_grm_loop qs theta _ _ _ Hg (HS eq_refl)) in HL.
    rewrite <- exp_0. split; [apply exp_pos|now apply exp_mono].
  - cbn [orb] in Hm. destruct (gpcm_excludes qs Hm) as [Hb _].
    rewrite Hb, Hm. cbn [bind].
    unfold likelihood_gpcm. real.
    destruct (foldM _ (applicable_rows qs) 0) as [L|] eqn:HL; [|discriminate].
    cbn [bind]. intros H.
    assert (Hv : v = Rtrigo_def.exp L) by congruence. subst v.
    apply (likelihood_gpcm_loop qs theta _ _ _ Hm) in HL.
    rewrite <- exp_0. split; [apply exp_pos|now apply exp_mono].
Qed.

End RealPolytomous.

Lemma likelihood_polytomous_range_witness :
  exists v,
    likelihood (set_applicable_rows (set_answers gpcm_qs [1%Z]) [0%Z])
               (- 20)%R = Ok v
    /\ (0 < v <= 1)%R.
Proof.
  set (st := set_applicable_rows (set_answers gpcm_qs [1%Z]) [0%Z]).
  destruct (likelihood st (- 20)%R) as [v|e] eqn:H.
  - exists v. split; [reflexivity|].
    apply (likelihood_polytomous_range st (- 20)%R v).
    + reflexivity.
    + intros Hg. discriminate Hg.
    + exact H.
  - exfalso. unfold likelihood, likelihood_gpcm in H.
    change (is_model st "ltm" || is_model st "tpm") with false in H.
    change (is_model st "grm") with false in H.
    change (is_model st "gpcm") with true in H.
    change (applicable_rows st) with [0%Z] in H.
    cbn [bind foldM] in H.
    change (vec_at (answers st) 0%Z) with (@Ok Z 1%Z) in H.
    change (probability st (- 20)%R 0%Z)
      with (probability gpcm_qs (- 20)%R 0%Z) in H.
    rewrite gpcm_probability_example in H. cbn [bind] in H.
    discriminate H.
Defined.

(** ** Fisher information under the polytomous models, over the reals *)

Section RealInformation.

Local Open Scope R_scope.
Local Abbreviation grm_padded := (@grm_padded RArith).
Local Abbreviation gpcm_total := (@gpcm_total RArith).
Local Abbreviation gpcm_exponentials := (@gpcm_exponentials RArith).
Implicit Types (qs : QuestionSet RArith) (theta : R).

Lemma fisherInf_grm_loop (probs : list R) (d2 : R) (l : list Z) (acc v : R) :
  0 <= d2 ->
  Forall (fun m => 0 < m) (differences probs) ->
  foldM (fun output i =>
           let* P_star1 := vec_at probs i in
           let* P_star2 := vec_at probs (i - 1)%Z in
           let w1 := P_star1 * (1 - P_star1) in
           let w2 := P_star2 * (1 - P_star2) in
           Ok (output + d2 * (Rpow (w1 - w2) 2 / (P_star1 - P_star2))))
        l acc = Ok v ->
  acc <= v.
Proof.
  intros Hd HF. rewrite Forall_forall in HF. revert acc.
  induction l as [|i l IH]; intros acc H; cbn [foldM] in H.
  - assert (acc = v) by congruence. lra.
  - destruct (vec_at probs i) as [P1|] eqn:H1; [|discriminate].
    cbn [bind] in H.
    destruct (vec_at probs (i - 1)%Z) as [P2|] eqn:H2; [|discriminate].
    cbn [bind] in H. cbv zeta in H. apply IH in H.
    pose proof (HF _ (differences_at _ _ _ _ H1 H2)) as Hpos.
    rewrite Rpow_2 in H.
    set (w := P1 * (1 - P1) - P2 * (1 - P2)) in *.
    assert (0 <= w * w / (P1 - P2)).
    { apply Rmult_le_pos; [apply Rle_0_sqr|].
      left. now apply Rinv_0_lt_compat. }
    assert (0 <= d2 * (w * w / (P1 - P2))) by now apply Rmult_le_pos.
    lra.
Qed.

Lemma vec_at_app_at {X : Type} (pre l : list X) (x : X) (i : Z) :
  i = Z.of_nat (List.length pre) -> vec_at (pre ++ x :: l) i = Ok x.
Proof. intros ->. apply vec_at_app_head. Qed.

(** A loop that reads three vectors at the running index adds up the
    terms of their entries. *)
Lemma foldM_three (h : R -> R -> R -> R) (l1 l2 l3 pre1 pre2 pre3 : list R)
  (acc : R) :
  List.length pre2 = List.length pre1 ->
  List.length pre3 = List.length pre1 ->
  List.length l2 = List.length l1 ->
  List.length l3 = List.length l1 ->
  foldM (fun out i =>
           let* p := vec_at (pre1 ++ l1) i in
           let* p' := vec_at (pre2 ++ l2) i in
           let* p'' := vec_at (pre3 ++ l3) i in
           Ok (out + h p p' p''))
        (indices (Z.of_nat (List.length pre1)) (List.length l1)) acc
  = Ok (acc + Rsum (map (fun t => h (fst t) (fst (snd t)) (snd (snd t)))
                        (combine l1 (combine l2 l3)))).
Proof.
  revert l2 l3 pre1 pre2 pre3 acc.
  induction l1 as [|a l1 IH]; intros [|b l2] [|c l3] pre1 pre2 pre3 acc
    P2 P3 L2 L3; try discriminate.
  - cbn. f_equal. lra.
  - cbn [List.length]. rewrite indices_cons. cbn [foldM].
    rewrite vec_at_app_head. cbn [bind].
    rewrite (vec_at_app_at pre2 l2 b) by lia. cbn [bind].
    rewrite (vec_at_app_at pre3 l3 c) by lia. cbn [bind].
    specialize (IH l2 l3 (pre1 ++ [a]) (pre2 ++ [b]) (pre3 ++ [c])
                   (acc + h a b c)).
    rewrite <- !app_assoc, !length_app in IH. cbn [app List.length] in IH.
    replace (Z.of_nat (List.length pre1) + 1)%Z
      with (Z.of_nat (List.length pre1 + 1)) by lia.
    rewrite IH by (cbn [List.length] in L2, L3; lia).
    cbn [combine map Rsum fold_right fst snd]. f_equal. unfold Rsum. lra.
Qed.

Lemma exps_terms (d theta s x : R) (row : list R) :
  map Rtrigo_def.exp (gpcm_sums d theta s row)
  = map fst (derivs_terms d theta s x row).
Proof.
  revert s x. induction row as [|c row IH]; intros s x;
    cbn [gpcm_sums derivs_terms map fst]; [reflexivity|].
  real. f_equal. apply IH.
Qed.

Lemma gpcm_exponentials_terms (d theta : R) (row : list R) :
  gpcm_exponentials d theta row = map fst (all_terms d theta row).
Proof.
  unfold gpcm_exponentials, all_terms. real. cbn [map fst]. f_equal.
  apply exps_terms.
Qed.

Lemma Rsum_minus {X : Type} (u w : X -> R) (l : list X) :
  Rsum (map (fun t => u t - w t) l) = Rsum (map u l) - Rsum (map w l).
Proof.
  induction l as [|t l IH]; cbn [map Rsum fold_right]; [lra|].
  unfold Rsum in IH. rewrite IH. lra.
Qed.

Lemma Rsum_map_nonneg {X : Type} (u : X -> R) (l : list X) :
  (forall t, In t l -> 0 <= u t) -> 0 <= Rsum (map u l).
Proof.
  induction l as [|t l IH]; intros H; cbn [map Rsum fold_right]; [lra|].
  assert (0 <= u t) by (apply H; now left).
  assert (0 <= Rsum (map u l)) by (apply IH; intros; apply H; now right).
  unfold Rsum in *. lra.
Qed.

Lemma terms_positive (d theta : R) (row : list R) (t : R * R) :
  In t (all_terms d theta row) -> 0 < fst t.
Proof.
  intros Hin. pose proof (gpcm_exponentials_positive d theta row) as HP.
  rewrite gpcm_exponentials_terms, Forall_forall in HP.
  apply HP. now apply in_map.
Qed.

(** Under gpcm [probability] returns the normalized masses of the pairs. *)
Lemma gpcm_probability_terms qs theta (q : Z) (l : list R) :
  is_model qs "gpcm" = true ->
  probability qs theta q = Ok l ->
  exists d row,
    vec_at (discrimination qs) q = Ok d
    /\ vec_at (difficulty qs) q = Ok row
    /\ l = map (fun t => fst t / Rsum (map fst (all_terms d theta row)))
               (all_terms d theta row)
    /\ 0 < Rsum (map fst (all_terms d theta row)).
Proof.
  intros Hp. destruct (gpcm_excludes qs Hp) as [_ Hg].
  unfold probability. destruct (_ || _); [discriminate|].
  rewrite Hg, Hp. unfold prob_gpcm.
  destruct (vec_at (discrimination qs) q) as [d|]; [|discriminate].
  cbn [bind].
  destruct (vec_at (difficulty qs) q) as [row|]; [|discriminate].
  cbn [bind].
  destruct (gpcm_masses_spec d theta row) as [s E]. rewrite E.
  destruct (_ || _); [discriminate|]. intros H. real.
  exists d, row. split; [reflexivity|]. split; [reflexivity|].
  pose proof (gpcm_total_sum d theta row) as HT.
  rewrite gpcm_exponentials_terms in HT. split.
  - assert (El : l = map (fun m => m / gpcm_total d theta row)
                         (gpcm_exponentials d theta row)) by congruence.
    rewrite El, gpcm_exponentials_terms, map_map, HT. reflexivity.
  - apply Rsum_positive; [|unfold all_terms; discriminate].
    apply Forall_forall. intros m Hm. apply in_map_iff in Hm.
    destruct Hm as (t & <- & Ht). exact (terms_positive d theta row t Ht).
Qed.

(** X21.  Under gpcm, and under grm for an item whose thresholds do not
    decrease, the Fisher information of an item is never negative. *)
Theorem fisherInf_polytomous_nonnegative qs theta (item : Z) (v : R) :
  is_model qs "grm" || is_model qs "gpcm" = true ->
  (is_model qs "grm" = true ->
   forall row, vec_at (difficulty qs) item = Ok row -> Sorted Rle row) ->
  fisherInf qs theta item = Ok v ->
  0 <= v.
Proof.
  intros Hm HS. unfold fisherInf.
  destruct (is_model qs "grm") eqn:Hg.
  - destruct (grm_excludes qs Hg) as [Hb Hp]. rewrite Hb, Hp.
    destruct (probability qs theta item) as [probs|] eqn:HP; [|discriminate].
    cbn [bind].
    destruct (vec_at (discrimination qs) item) as [d|]; [|discriminate].
    cbn [bind].
    destruct (vec_at (difficulty qs) item) as [row|] eqn:Hrow;
      [|discriminate].
    cbn [bind]. real.
    destruct (foldM _ (indices 1 (List.length row + 1)) 0) as [out|] eqn:HF;
      [|discriminate].
    cbn [bind]. intros H. assert (Hv : v = out) by congruence. subst v.
    destruct (grm_entries qs theta item probs Hg HP)
      as (d' & row' & Hrow' & E & HA).
    real. assert (row' = row) by congruence. subst row' probs.
    pose proof (padded_masses_range d' theta row (HS eq_refl row eq_refl) HA)
      as HM.
    assert (HM' : Forall (fun m => 0 < m) (differences (grm_padded d' theta row))).
    { apply Forall_forall. rewrite Forall_forall in HM.
      intros m Hin. now apply HM. }
    refine (fisherInf_grm_loop _ (Rpow d 2) _ 0 out _ HM' HF).
    rewrite Rpow_2. apply Rle_0_sqr.
  - cbn [orb] in Hm. destruct (gpcm_excludes qs Hm) as [Hb _].
    rewrite Hb, Hm.
    destruct (probability qs theta item) as [probs|] eqn:HP; [|discriminate].
    cbn [bind].
    destruct (gpcm_probability_terms qs theta item probs Hm HP)
      as (d & row & Hd & Hrow & E & HT).
    rewrite Hd. cbn [bind].
    rewrite (prob_derivs_gpcm_terms qs theta item d row Hd Hrow).
    cbn [bind]. real.
    set (terms := all_terms d theta row) in *.
    set (g := Rsum (map fst terms)) in *.
    set (g1 := Rsum (map (fun t => fst t * snd t) terms)).
    set (g2 := Rsum (map (fun t => fst t * snd t * snd t) terms)).
    pose proof (foldM_three (fun p p' p'' => Rpow p' 2 / p - p'')
                  probs (map (deriv_first g g1) terms)
                  (map (deriv_second g g1 g2) terms) [] [] [] 0
                  eq_refl eq_refl) as F.
    cbn [app List.length] in F. change (Z.of_nat 0) with 0%Z in F.
    rewrite F by (rewrite E, !length_map; reflexivity).
    clear F. cbn [bind]. intros H.
    match type of H with
    | Ok ?r = Ok v => assert (Hv : v = r) by congruence
    end.
    clear H. rewrite Hv, E, combine_terms, map_map. cbn [fst snd].
    rewrite (Rsum_minus (fun t => Rpow (deriv_first g g1 t) 2 / (fst t / g))
                        (deriv_second g g1 g2)).
    assert (Z2 : Rsum (map (deriv_second g g1 g2) terms) = 0)
      by apply deriv_sums_zero.
    rewrite Z2.
    assert (0 <= Rsum (map (fun t => Rpow (deriv_first g g1 t) 2
                                     / (fst t / g)) terms)).
    { apply Rsum_map_nonneg. intros t Ht. rewrite Rpow_2.
      apply Rmult_le_pos; [apply Rle_0_sqr|]. left.
      apply Rinv_0_lt_compat, Rdiv_lt_0_compat; [|exact HT].
      exact (terms_positive d theta row t Ht). }
    lra.
Qed.

End RealInformation.

Lemma fisherInf_polytomous_nonnegative_witness :
  exists v, fisherInf gpcm_qs (- 20)%R 0%Z = Ok v /\ (0 <= v)%R.
Proof.
  destruct (fisherInf gpcm_qs (- 20)%R 0%Z) as [v|e] eqn:H.
  - exists v. split; [reflexivity|].
    apply (fisherInf_polytomous_nonnegative gpcm_qs (- 20)%R 0%Z v).
    + reflexivity.
    + intros Hg. discriminate Hg.
    + exact H.
  - exfalso. unfold fisherInf in H.
    change (is_model gpcm_qs "ltm" || is_model gpcm_qs "tpm") with false in H.
    change (is_model gpcm_qs "grm") with false in H.
    change (is_model gpcm_qs "gpcm") with true in H.
    rewrite gpcm_probability_example in H. cbn [bind] in H.
    change (vec_at (discrimination gpcm_qs) 0%Z) with (@Ok R 1%R) in H.
    cbn [bind] in H.
    rewrite (prob_derivs_gpcm_terms gpcm_qs (- 20)%R 0%Z 1%R [0%R]
               eq_refl eq_refl) in H.
    cbn [bind] in H. discriminate H.
Defined.

(** ** The Kullback-Leibler term under the polytomous models, over the reals *)

Section RealDivergence.

Local Open Scope R_scope.
Local Abbreviation grm_padded := (@grm_padded RArith).
Implicit Types (qs : QuestionSet RArith) (theta : R).

Lemma vec_at_nth (l : list R) (i : Z) (x : R) :
  vec_at l i = Ok x -> nth (Z.to_nat i) l 0 = x.
Proof.
  intros H. apply vec_at_in_range_inv in H. destruct H as [_ H].
  now apply nth_error_nth.
Qed.

(** The loop of [kl] under grm is bounded below by the telescoped sums of
    the two sequences. *)
Lemma kl_grm_loop (c0 c1 : list R) (n : nat) (first : Z) (acc v : R) :
  Forall (fun m => 0 < m) (differences c0) ->
  Forall (fun m => 0 < m) (differences c1) ->
  foldM (fun sum i =>
           let* hi := vec_at c0 i in
           let* lo := vec_at c0 (i - 1)%Z in
           let prob_theta_not := hi - lo in
           let* hi := vec_at c1 i in
           let* lo := vec_at c1 (i - 1)%Z in
           let prob_theta_hat := hi - lo in
           Ok (sum + prob_theta_not
                     * (ln prob_theta_not - ln prob_theta_hat)))
        (indices first n) acc = Ok v ->
  acc + ((nth (Z.to_nat (first + Z.of_nat n - 1)) c0 0
          - nth (Z.to_nat (first - 1)) c0 0)
         - (nth (Z.to_nat (first + Z.of_nat n - 1)) c1 0
            - nth (Z.to_nat (first - 1)) c1 0)) <= v.
Proof.
  intros H0 H1. rewrite Forall_forall in H0, H1. revert first acc.
  induction n as [|n IH]; intros first acc H.
  - cbn in H. assert (acc = v) by congruence. subst.
    replace (first + Z.of_nat 0 - 1)%Z with (first - 1)%Z by lia. lra.
  - rewrite indices_cons in H. cbn [foldM] in H.
    destruct (vec_at c0 first) as [hi0|] eqn:A1; [|discriminate].
    cbn [bind] in H.
    destruct (vec_at c0 (first - 1)%Z) as [lo0|] eqn:A2; [|discriminate].
    cbn [bind] in H. cbv zeta in H.
    destruct (vec_at c1 first) as [hi1|] eqn:B1; [|discriminate].
    cbn [bind] in H.
    destruct (vec_at c1 (first - 1)%Z) as [lo1|] eqn:B2; [|discriminate].
    cbn [bind] in H. apply IH in H.
    pose proof (H0 _ (differences_at _ _ _ _ A1 A2)) as P0.
    pose proof (H1 _ (differences_at _ _ _ _ B1 B2)) as P1.
    pose proof (gibbs_term _ _ P0 P1) as G.
    replace (first + 1 + Z.of_nat n - 1)%Z
      with (first + Z.of_nat (S n) - 1)%Z in H by lia.
    replace (first + 1 - 1)%Z with first in H by lia.
    rewrite (vec_at_nth _ _ _ A1), (vec_at_nth _ _ _ B1) in H.
    rewrite (vec_at_nth _ _ _ A2), (vec_at_nth _ _ _ B2).
    lra.
Qed.

Lemma grm_padded_ends (d theta : R) (row : list R) :
  nth 0 (grm_padded d theta row) 0 = 0
  /\ nth (S (List.length row)) (grm_padded d theta row) 0 = 1
  /\ List.length (grm_padded d theta row) = S (S (List.length row)).
Proof.
  unfold grm_padded. real. cbn [nth List.length]. split; [reflexivity|].
  rewrite length_app, length_map. cbn [List.length]. split; [|lia].
  rewrite app_nth2; rewrite length_map; [|lia].
  now rewrite Nat.sub_diag.
Qed.

(** The loop of [kl] under gpcm is bounded below by the difference of the
    two sums of masses. *)
Lemma kl_gpcm_loop (rest0 rest1 pre0 pre1 : list R) (acc v : R) :
  Forall (fun m => 0 < m) rest0 ->
  Forall (fun m => 0 < m) rest1 ->
  List.length pre1 = List.length pre0 ->
  List.length rest1 = List.length rest0 ->
  foldM (fun sum i =>
           let* p := vec_at (pre0 ++ rest0) i in
           let* p' := vec_at (pre0 ++ rest0) i in
           let* q := vec_at (pre1 ++ rest1) i in
           Ok (sum + p * (ln p' - ln q)))
        (indices (Z.of_nat (List.length pre0)) (List.length rest0)) acc
  = Ok v ->
  acc + (Rsum rest0 - Rsum rest1) <= v.
Proof.
  revert rest1 pre0 pre1 acc.
  induction rest0 as [|a rest0 IH]; intros [|b rest1] pre0 pre1 acc
    H0 H1 LP LR H; try discriminate.
  - cbn in H. assert (acc = v) by congruence. cbn. lra.
  - cbn [List.length] in H. rewrite indices_cons in H. cbn [foldM] in H.
    rewrite !vec_at_app_head in H. cbn [bind] in H.
    rewrite (vec_at_app_at pre1 rest1 b) in H by lia. cbn [bind] in H.
    inversion H0 as [|? ? Pa H0']; subst.
    inversion H1 as [|? ? Pb H1']; subst.
    specialize (IH rest1 (pre0 ++ [a]) (pre1 ++ [b]) (acc + a * (ln a - ln b))
                   H0' H1').
    rewrite <- !app_assoc, !length_app in IH. cbn [app List.length] in IH.
    replace (Z.of_nat (List.length pre0) + 1)%Z
      with (Z.of_nat (List.length pre0 + 1)) in H by lia.
    apply IH in H; [|lia|cbn [List.length] in LR; lia].
    pose proof (gibbs_term a b Pa Pb). cbn [Rsum fold_right].
    unfold Rsum in H. lra.
Qed.

Lemma positive_entries (l : list R) :
  Forall (fun p => 0 < p <= 1) l -> Forall (fun m => 0 < m) l.
Proof.
  intros H. apply Forall_forall. rewrite Forall_forall in H.
  intros m Hm. now apply H.
Qed.

(** X22.  Under gpcm, and under grm for an item whose thresholds do not
    decrease, the Kullback-Leibler term [kl] is never negative. *)
Theorem kl_polytomous_nonnegative qs (theta_not theta : R) (item : Z)
  (v : R) :
  is_model qs "grm" || is_model qs "gpcm" = true ->
  (is_model qs "grm" = true ->
   forall row, vec_at (difficulty qs) item = Ok row -> Sorted Rle row) ->
  kl qs theta_not item theta = Ok v ->
  0 <= v.
Proof.
  intros Hm HS. unfold kl.
  destruct (is_model qs "grm") eqn:Hg.
  - destruct (grm_excludes qs Hg) as [Hb Hp]. rewrite Hb, Hp.
    destruct (probability qs theta_not item) as [c0|] eqn:P0; [|discriminate].
    cbn [bind].
    destruct (probability qs theta item) as [c1|] eqn:P1; [|discriminate].
    cbn [bind]. real.
    destruct (foldM _ (indices 1 (List.length c1 - 1)) 0) as [out|] eqn:HF;
      [|discriminate].
    cbn [bind]. intros H. assert (Hv : v = out) by congruence. subst v.
    destruct (grm_entries qs theta_not item c0 Hg P0)
      as (d0 & row & Hrow & E0 & A0).
    destruct (grm_entries qs theta item c1 Hg P1)
      as (d1 & row' & Hrow' & E1 & A1).
    real. assert (row' = row) by congruence. subst row' c0 c1.
    pose proof (HS eq_refl row Hrow) as Hsorted.
    pose proof (positive_entries _ (padded_masses_range d0 theta_not row
                                      Hsorted A0)) as M0.
    pose proof (positive_entries _ (padded_masses_range d1 theta row
                                      Hsorted A1)) as M1.
    apply (kl_grm_loop _ _ _ _ _ _ M0 M1) in HF.
    destruct (grm_padded_ends d0 theta_not row) as (Z0 & O0 & _).
    destruct (grm_padded_ends d1 theta row) as (Z1 & O1 & L1).
    real. rewrite L1 in HF.
    replace (Z.to_nat (1 + Z.of_nat (S (S (List.length row)) - 1) - 1))
      with (S (List.length row)) in HF by lia.
    change (Z.to_nat (1 - 1)) with 0%nat in HF.
    rewrite Z0, O0, Z1, O1 in HF. lra.
  - cbn [orb] in Hm. destruct (gpcm_excludes qs Hm) as [Hb _].
    rewrite Hb, Hm.
    destruct (probability qs theta_not item) as [c0|] eqn:P0; [|discriminate].
    cbn [bind].
    destruct (probability qs theta item) as [c1|] eqn:P1; [|discriminate].
    cbn [bind]. real.
    destruct (foldM _ (indices 0 (List.length c0)) 0) as [out|] eqn:HF;
      [|discriminate].
    cbn [bind]. intros H. assert (Hv : v = out) by congruence. subst v.
    destruct (gpcm_entries_range qs theta_not item c0 Hm P0) as [R0 S0].
    destruct (gpcm_entries_range qs theta item c1 Hm P1) as [R1 S1].
    assert (HL : List.length c1 = List.length c0).
    { destruct (proj2 (probability_size qs item theta_not c0 P0) Hg Hm)
        as (row & Hrow & L0).
      destruct (proj2 (probability_size qs item theta c1 P1) Hg Hm)
        as (row' & Hrow' & L1).
      real. assert (row' = row) by congruence. subst row'. lia. }
    apply (kl_gpcm_loop c0 c1 [] [] 0 out (positive_entries _ R0)
             (positive_entries _ R1) eq_refl HL) in HF.
    lra.
Qed.

End RealDivergence.

Lemma kl_polytomous_nonnegative_witness :
  exists v, kl gpcm_qs (- 20)%R 0%Z (- 20)%R = Ok v /\ (0 <= v)%R.
Proof.
  destruct (kl gpcm_qs (- 20)%R 0%Z (- 20)%R) as [v|e] eqn:H.
  - exists v. split; [reflexivity|].
    apply (kl_polytomous_nonnegative gpcm_qs (- 20)%R (- 20)%R 0%Z v).
    + reflexivity.
    + intros Hg. discriminate Hg.
    + exact H.
  - exfalso. unfold kl in H.
    change (is_model gpcm_qs "ltm" || is_model gpcm_qs "tpm") with false in H.
    change (is_model gpcm_qs "grm") with false in H.
    change (is_model gpcm_qs "gpcm") with true in H.
    cbn [bind] in H.
    rewrite gpcm_probability_example in H. cbn [bind] in H.
    discriminate H.
Defined.

(** ** The clamp in every arithmetic *)

Section ClampGeneric.
Context {A : Arith}.
Local Open Scope double_scope.






End ClampGeneric.

(** ** Binary64: the order of the comparisons *)

Section Binary64Order.

Import Floats.





End Binary64Order.

(** ** Binary64: the clamp, rounding and NaN *)

Section Binary64Program.

#[local] Existing Instance B64 | 0.
#[local] Opaque Binary64.exp Binary64.log Binary64.pow.
Local Open Scope double_scope.







(** C9, as stated, fails in binary64: for the item with discrimination
    [1], difficulty [0] and guessing [0], [prob_ltm] returns
    [0x1.14fb218519abdp-1] at [theta_lo] and the smaller
    [0x1.14fb218519abcp-1] at the next double [theta_hi]; the rounded
    quotient falls by one unit in the last place. *)
Lemma prob_ltm_decreases_in_binary64 :
  PrimFloat.ltb PrimFloat.zero PrimFloat.one = true
  /\ PrimFloat.ltb theta_lo theta_hi = true
  /\ prob_ltm (b64_binary_qs PrimFloat.one PrimFloat.zero) theta_lo 0%Z
     = Ok (Binary64.round 0x114fb218519abd (-53))
  /\ prob_ltm (b64_binary_qs PrimFloat.one PrimFloat.zero) theta_hi 0%Z
     = Ok (Binary64.round 0x114fb218519abc (-53))
  /\ PrimFloat.ltb (Binary64.round 0x114fb218519abc (-53))
                   (Binary64.round 0x114fb218519abd (-53)) = true.
Proof. vm_compute. repeat split. Qed.

(** C6, as stated, fails in binary64: for the item with discrimination
    [1.7], difficulty [0] and guessing [0.2], at theta [0] and answer [1],
    the overload of [d2LL] returns [-0x1.ed3a06d3a06d5p-2] where [d2LL] on
    the state with the answer stored returns [-0x1.ed3a06d3a06d3p-2]. *)
Lemma d2LL_overloads_differ_in_binary64 :
  let qs := b64_binary_qs (Binary64.ratio 17 10) (Binary64.ratio 2 10) in
  ~ In 0%Z (applicable_rows qs)
  /\ vec_set (answers qs) 0%Z 1%Z = Ok [1%Z]
  /\ d2LL_qa qs PrimFloat.zero false b64_prior 0%Z 1%Z
     = Ok (PrimFloat.opp (Binary64.round 0x1ed3a06d3a06d5 (-54)))
  /\ d2LL (committed qs 0%Z [1%Z]) PrimFloat.zero false b64_prior
     = Ok (PrimFloat.opp (Binary64.round 0x1ed3a06d3a06d3 (-54)))
  /\ PrimFloat.eqb (PrimFloat.opp (Binary64.round 0x1ed3a06d3a06d5 (-54)))
                   (PrimFloat.opp (Binary64.round 0x1ed3a06d3a06d3 (-54)))
     = false.
Proof.
  cbv zeta. split; [intros []|]. vm_compute. repeat split.
Qed.

(** In binary64 a mass of [prob_gpcm] can be [0]: for discrimination [1]
    and threshold [0] at theta [-400] the second exponential underflows
    and [probability] returns [[1; 0]]. *)
Lemma prob_gpcm_underflow_in_binary64 :
  probability b64_gpcm_qs (Binary64.of_Z (-400)) 0%Z
  = Ok [PrimFloat.one; PrimFloat.zero].
Proof. vm_compute. reflexivity. Qed.

End Binary64Program.

(** ** [expectedPV] that ends in an error *)

Section TransientErrors.
Context {A : Arith}.
Variable ext : Externals A.
Variables (item : Z) (prior : Prior A).

Local Abbreviation touched := (only_answer item).
Local Abbreviation pushed qs :=
  (set_applicable_rows qs (applicable_rows qs ++ [item])).

Lemma pushed_left (qs s : QuestionSet A) :
  touched (pushed qs) s -> left_pushed item qs s.
Proof.
  intros [->|(w & ->)]; [left | right; exists w]; reflexivity.
Qed.

Lemma assign_answer_touched (v : Z) (s s' : QuestionSet A) (r : Res unit) :
  assign_answer item v s = (r, s') -> touched s s'.
Proof.
  intros H. apply assign_answer_state in H.
  destruct H as [->| ->]; [now left | right; eexists; reflexivity].
Qed.

Lemma touched_is_model (s s' : QuestionSet A) (tag : string) :
  touched s s' -> is_model s' tag = is_model s tag.
Proof. intros [->|(w & ->)]; reflexivity. Qed.

Lemma touched_valid (s s' : QuestionSet A) :
  touched s s' -> valid_item s item -> valid_item s' item.
Proof.
  intros [->|(w & ->)]; [auto|]. unfold valid_item, reshaped.
  cbn [answers set_answers set_applicable_rows].
  now rewrite list_set_length.
Qed.

(** An error of [binary_posterior_variance] comes from its first
    statement, with the state untouched, or from a statement after the
    push, with the item left in [applicable_rows]. *)
Lemma binary_posterior_variance_throw (qs qs' : QuestionSet A) (e : error) :
  binary_posterior_variance ext item prior qs = (Throw e, qs') ->
  ((let* t := estimateTheta ext qs prior in prob_ltm qs t item) = Throw e
   /\ qs' = qs)
  \/ ((exists p, (let* t := estimateTheta ext qs prior in
                  prob_ltm qs t item) = Ok p)
      /\ left_pushed item qs qs').
Proof.
  unfold binary_posterior_variance. unfold bindM at 1, read at 1. intros H.
  destruct (let* t := estimateTheta ext qs prior in prob_ltm qs t item)
    as [p|e0].
  2: { injection H as <- <-. left. split; reflexivity. }
  right. split; [eexists; reflexivity|]. apply pushed_left.
  unfold bindM at 1, push_back_row at 1 in H.
  unfold bindM at 1 in H.
  destruct (assign_answer item 1 (pushed qs)) as [[[]|e1] s1] eqn:E1;
    apply assign_answer_touched in E1.
  2: { injection H as _ <-. exact E1. }
  unfold bindM at 1, read at 1 in H.
  destruct (estimateSE ext s1 prior) as [se1|e1].
  2: { injection H as _ <-. exact E1. }
  unfold bindM at 1 in H.
  destruct (assign_answer item 0 s1) as [[[]|e2] s2] eqn:E2;
    apply assign_answer_touched in E2;
    pose proof (only_answer_trans _ _ _ _ E1 E2) as E12.
  2: { injection H as _ <-. exact E12. }
  unfold bindM at 1, read at 1 in H.
  destruct (estimateSE ext s2 prior) as [se2|e2].
  2: { injection H as _ <-. exact E12. }
  discriminate H.
Qed.

(** The same for [polytomous_posterior_variance]. *)
Lemma polytomous_posterior_variance_throw (qs qs' : QuestionSet A)
  (e : error) :
  polytomous_posterior_variance ext item prior qs = (Throw e, qs') ->
  ((let* t := estimateTheta ext qs prior in probability qs t item) = Throw e
   /\ qs' = qs)
  \/ ((exists p, (let* t := estimateTheta ext qs prior in
                  probability qs t item) = Ok p)
      /\ left_pushed item qs qs').
Proof.
  unfold polytomous_posterior_variance.
  unfold bindM at 1, read at 1. intros H.
  destruct (let* t := estimateTheta ext qs prior in probability qs t item)
    as [probabilities|e0].
  2: { injection H as <- <-. left. split; reflexivity. }
  right. split; [eexists; reflexivity|]. apply pushed_left.
  unfold bindM at 1, push_back_row at 1 in H.
  unfold bindM at 1, read at 1 in H.
  destruct (vec_at (difficulty _) item) as [row|e1].
  2: { injection H as _ <-. now left. }
  unfold bindM at 1 in H.
  match type of H with
  | context [forM ?f ?l ?acc ?s] =>
      destruct (forM f l acc s) as [[variances|e1] s1] eqn:L;
      apply variances_loop_state in L
  end.
  2: { injection H as _ <-. exact L. }
  unfold bindM, read, pop_back_row, ret in H.
  repeat match type of H with
         | context [match ?c with Ok _ => _ | Throw _ => _ end] =>
             destruct c; [|injection H as _ <-; exact L]
         end.
  discriminate H.
Qed.

(** C1 (as amended).  For an item whose answer is the missing-answer
    sentinel: when [expectedPV] returns, it leaves the [QuestionSet] as it
    was, [applicable_rows] and [answers] and every other field; when it
    ends in an error of its first statement, which comes before the push,
    it leaves the [QuestionSet] as it was too; when it ends in any later
    error, [item] stays at the end of [applicable_rows] and [answers[item]]
    is as it was or holds the last answer assigned, and nothing else has
    changed. *)
Theorem expectedPV_restores_state (qs qs' : QuestionSet A) (r : Res double) :
  vec_at (answers qs) item = Ok NA_INTEGER ->
  expectedPV ext item prior qs = (r, qs') ->
  match r with
  | Ok _ => qs' = qs
  | Throw e =>
      (before_push ext item prior qs = Throw e /\ qs' = qs)
      \/ (before_push ext item prior qs = Ok tt
          /\ left_pushed item qs qs')
  end.
Proof.
  intros Hna H.
  destruct r as [v|e];
    [exact (expectedPV_returns_restored ext item prior qs qs' v Hna H)|].
  apply vec_at_in_range_inv in Hna. destruct Hna as [Hrange _].
  assert (Hend : forall s (x : double),
             touched qs s ->
             bindM (assign_answer item NA_INTEGER) (fun _ => ret x) s
             <> (Throw e, qs')).
  { intros s x T. unfold bindM.
    rewrite (assign_answer_run item s NA_INTEGER
               (touched_valid qs s T Hrange)).
    discriminate. }
  unfold expectedPV in H.
  unfold bindM at 1, model_is at 1 in H.
  unfold bindM at 1, model_is at 1 in H.
  unfold bindM at 1 in H. unfold before_push.
  destruct (is_model qs "ltm" || is_model qs "tpm") eqn:B1.
  - destruct (binary_posterior_variance ext item prior qs)
      as [[x1|e1] s1] eqn:E1.
    + apply binary_posterior_variance_state in E1.
      destruct (models_exclusive qs B1) as [B2 B3].
      unfold bindM at 1, model_is at 1 in H.
      rewrite (touched_is_model qs s1 "grm" E1), B2 in H.
      unfold bindM at 1, ret at 1 in H.
      unfold bindM at 1, model_is at 1 in H.
      rewrite (touched_is_model qs s1 "gpcm" E1), B3 in H.
      unfold bindM at 1, ret at 1 in H.
      exfalso. exact (Hend s1 x1 E1 H).
    + injection H as <- <-.
      apply binary_posterior_variance_throw in E1.
      destruct E1 as [[E ->]|[(p & E) L]]; rewrite E; [left | right];
        split; auto.
  - unfold ret at 1 in H. unfold bindM at 1, model_is at 1 in H.
    unfold bindM at 1 in H.
    destruct (is_model qs "grm") eqn:B2.
    + cbn [orb].
      destruct (polytomous_posterior_variance ext item prior qs)
        as [[x1|e1] s1] eqn:E1.
      * apply polytomous_posterior_variance_state in E1.
        assert (B3 : is_model qs "gpcm" = false).
        { apply String.eqb_eq in B2. unfold is_model. now rewrite B2. }
        unfold bindM at 1, model_is at 1 in H.
        rewrite (touched_is_model qs s1 "gpcm" E1), B3 in H.
        unfold bindM at 1, ret at 1 in H.
        exfalso. exact (Hend s1 x1 E1 H).
      * injection H as <- <-.
        apply polytomous_posterior_variance_throw in E1.
        destruct E1 as [[E ->]|[(p & E) L]]; rewrite E; [left | right];
          split; auto.
    + unfold ret at 1 in H. unfold bindM at 1, model_is at 1 in H.
      unfold bindM at 1 in H. cbn [orb].
      destruct (is_model qs "gpcm") eqn:B3.
      * destruct (polytomous_posterior_variance ext item prior qs)
          as [[x1|e1] s1] eqn:E1.
        -- apply polytomous_posterior_variance_state in E1.
           exfalso. exact (Hend s1 x1 E1 H).
        -- injection H as <- <-.
           apply polytomous_posterior_variance_throw in E1.
           destruct E1 as [[E ->]|[(p & E) L]]; rewrite E; [left | right];
             split; auto.
      * unfold ret at 1 in H. exfalso.
        exact (Hend qs (of_int 0) (or_introl eq_refl) H).
Qed.

End TransientErrors.

(** ** Runs of [expectedPV] and [selectItem] on the example tests *)

Section RealRuns.

Local Open Scope R_scope.
Local Abbreviation eps := (@eps RArith).
Local Abbreviation calculate := (@calculate RArith).

(** On the graded test with boundaries [0] and [1], at theta [21] both
    boundary values are clamped to [eps] and [probability] throws. *)
Lemma probability_far_right :
  probability grm_wide_qs 21 0%Z = Throw domain_error.
Proof.
  unfold probability.
  change ((0 <? 0)%Z || (Z.of_nat (List.length (answers grm_wide_qs)) <? 0)%Z)
    with false.
  change (is_model grm_wide_qs "grm") with true. cbv iota.
  apply (clamped_neighbours_throw grm_wide_qs 21 0%Z 1 0 1 [] []);
    try reflexivity.
  pose proof exp_minus_20_lt_eps as E.
  rewrite !calculate_low; [reflexivity| |].
  - replace (1 - 1 * 21) with (- 20) by lra. exact E.
  - apply Rlt_trans with (Rtrigo_def.exp (- 20)); [|exact E].
    apply exp_increasing. lra.
Qed.

Lemma expectedPV_far_right :
  exists s,
    expectedPV prior_estimator 0%Z far_prior grm_wide_qs
    = (Throw domain_error, s).
Proof.
  unfold expectedPV, bindM at 1 2 3, model_is.
  change (is_model grm_wide_qs "ltm" || is_model grm_wide_qs "tpm")
    with false.
  unfold ret at 1. unfold bindM at 1 2.
  change (is_model grm_wide_qs "grm") with true.
  unfold polytomous_posterior_variance.
  unfold bindM at 1, read at 1.
  cbn [estimateTheta prior_estimator bind param0 far_prior].
  rewrite probability_far_right. eexists. reflexivity.
Qed.

Lemma expectedPV_returns_example :
  exists v s,
    expectedPV prior_estimator 0%Z std_prior ltm_qs = (Ok v, s).
Proof.
  unfold expectedPV, binary_posterior_variance, bindM at 1 2 3, model_is.
  change (is_model ltm_qs "ltm" || is_model ltm_qs "tpm") with true.
  unfold bindM at 1, read at 1.
  cbn [estimateTheta prior_estimator bind].
  rewrite (prob_ltm_real ltm_qs _ 0%Z 0%R [] 1%R 0%R) by reflexivity.
  do 2 eexists. reflexivity.
Qed.

Lemma expectedPV_restores_state_witness :
  (exists v,
      expectedPV prior_estimator 0%Z std_prior ltm_qs = (Ok v, ltm_qs))
  /\ expectedPV prior_estimator 0%Z far_prior grm_wide_qs
     = (Throw domain_error, grm_wide_qs).
Proof.
  split.
  - destruct expectedPV_returns_example as (v & s & E). exists v.
    rewrite E. f_equal.
    exact (expectedPV_restores_state prior_estimator 0%Z std_prior ltm_qs s
             (Ok v) eq_refl E).
  - destruct expectedPV_far_right as (s & E). rewrite E. f_equal.
    destruct (expectedPV_restores_state prior_estimator 0%Z far_prior
                grm_wide_qs s (Throw domain_error) eq_refl E)
      as [[_ Hs]|[Hb _]]; [exact Hs|].
    unfold before_push in Hb.
    change (is_model grm_wide_qs "ltm" || is_model grm_wide_qs "tpm")
      with false in Hb.
    change (is_model grm_wide_qs "grm" || is_model grm_wide_qs "gpcm")
      with true in Hb.
    cbn [estimateTheta prior_estimator bind param0 far_prior] in Hb.
    rewrite probability_far_right in Hb. discriminate Hb.
Defined.







End RealRuns.
